(** * pyplume.gapfilling: the gap-filling pipeline

    A shallow embedding of [pyplume/gapfilling.py]: the interpolation step
    ([get_interped], [InterpolationStep]), the smoothing step
    ([SmoothnStep]), the step registry ([import_gapfill_step]) and the
    orchestrator ([Gapfiller]), followed by the properties of the pipeline.

    Numbers are IEEE binary64 values (Rocq's primitive floats), so that NaN
    and the comparison with zero behave as they do in numpy.  A numpy array
    of shape (time, lat, lon) is the nested list that [tolist()] gives.
    Python exceptions, the logger and the arrays that the steps copy and
    update in place are explicit: a computation is a function from a world
    (the arrays allocated so far, the log) to an outcome. *)

From Stdlib Require Import ZArith Floats.
From stdpp Require Import base option list strings gmap.

(** ** Exceptions and outcomes *)

Inductive exn : Type :=
  | ValueError (msg : string)
  | TypeError (msg : string)
  | AttributeError (msg : string)
  | KeyError (key : string)
  | IndexError
  | OutOfDomain          (* a grid lookup outside the grid's coordinate span *)
  | LoaderError          (* raised by the remote data-source loader *)
  | EngineError.         (* raised by the external smoothing engine *)

(** A call that touches neither the arrays nor the log. *)
Inductive result (A : Type) : Type :=
  | Ok (a : A)
  | Err (e : exn).
Arguments Ok {A} a.
Arguments Err {A} e.

Definition rbind {A B} (r : result A) (k : A → result B) : result B :=
  match r with
  | Ok a => k a
  | Err e => Err e
  end.

Notation "'let?' x ':=' r 'in' k" := (rbind r (λ x, k))
  (at level 10, x pattern, r at level 100, k at level 200).

(** [l[i]] on a Python list or a 1-d numpy array, for [0 <= i]. *)
Definition index {A} (l : list A) (i : nat) : result A :=
  match l !! i with
  | Some x => Ok x
  | None => Err IndexError
  end.

(** [l[-1]] *)
Definition index_last {A} (l : list A) : result A :=
  match last l with
  | Some x => Ok x
  | None => Err IndexError
  end.

(** ** numpy arrays *)

Abbreviation nd2 A := (list (list A)) (only parsing).
Abbreviation nd3 A := (list (list (list A))) (only parsing).
Abbreviation arr2 := (list (list float)) (only parsing).
Abbreviation arr3 := (list (list (list float))) (only parsing).
Abbreviation mask2 := (list (list bool)) (only parsing).
Abbreviation mask3 := (list (list (list bool))) (only parsing).

(** A cell (time index, lat index, lon index). *)
Abbreviation pos := (nat * nat * nat)%type (only parsing).

(** [a[t, i, j]], [None] when the index is out of bounds. *)
Definition get3 {A} (a : nd3 A) (p : pos) : option A :=
  let '(t, i, j) := p in
  plane ← a !! t; row ← plane !! i; row !! j.

(** [a[t, i, j] = x], [None] when the index is out of bounds. *)
Definition set3 {A} (a : nd3 A) (p : pos) (x : A) : option (nd3 A) :=
  let '(t, i, j) := p in
  plane ← a !! t; row ← plane !! i; _ ← row !! j;
  Some (<[t := <[i := <[j := x]> row]> plane]> a).

(** [a.shape], read off every row: the lengths of the rows of every plane. *)
Definition shape3 {A} (a : nd3 A) : list (list nat) := map (map length) a.

(** [a.shape == (T, Y, X)] *)
Definition has_shape {A} (a : nd3 A) (T Y X : nat) : bool :=
  bool_decide (length a = T)
  && forallb (λ plane, bool_decide (length plane = Y)
                       && forallb (λ row : list A, bool_decide (length row = X)) plane) a.

(** Concatenation of [f k x] over the elements [x] of a list, [k] the index
    of [x] counted from [k0]: the row-major enumeration behind [np.where]. *)
Fixpoint iconcat {A B} (f : nat → A → list B) (k0 : nat) (l : list A) : list B :=
  match l with
  | [] => []
  | x :: l' => f k0 x ++ iconcat f (S k0) l'
  end.

(** [np.where(m)] for a 3-d boolean array: the cells that hold [True], in
    row-major order.  numpy returns three parallel index arrays; here a cell
    is one triple, so [invalid_where[0][n]] is the first component of the
    [n]-th triple. *)
Definition where3 (m : mask3) : list pos :=
  iconcat (λ t plane,
    iconcat (λ i row,
      iconcat (λ j (b : bool), if b then [(t, i, j)] else []) 0 row) 0 plane) 0 m.

(** [m.sum()] for a boolean array: [True] counts one. *)
Definition count1 (row : list bool) : nat :=
  sum_list (map (λ b : bool, if b then 1 else 0) row).
Definition count2 (m : mask2) : nat := sum_list (map count1 m).
Definition count3 (m : mask3) : nat := sum_list (map count2 m).

(** [a[where] = vals] with [where] a tuple of index arrays: the cells are
    assigned in order; an index out of bounds raises [IndexError], values
    that do not match the indices in number raise [ValueError]. *)
Fixpoint setitem3 (a : arr3) (ps : list pos) (vals : list float) : result arr3 :=
  match ps, vals with
  | [], [] => Ok a
  | p :: ps', x :: vals' =>
      match set3 a p x with
      | Some a' => setitem3 a' ps' vals'
      | None => Err IndexError
      end
  | _, _ => Err (ValueError "shape mismatch: value array could not be broadcast to indexing result")
  end.

(** [np.tile(m, (T, 1, 1))] for a 2-d array. *)
Definition tile3 {A} (m : nd2 A) (T : nat) : nd3 A := replicate T m.

(** [a[m] = x] with [m] a boolean array: [m] must have the shape of [a]
    ([IndexError] otherwise); the cells where [m] holds are set to [x]. *)
Definition setmask1 (row : list float) (m : list bool) (x : float) : list float :=
  zip_with (λ (y : float) (b : bool), if b then x else y) row m.
Definition setmask2 (a : arr2) (m : mask2) (x : float) : arr2 :=
  zip_with (λ row mrow, setmask1 row mrow x) a m.
Definition setmask3 (a : arr3) (m : mask3) (x : float) : result arr3 :=
  if bool_decide (shape3 a = shape3 m)
  then Ok (zip_with (λ plane mplane, setmask2 plane mplane x) a m)
  else Err IndexError.

(** The value of a numpy integer as a float64 ([t * time_diff]). *)
Definition float_of_nat (n : nat) : float := PrimFloat.of_uint63 (Uint63.of_Z (Z.of_nat n)).

(** ** The world: arrays and the log *)

(** What [logger.info] is called with. *)
Inductive event : Type :=
  | LogTargetInvalid (n : nat)
      (* total invalid values on target data: n *)
  | LogAttempt (n : nat)
      (* Attempting to interpolate n points... *)
  | LogAfterRef (remaining : nat) (filled : Z)
      (* total invalid values after interpolation with ref: ... values filled: ... *)
  | LogInterpolated (n : nat)
      (* total invalid values on interpolated: n *)
  | LogFilling (n : nat)
      (* Filling n fields... *)
  | LogExecuting
      (* Executing gapfiller on target ... with steps ... *)
  | LogCompleted.
      (* Completed gapfilling on target ... *)

(** A location names a numpy array object. *)
Abbreviation loc := nat (only parsing).

Record world : Type := World {
  heap : list arr3;
  log : list event;
}.

Inductive outcome (A : Type) : Type :=
  | Return (a : A) (w : world)
  | Raise (e : exn) (w : world).
Arguments Return {A} a w.
Arguments Raise {A} e w.

(** The world an outcome ends in. *)
Definition world_of {A} (r : outcome A) : world :=
  match r with
  | Return _ w => w
  | Raise _ w => w
  end.

Definition M (A : Type) : Type := world → outcome A.

Definition ret {A} (a : A) : M A := λ w, Return a w.
Definition raise {A} (e : exn) : M A := λ w, Raise e w.
Definition bind {A B} (m : M A) (k : A → M B) : M B :=
  λ w, match m w with
       | Return a w' => k a w'
       | Raise e w' => Raise e w'
       end.
Definition lift {A} (r : result A) : M A :=
  λ w, match r with
       | Ok a => Return a w
       | Err e => Raise e w
       end.

Notation "'let*' x ':=' m 'in' k" := (bind m (λ x, k))
  (at level 10, x pattern, m at level 100, k at level 200).

(** [logger.info(...)] *)
Definition log_info (ev : event) : M unit :=
  λ w, Return () (World (heap w) (log w ++ [ev])).

(** The array at a location.  A location is a reference to an array object,
    so a Python name always denotes one; the failing branch is for locations
    that were never handed out by [alloc]. *)
Definition read (l : loc) : M arr3 :=
  λ w, match heap w !! l with
       | Some a => Return a w
       | None => Raise (ValueError "no such array") w
       end.

(** A new array object holding [a]. *)
Definition alloc (a : arr3) : M loc :=
  λ w, Return (length (heap w)) (World (heap w ++ [a]) (log w)).

(** The array at [l] becomes [a]: an update in place. *)
Definition write (l : loc) (a : arr3) : M unit :=
  λ w, Return () (World (<[l := a]> (heap w)) (log w)).

(** [a.copy()] *)
Definition copy (l : loc) : M loc :=
  let* a := read l in alloc a.

(** ** xarray datasets *)

(** A coordinate array: time instants ([datetime64], as integers) or
    latitudes / longitudes. *)
Inductive axis : Type :=
  | TimeAxis (ts : list Z)
  | FloatAxis (xs : list float).

Definition axis_size (ax : axis) : nat :=
  match ax with
  | TimeAxis ts => length ts
  | FloatAxis xs => length xs
  end.

(** Equality of coordinate arrays as xarray decides it: element-wise, two
    NaN being equal. *)
Definition float_equiv (x y : float) : bool := (x =? y)%float || (is_nan x && is_nan y).

Fixpoint list_eqb {A} (eqb : A → A → bool) (l k : list A) : bool :=
  match l, k with
  | [], [] => true
  | x :: l', y :: k' => eqb x y && list_eqb eqb l' k'
  | _, _ => false
  end.

Definition axis_equiv (a b : axis) : bool :=
  match a, b with
  | TimeAxis ts, TimeAxis us => list_eqb Z.eqb ts us
  | FloatAxis xs, FloatAxis ys => list_eqb float_equiv xs ys
  | _, _ => false
  end.

Abbreviation attrs := (gmap string string) (only parsing).

(** A data variable: its dimension names, its values and its attributes. *)
Record variable : Type := {
  var_dims : list string;
  var_values : arr3;
  var_attrs : attrs;
}.

(** A variable together with the coordinates of its dimensions. *)
Record DataArray : Type := {
  da_values : arr3;
  da_dims : list string;
  da_coords : gmap string axis;
  da_attrs : attrs;
}.

Record Dataset : Type := {
  data_vars : gmap string variable;
  coords : gmap string axis;
  ds_attrs : attrs;
}.

(** [a.shape] as numpy reports it for a rectangular array. *)
Definition shape_of {A} (a : nd3 A) : list nat :=
  [ length a;
    default 0 (length <$> head a);
    default 0 (length <$> (head a ≫= head)) ].

(** [ds.dims]: every dimension with its size, as the coordinates and the
    data variables give them. *)
Definition var_dim_sizes (v : variable) : list (string * nat) :=
  zip (var_dims v) (shape_of (var_values v)).

Definition ds_dims (d : Dataset) : list (string * nat) :=
  map (λ '(name, ax), (name, axis_size ax)) (map_to_list (coords d))
  ++ mjoin (map (λ '(_, v), var_dim_sizes v) (map_to_list (data_vars d))).

(** [ds[name]] for a data variable: the variable with the coordinates of
    its dimensions. *)
Definition getitem (d : Dataset) (name : string) : result DataArray :=
  match data_vars d !! name with
  | Some v =>
      Ok {| da_values := var_values v;
            da_dims := var_dims v;
            da_coords := filter (λ '(c, _), c ∈ var_dims v) (coords d);
            da_attrs := var_attrs v |}
  | None => Err (KeyError name)
  end.

(** [ds[name].size] for a coordinate. *)
Definition coord_size (d : Dataset) (name : string) : result nat :=
  match coords d !! name with
  | Some ax => Ok (axis_size ax)
  | None => Err (KeyError name)
  end.

(** [ds.drop_vars(names)]: every name must be a variable of the dataset. *)
Definition drop_vars (d : Dataset) (names : list string) : result Dataset :=
  if forallb (λ n, bool_decide (is_Some (data_vars d !! n))) names
  then Ok {| data_vars := foldr delete (data_vars d) names;
             coords := coords d;
             ds_attrs := ds_attrs d |}
  else Err (ValueError "These variables cannot be found in this dataset").

(** The coordinates of a new variable merged into those of the dataset:
    a coordinate the dataset has must be the same array (xarray would
    re-index the variable otherwise; here that is an error), a new one
    is added. *)
Definition merge_coords (cs new : gmap string axis) : result (gmap string axis) :=
  if forallb (λ '(c, ax),
        match cs !! c with
        | Some ax' => axis_equiv ax' ax
        | None => true
        end) (map_to_list new)
  then Ok (cs ∪ new)
  else Err (ValueError "cannot reindex or align along dimension").

(** [ds.assign(name=da)] *)
Definition assign1 (d : Dataset) (name : string) (da : DataArray) : result Dataset :=
  let? cs := merge_coords (coords d) (da_coords da) in
  Ok {| data_vars := <[name := {| var_dims := da_dims da;
                                  var_values := da_values da;
                                  var_attrs := da_attrs da |}]> (data_vars d);
        coords := cs;
        ds_attrs := ds_attrs d |}.

Fixpoint assign (d : Dataset) (kw : list (string * DataArray)) : result Dataset :=
  match kw with
  | [] => Ok d
  | (name, da) :: kw' => let? d' := assign1 d name da in assign d' kw'
  end.

(** [xr.DataArray(arr, coords=coords, dims=dims, attrs=attrs)]: the array
    must have one axis per dimension, of the size of the dimension's
    coordinate where there is one. *)
Definition axis_fits (cs : gmap string axis) (d : string) (n : nat) : bool :=
  match cs !! d with
  | Some ax => bool_decide (axis_size ax = n)
  | None => true
  end.

Definition fits (arr : arr3) (cs : gmap string axis) (dims : list string) : bool :=
  match dims, shape_of arr with
  | [dt; dy; dx], [T; Y; X] =>
      has_shape arr T Y X && axis_fits cs dt T && axis_fits cs dy Y && axis_fits cs dx X
  | _, _ => false
  end.

Definition new_DataArray (arr : arr3) (cs : gmap string axis) (dims : list string)
    (ats : attrs) : result DataArray :=
  if fits arr cs dims
  then Ok {| da_values := arr; da_dims := dims; da_coords := cs; da_attrs := ats |}
  else Err (ValueError "conflicting sizes for dimension").

(** ** The parts of the package that this module imports *)

(** Modelled from the spec: the class [SurfaceGrid] of [pyplume.dataloaders]
    is not part of this module.  A grid wraps a dataset and exposes its
    coordinate axes ([coordinates() -> (times, lats, lons)]) and two point
    lookups, which fail when the query lies outside the grid
    ([OutOfDomain]) and are otherwise left open: [get_fs_vector] takes a
    time in seconds, [get_closest_current] a time index; [grid_time] is
    [fieldset_flat.U.grid.time]. *)
Record SurfaceGrid : Type := {
  ds : Dataset;
  times : list Z;
  lats : list float;
  lons : list float;
  grid_time : list float;
  get_fs_vector : float → float → float → result (float * float);
  get_closest_current : nat → float → float → result (float * float);
}.

Definition get_coords (g : SurfaceGrid) : list Z * list float * list float :=
  (times g, lats g, lons g).

(** A candidate reference of [InterpolationStep]: a grid, a locator
    string, or anything else. *)
Inductive reference : Type :=
  | RefGrid (g : SurfaceGrid)
  | RefStr (s : string)
  | RefOther.

(** What the mask of [SmoothnStep] may be given as: a grid, a dataset, or
    a URL or path. *)
Inductive mask_source : Type :=
  | MaskGrid (g : SurfaceGrid)
  | MaskDataset (d : Dataset)
  | MaskPath (s : string).

(** The keyword arguments of a configuration record. *)
Inductive arguments : Type :=
  | ArgsNone
  | ArgsReferences (references : option (list reference))
  | ArgsMask (mask : option mask_source).

(** What the module calls and does not define: the mask helpers of
    [pyplume.utils], the [SurfaceGrid] constructors, the remote loader with
    its slicing utility, the MATLAB engine ([matlab.engine.start_matlab()],
    the engine's [smoothn] and [quit()], each of which may raise), and the
    Python interpreter for the attributes that every module object has:
    [object_attribute name] tells whether [getattr] resolves [name] on a
    module object ([__name__], [__doc__], [__class__], [__dir__], ...: the
    set depends on the interpreter), and [call_object_attribute name kw]
    is the exception that calling that attribute with the keyword
    arguments [kw] raises, or [None] when the call returns; what it
    returns is no gap-filling step (a string, a list, a number, [None]). *)
Record externals : Type := {
  generate_mask_invalid : arr3 → mask3;
  generate_mask_no_data : arr3 → mask2;
  SurfaceGrid_init : Dataset → result SurfaceGrid;
  from_url_or_path : string → result SurfaceGrid;
  load_source : string → result Dataset;
  slice_dataset : Dataset → Z * Z → float * float → float * float → result Dataset;
  start_matlab : result unit;
  smoothn : arr2 → arr2 → result (arr2 * arr2);
  quit_engine : result unit;
  object_attribute : string → bool;
  call_object_attribute : string → arguments → option exn;
}.

(** Modelled from the spec: [pyplume.utils.conv_to_dataarray] is not part of
    this module.  It re-adds the coordinates, dimensions and metadata of the
    reference variable to the array. *)
Definition conv_to_dataarray (arr : arr3) (darr_ref : DataArray) : result DataArray :=
  new_DataArray arr (da_coords darr_ref) (da_dims darr_ref) (da_attrs darr_ref).

(** ** get_interped *)

(** [np.diff(x)[0]] *)
Definition diff_first (x : list float) : result float :=
  match x with
  | x0 :: x1 :: _ => Ok (x1 - x0)%float
  | _ => Err IndexError
  end.

Definition get_interped (i : nat) (target ref : SurfaceGrid) (invalid_where : list pos)
    : result (float * float) :=
  let? time_diff := diff_first (grid_time ref) in
  let? (t, ilat, ilon) := index invalid_where i in
  let? lat := index (lats target) ilat in
  let? lon := index (lons target) ilon in
  let? (current_u, current_v) := get_fs_vector ref (float_of_nat t * time_diff)%float lat lon in
  let current_abs := (abs current_u + abs current_v)%float in
  (* if both the u and v components are 0, there's probably no data there *)
  let? closest := get_closest_current ref t lat lon in
  if is_nan (fst closest) || (current_abs =? 0)%float
  then Ok (nan, nan)
  else Ok (current_u, current_v).

(** A [for] loop that collects one value per element. *)
Fixpoint mapR {A B} (f : A → result B) (l : list A) : result (list B) :=
  match l with
  | [] => Ok []
  | x :: l' => let? y := f x in let? ys := mapR f l' in Ok (y :: ys)
  end.

(** ** InterpolationStep *)

(** [a and b] on two tests, the second evaluated only if the first holds. *)
Definition and_then (a b : result bool) : result bool :=
  let? x := a in if x then b else Ok false.

(** The message of [do_validation]: the literal is continued over two source
    lines inside the quotes, so the indentation of the second line is part
    of it. *)
Definition incorrect_reference_dimensions : string :=
  "Incorrect reference dimensions (reference dimension ranges                     should be larger than the target's)".

Module InterpolationStep.

Record t : Type := { references : list reference }.

(** [__init__] *)
Definition init (references : option (list reference)) : t :=
  {| references := match references with Some l => l | None => [] end |}.

Section with_externals.
Context (E : externals).

Definition inbounds (target ref : SurfaceGrid) (targ_min targ_max : float * float)
    : result bool :=
  let '(targ_times, _, _) := get_coords target in
  let '(ref_times, ref_lats, ref_lons) := get_coords ref in
  let? lat_inbounds :=
    and_then (let? a := index ref_lats 0 in Ok (a <=? fst targ_min)%float)
             (let? b := index_last ref_lats in Ok (fst targ_max <=? b)%float) in
  let? lon_inbounds :=
    and_then (let? a := index ref_lons 0 in Ok (a <=? snd targ_min)%float)
             (let? b := index_last ref_lons in Ok (snd targ_max <=? b)%float) in
  let? time_inbounds :=
    and_then (let? a := index ref_times 0 in let? b := index targ_times 0 in Ok (a <=? b)%Z)
             (let? a := index_last ref_times in let? b := index_last targ_times in Ok (b <=? a)%Z) in
  Ok (lat_inbounds && lon_inbounds && time_inbounds).

Fixpoint check_references (target : SurfaceGrid) (targ_min targ_max : float * float)
    (loaded_references : list SurfaceGrid) : result unit :=
  match loaded_references with
  | [] => Ok ()
  | ref :: rest =>
      let? ok := inbounds target ref targ_min targ_max in
      if negb ok
      then Err (ValueError incorrect_reference_dimensions)
      else check_references target targ_min targ_max rest
  end.

Definition do_validation (target : SurfaceGrid) (loaded_references : list SurfaceGrid)
    : result unit :=
  let '(targ_times, targ_lats, targ_lons) := get_coords target in
  let? lat0 := index targ_lats 0 in
  let? lon0 := index targ_lons 0 in
  let? lat1 := index_last targ_lats in
  let? lon1 := index_last targ_lons in
  check_references target (lat0, lon0) (lat1, lon1) loaded_references.

(** The body of the first loop of [process]: one reference, loaded.  The
    message of the [TypeError] ends with the printed form of the rejected
    object, which [RefOther] does not carry. *)
Definition load_reference (target : SurfaceGrid) (ref : reference) : result SurfaceGrid :=
  match ref with
  | RefGrid g => Ok g
  | RefStr s =>
      let? raw := load_source E s in
      let '(times, lats, lons) := get_coords target in
      let? t0 := index times 0 in
      let? t1 := index_last times in
      let? lat0 := index lats 0 in
      let? lat1 := index_last lats in
      let? lon0 := index lons 0 in
      let? lon1 := index_last lons in
      (* slice the data before loading into SurfaceGrid since it's huge *)
      let? sliced := slice_dataset E raw (t0, t1) (lat0, lat1) (lon0, lon1) in
      SurfaceGrid_init E sliced
  | RefOther => Err (TypeError "Unrecognized type for reference")
  end.

(** The inner loop: [arr_u] and [arr_v], one pair per invalid cell. *)
Definition interp_values (target ref : SurfaceGrid) (invalid_pos_new : list pos)
    (num_invalid_new : nat) : result (list (float * float)) :=
  mapR (λ i, get_interped i target ref invalid_pos_new) (seq 0 num_invalid_new).

(** The body of the loop over the loaded references: [lu] and [lv] are
    [target_interped_u] and [target_interped_v], the result is the new
    [invalid_interped]. *)
Definition fill_pass (target : SurfaceGrid) (lu lv : loc) (invalid_interped : mask3)
    (ref : SurfaceGrid) : M mask3 :=
  let invalid_pos_new := where3 invalid_interped in
  let num_invalid_new := count3 invalid_interped in
  let* _ := log_info (LogAttempt num_invalid_new) in
  let* vals := lift (interp_values target ref invalid_pos_new num_invalid_new) in
  let* u := read lu in
  let* u' := lift (setitem3 u invalid_pos_new (vals.*1)) in
  let* _ := write lu u' in
  let* v := read lv in
  let* v' := lift (setitem3 v invalid_pos_new (vals.*2)) in
  let* _ := write lv v' in
  let* u'' := read lu in
  let invalid_interped' := generate_mask_invalid E u'' in
  let* _ := log_info (LogAfterRef (count3 invalid_interped')
                        (Z.of_nat num_invalid_new - Z.of_nat (count3 invalid_interped'))) in
  ret invalid_interped'.

Fixpoint ref_loop (target : SurfaceGrid) (lu lv : loc) (invalid_interped : mask3)
    (loaded_references : list SurfaceGrid) : M mask3 :=
  match loaded_references with
  | [] => ret invalid_interped
  | ref :: rest =>
      let* invalid_interped' := fill_pass target lu lv invalid_interped ref in
      ref_loop target lu lv invalid_interped' rest
  end.

Definition process (self : t) (u v : loc) (target : Dataset) : M (loc * loc) :=
  let* target := lift (SurfaceGrid_init E target) in
  let* loaded_references := lift (mapR (load_reference target) (references self)) in
  let* _ := lift (do_validation target loaded_references) in
  let* u_arr := read u in
  let invalid := generate_mask_invalid E u_arr in
  let num_invalid := count3 invalid in
  let* _ := log_info (LogTargetInvalid num_invalid) in
  (* linear interpolation from lower resolution data *)
  let* target_interped_u := copy u in
  let* target_interped_v := copy v in
  let* invalid_interped :=
    ref_loop target target_interped_u target_interped_v invalid loaded_references in
  let* _ := log_info (LogInterpolated (count3 invalid_interped)) in
  ret (target_interped_u, target_interped_v).

End with_externals.
End InterpolationStep.

(** ** SmoothnStep *)

(** [row[:] = src] for one row: [src] has the length of the row, or
    length one and is repeated. *)
Definition broadcast_row (src : list float) (row : list float) : result (list float) :=
  if bool_decide (length src = length row) then Ok src
  else match src with
       | [x] => Ok (replicate (length row) x)
       | _ => Err (ValueError "could not broadcast input array")
       end.

Fixpoint broadcast_rows (src plane : arr2) : result arr2 :=
  match src, plane with
  | [], [] => Ok []
  | s :: src', row :: plane' =>
      let? r := broadcast_row s row in
      let? rs := broadcast_rows src' plane' in
      Ok (r :: rs)
  | _, _ => Err (ValueError "could not broadcast input array")
  end.

(** [a[i] = src] for a plane [a[i]] of a 3-d array: numpy broadcasts [src]
    to the shape of the plane. *)
Definition broadcast_plane (src plane : arr2) : result arr2 :=
  if bool_decide (length src = length plane) then broadcast_rows src plane
  else match src with
       | [s] => broadcast_rows (replicate (length plane) s) plane
       | _ => Err (ValueError "could not broadcast input array")
       end.

Definition set_plane (a : arr3) (i : nat) (src : arr2) : result arr3 :=
  let? plane := index a i in
  let? plane' := broadcast_plane src plane in
  Ok (<[i := plane']> a).

Module SmoothnStep.

Record t : Type := { mask : option SurfaceGrid }.

Section with_externals.
Context (E : externals).

(** [__init__] *)
Definition init (mask : option mask_source) : result t :=
  match mask with
  | Some (MaskGrid g) => Ok {| mask := Some g |}
  | Some (MaskDataset d) => let? g := SurfaceGrid_init E d in Ok {| mask := Some g |}
  | Some (MaskPath s) => let? g := from_url_or_path E s in Ok {| mask := Some g |}
  | None => Ok {| mask := None |}
  end.

Definition do_validation (self : t) (target : SurfaceGrid) : result unit :=
  match mask self with
  | None => Ok ()
  | Some mask =>
      let '(_, targ_lats, targ_lons) := get_coords target in
      let? lat0 := index targ_lats 0 in
      let? lon0 := index targ_lons 0 in
      let? lat1 := index_last targ_lats in
      let? lon1 := index_last targ_lons in
      let '(_, mask_lats, mask_lons) := get_coords mask in
      let mask_same_res :=
        bool_decide (length targ_lats = length mask_lats)
        && bool_decide (length targ_lons = length mask_lons) in
      if negb mask_same_res
      then Err (ValueError "Mask is not the same lat/lon shape as target")
      else
        let? lat_inbounds :=
          and_then (let? a := index mask_lats 0 in Ok (a =? lat0)%float)
                   (let? b := index_last mask_lats in Ok (b =? lat1)%float) in
        let? lon_inbounds :=
          and_then (let? a := index mask_lons 0 in Ok (a =? lon0)%float)
                   (let? b := index_last mask_lons in Ok (b =? lon1)%float) in
        if negb (lat_inbounds && lon_inbounds)
        then Err (ValueError "Incorrect mask dimensions")
        else Ok ()
  end.

(** The body of the loop over the time steps: [u_list] and [v_list] are the
    lists taken from the copies before the loop. *)
Definition smooth_field (lu lv : loc) (u_list v_list : arr3) (i : nat) : M unit :=
  let* u_mat := lift (index u_list i) in
  let* v_mat := lift (index v_list i) in
  let* (u_array, v_array) := lift (smoothn E u_mat v_mat) in
  let* su := read lu in
  let* su' := lift (set_plane su i u_array) in
  let* _ := write lu su' in
  let* sv := read lv in
  let* sv' := lift (set_plane sv i v_array) in
  write lv sv'.

Fixpoint smooth_fields (lu lv : loc) (u_list v_list : arr3) (range : list nat) : M unit :=
  match range with
  | [] => ret ()
  | i :: rest =>
      let* _ := smooth_field lu lv u_list v_list i in
      smooth_fields lu lv u_list v_list rest
  end.

(** The mask enforced after smoothing. *)
Definition apply_mask (self : t) (target : SurfaceGrid) (lu lv : loc) : M unit :=
  match mask self with
  | None => ret ()
  | Some mask =>
      let* mask_u := lift (getitem (ds mask) "U") in
      let no_data := generate_mask_no_data E (da_values mask_u) in
      let* time_size := lift (coord_size (ds target) "time") in
      let no_data := tile3 no_data time_size in
      let* su := read lu in
      let* su' := lift (setmask3 su no_data nan) in
      let* _ := write lu su' in
      let* sv := read lv in
      let* sv' := lift (setmask3 sv no_data nan) in
      write lv sv'
  end.

(** [process].  The engine is started after the validation and quit after
    the mask has been applied; [smoothn] is called once per time step. *)
Definition process (self : t) (u v : loc) (target : Dataset) : M (loc * loc) :=
  let* target := lift (SurfaceGrid_init E target) in
  let* _ := lift (do_validation self target) in
  (* DCT smoothing and gapfilling using matlab *)
  let* _ := lift (start_matlab E) in
  let* target_smoothed_u := copy u in
  let* target_smoothed_v := copy v in
  let* u_list := read target_smoothed_u in
  let* v_list := read target_smoothed_v in
  let* _ := log_info (LogFilling (length u_list)) in
  let* _ := smooth_fields target_smoothed_u target_smoothed_v u_list v_list
              (seq 0 (length u_list)) in
  let* _ := apply_mask self target target_smoothed_u target_smoothed_v in
  let* _ := lift (quit_engine E) in
  ret (target_smoothed_u, target_smoothed_v).

End with_externals.
End SmoothnStep.

(** ** Steps and the registry *)

(** The abstract base class: a step is anything with a [process] method. *)
Class GapfillStep (S : Type) : Type :=
  process : S → loc → loc → Dataset → M (loc * loc).

#[global] Instance InterpolationStep_GapfillStep (E : externals)
    : GapfillStep InterpolationStep.t :=
  InterpolationStep.process E.

#[global] Instance SmoothnStep_GapfillStep (E : externals)
    : GapfillStep SmoothnStep.t :=
  SmoothnStep.process E.

(** An instance of some subclass of [GapfillStep]. *)
Record step : Type := Step {
  step_class : Type;
  step_process : GapfillStep step_class;
  step_self : step_class;
}.
Arguments Step {step_class} step_process step_self.

(** A Python object, as far as [isinstance(obj, GapfillStep)] tells. *)
Inductive pyobj : Type :=
  | PyStep (s : step)
  | PyOther.

(** What [getattr(mod, name)] gives for the module [pyplume.gapfilling]. *)
Inductive attribute : Type :=
  | ClsInterpolationStep
  | ClsSmoothnStep
  | ClsGapfillStep        (* the abstract base class *)
  | ClsGapfiller
  | ClsABC
  | NotAStep              (* modules, functions, the logger, [Tuple], [SurfaceGrid] *)
  | ObjectAttribute (name : string).
                          (* an attribute that every module object has *)

(** The names bound at the top level of the module, imports included.
    The attributes that every module object has ([__name__], [__doc__] and
    the like) are not in this table: [import_gapfill_step] asks the
    interpreter for them. *)
Definition module_namespace : list (string * attribute) :=
  [ ("ABC", ClsABC); ("abstractmethod", NotAStep); ("importlib", NotAStep);
    ("logging", NotAStep); ("os", NotAStep); ("Tuple", NotAStep);
    ("matlab", NotAStep); ("np", NotAStep); ("xr", NotAStep);
    ("slice_dataset", NotAStep); ("SurfaceGrid", NotAStep); ("utils", NotAStep);
    ("thredds_data", NotAStep); ("logger", NotAStep);
    ("GapfillStep", ClsGapfillStep); ("get_interped", NotAStep);
    ("InterpolationStep", ClsInterpolationStep); ("SmoothnStep", ClsSmoothnStep);
    ("import_gapfill_step", NotAStep); ("Gapfiller", ClsGapfiller) ].

Fixpoint assoc {A} (name : string) (l : list (string * A)) : option A :=
  match l with
  | [] => None
  | (n, a) :: l' => if String.eqb n name then Some a else assoc name l'
  end.

(** [getattr(mod, name)] finds a name bound in the module or an attribute
    of the module object; [AttributeError] is raised for the other names
    only. *)
Definition import_gapfill_step (E : externals) (name : string) : result attribute :=
  match assoc name module_namespace with
  | Some a => Ok a
  | None =>
      if object_attribute E name then Ok (ObjectAttribute name)
      else Err (AttributeError ("Gapfilling step " +:+ name +:+ " not found in gapfilling.py"))
  end.

Record step_config : Type := {
  step_name : string;
  step_args : arguments;
}.

(** [step_class( **args )] *)
Definition construct (E : externals) (cls : attribute) (kw : arguments) : result pyobj :=
  match cls, kw with
  | ClsInterpolationStep, ArgsReferences refs =>
      Ok (PyStep (Step (InterpolationStep_GapfillStep E) (InterpolationStep.init refs)))
  | ClsSmoothnStep, ArgsMask m =>
      let? s := SmoothnStep.init E m in Ok (PyStep (Step (SmoothnStep_GapfillStep E) s))
  | ClsSmoothnStep, ArgsNone =>
      let? s := SmoothnStep.init E None in Ok (PyStep (Step (SmoothnStep_GapfillStep E) s))
  | ClsGapfiller, ArgsNone => Ok PyOther
  | ClsABC, ArgsNone => Ok PyOther
  | ClsGapfillStep, _ =>
      Err (TypeError "Can't instantiate abstract class GapfillStep with abstract method process")
  | NotAStep, _ => Err (TypeError "object is not callable with these arguments")
  | ObjectAttribute name, _ =>
      match call_object_attribute E name kw with
      | Some e => Err e
      | None => Ok PyOther
      end
  | _, _ => Err (TypeError "__init__() got an unexpected keyword argument or misses a required one")
  end.

(** ** Gapfiller *)

Module Gapfiller.

Record t : Type := { steps : list pyobj }.

(** [__init__] *)
Definition init (args : list pyobj) : t := {| steps := args |}.

Fixpoint add_steps (self : t) (args : list pyobj) : result t :=
  match args with
  | [] => Ok self
  | PyStep s :: rest => add_steps {| steps := steps self ++ [PyStep s] |} rest
  | PyOther :: _ => Err (TypeError "object is not a proper gapfilling step.")
  end.

(** The loop of [execute]: each step receives what the step before it
    returned. *)
Fixpoint run_steps (steps : list pyobj) (u v : loc) (target : Dataset) : M (loc * loc) :=
  match steps with
  | [] => ret (u, v)
  | PyStep s :: rest =>
      let* (u', v') := step_process s (step_self s) u v target in
      run_steps rest u' v' target
  | PyOther :: _ => raise (AttributeError "object has no attribute 'process'")
  end.

Definition execute (self : t) (target : Dataset) : M Dataset :=
  let* _ := log_info LogExecuting in
  let* target_u := lift (getitem target "U") in
  let* u := alloc (da_values target_u) in
  let* target_v := lift (getitem target "V") in
  let* v := alloc (da_values target_v) in
  let* (u, v) := run_steps (steps self) u v target in
  (* re-add coordinates, dimensions, and metadata to interpolated data *)
  let* u_arr := read u in
  let* target_u := lift (getitem target "U") in
  let* darr_u := lift (conv_to_dataarray u_arr target_u) in
  let* v_arr := read v in
  let* target_v := lift (getitem target "V") in
  let* darr_v := lift (conv_to_dataarray v_arr target_v) in
  let* dropped := lift (drop_vars target ["U"; "V"]) in
  let* target_interped := lift (assign dropped [("U", darr_u); ("V", darr_v)]) in
  let* _ := log_info LogCompleted in
  ret target_interped.

Definition load_from_config (E : externals) (args : list step_config) : result t :=
  let? steps :=
    mapR (λ step, let? step_class := import_gapfill_step E (step_name step) in
                  construct E step_class (step_args step)) args in
  let gapfiller := init [] in
  add_steps gapfiller steps.

End Gapfiller.

(** ** The rule of the specification, and instances of the imported parts *)

Definition map3 {A B} (f : A → B) (a : nd3 A) : nd3 B := map (map (map f)) a.

(** [zip_with] over the three axes: the cells that both arrays have. *)
Definition zip3 {A B C} (f : A → B → C) (a : nd3 A) (b : nd3 B) : nd3 C :=
  zip_with (zip_with (zip_with f)) a b.

(** The validity rule as the specification words it, on a pair (u, v):
    [U == NaN] or [V == NaN] or [|U| + |V| == 0]. *)
Definition invalid_rule (u v : float) : bool :=
  is_nan u || is_nan v || (abs u + abs v =? 0)%float.

Definition invalid_mask_rule (u v : arr3) : mask3 := zip3 invalid_rule u v.

(** Modelled from the spec: [pyplume.utils.generate_mask_invalid] is not
    part of this module.  It is called with one array; the rule of the
    specification read on that array alone marks a cell whose value is NaN
    or of magnitude zero. *)
Definition invalid_value (x : float) : bool := is_nan x || (abs x =? 0)%float.

Definition generate_mask_invalid_spec (data : arr3) : mask3 := map3 invalid_value data.

(** Modelled from the spec: [pyplume.utils.generate_mask_no_data] is not
    part of this module.  It gives a (lat, lon) mask of the cells of a grid
    that are known to carry no data; here, the cells that are NaN at every
    time step. *)
Definition generate_mask_no_data_spec (data : arr3) : mask2 :=
  match data with
  | [] => []
  | first :: _ =>
      imap (λ i row,
        imap (λ j (_ : float),
          forallb (λ plane : arr2,
            match plane !! i ≫= (.!! j) with
            | Some x => is_nan x
            | None => true
            end) data) row) first
  end.

(** The cell of an ascending axis that encloses [x]: the last index whose
    coordinate is at most [x]; [OutOfDomain] when [x] lies outside the span
    of the axis. *)
Fixpoint last_le (ax : list float) (x : float) (k : nat) (found : option nat) : option nat :=
  match ax with
  | [] => found
  | c :: ax' => last_le ax' x (S k) (if (c <=? x)%float then Some k else found)
  end.

Definition find_cell (ax : list float) (x : float) : result nat :=
  match head ax, last ax with
  | Some lo, Some hi =>
      if (lo <=? x)%float && (x <=? hi)%float
      then match last_le ax x 0 None with
           | Some k => Ok k
           | None => Err OutOfDomain
           end
      else Err OutOfDomain
  | _, _ => Err OutOfDomain
  end.

Definition cell_value (d : Dataset) (var : string) (p : pos) : result float :=
  let? da := getitem d var in
  match get3 (da_values da) p with
  | Some x => Ok x
  | None => Err OutOfDomain
  end.

(** The flat field set holds zero where the dataset holds NaN. *)
Definition nan_to_zero (x : float) : float := if is_nan x then 0%float else x.

Definition float_of_Z (z : Z) : float :=
  if (z <? 0)%Z then (- PrimFloat.of_uint63 (Uint63.of_Z (- z)))%float
  else PrimFloat.of_uint63 (Uint63.of_Z z).

(** Modelled from the spec: the constructor of [SurfaceGrid] is not part of
    this module.  The grid of a dataset with coordinates [time] (seconds),
    [lat] and [lon] and variables [U] and [V]: [value_at] resolves to the
    value at the enclosing grid cell and fails with [OutOfDomain] outside
    the span of an axis. *)
Definition make_grid (d : Dataset) (ts : list Z) (ys xs : list float) : SurfaceGrid :=
  let secs := map (λ t, float_of_Z (t - default 0%Z (head ts))) ts in
  {| ds := d;
     times := ts;
     lats := ys;
     lons := xs;
     grid_time := secs;
     get_fs_vector := λ time lat lon,
       let? t := find_cell secs time in
       let? i := find_cell ys lat in
       let? j := find_cell xs lon in
       let? u := cell_value d "U" (t, i, j) in
       let? v := cell_value d "V" (t, i, j) in
       Ok (nan_to_zero u, nan_to_zero v);
     get_closest_current := λ t lat lon,
       let? i := find_cell ys lat in
       let? j := find_cell xs lon in
       let? u := cell_value d "U" (t, i, j) in
       let? v := cell_value d "V" (t, i, j) in
       Ok (u, v) |}.

Definition grid_of_dataset (d : Dataset) : result SurfaceGrid :=
  match coords d !! "time", coords d !! "lat", coords d !! "lon" with
  | Some (TimeAxis ts), Some (FloatAxis ys), Some (FloatAxis xs) => Ok (make_grid d ts ys xs)
  | _, _, _ => Err (KeyError "time, lat, lon")
  end.

(** An engine that puts the value one on every cell. *)
Definition smoothn_ones (u v : arr2) : result (arr2 * arr2) :=
  Ok (map (map (λ _, 1%float)) u, map (map (λ _, 1%float)) v).

(** ** Example data *)

Definition uv_dims : list string := ["time"; "lat"; "lon"].

Definition make_dataset (ts : list Z) (ys xs : list float) (u v : arr3) : Dataset :=
  {| data_vars :=
       <["U" := {| var_dims := uv_dims; var_values := u; var_attrs := {["units" := "m/s"]} |}]>
      (<["V" := {| var_dims := uv_dims; var_values := v; var_attrs := {["units" := "m/s"]} |}]> ∅);
     coords := <["time" := TimeAxis ts]> (<["lat" := FloatAxis ys]> (<["lon" := FloatAxis xs]> ∅));
     ds_attrs := {["title" := "surface currents"]} |}.

(** A 2 x 2 x 2 target: per time step one NaN cell, one valid cell and two
    cells of magnitude zero. *)
Definition target_u : arr3 := [ [[nan; 0.5]; [0; 0]]; [[nan; 0.5]; [0; 0]] ]%float.
Definition target_v : arr3 := [ [[nan; 0.5]; [0; 0]]; [[nan; 0.5]; [0; 0]] ]%float.
Definition target_ds : Dataset :=
  make_dataset [0; 3600]%Z [32; 33]%float [10; 11]%float target_u target_v.

(** A reference over the same domain, uniformly (0.25, 0.125). *)
Definition const3 (x : float) : arr3 := [ [[x; x]; [x; x]]; [[x; x]; [x; x]] ].
Definition ref_ds : Dataset :=
  make_dataset [0; 3600]%Z [32; 33]%float [10; 11]%float (const3 0.25) (const3 0.125).
Definition ref_grid : SurfaceGrid :=
  make_grid ref_ds [0; 3600]%Z [32; 33]%float [10; 11]%float.

(** A reference over the same domain with gaps of its own: no data in the
    second row of latitudes, (0.75, 0.375) in the first. *)
Definition gappy_u : arr3 := [ [[0.75; 0.75]; [nan; nan]]; [[0.75; 0.75]; [nan; nan]] ]%float.
Definition gappy_v : arr3 := [ [[0.375; 0.375]; [nan; nan]]; [[0.375; 0.375]; [nan; nan]] ]%float.
Definition gappy_ds : Dataset :=
  make_dataset [0; 3600]%Z [32; 33]%float [10; 11]%float gappy_u gappy_v.
Definition gappy_grid : SurfaceGrid :=
  make_grid gappy_ds [0; 3600]%Z [32; 33]%float [10; 11]%float.

(** A reference that covers only half of the longitude range. *)
Definition half_ds : Dataset :=
  make_dataset [0; 3600]%Z [32; 33]%float [10; 10.5]%float (const3 0.25) (const3 0.125).
Definition half_grid : SurfaceGrid :=
  make_grid half_ds [0; 3600]%Z [32; 33]%float [10; 10.5]%float.

(** Attributes of a module object in CPython 3: the entries that the
    import system puts in the module's dictionary, and the attributes of
    the type of modules. *)
Definition module_object_names : list string :=
  [ "__name__"; "__doc__"; "__package__"; "__loader__"; "__spec__"; "__file__";
    "__cached__"; "__builtins__"; "__class__"; "__dict__"; "__dir__"; "__init__";
    "__new__"; "__repr__"; "__str__"; "__hash__"; "__eq__"; "__ne__";
    "__getattribute__"; "__setattr__"; "__delattr__"; "__format__"; "__reduce__";
    "__reduce_ex__"; "__sizeof__"; "__subclasshook__"; "__init_subclass__" ].

(** Calling one of them: [__dir__()], [__repr__()], [__str__()],
    [__hash__()], [__sizeof__()] and [__init_subclass__()] return (a list,
    a string, a number, [None]) when they are given no argument; every other
    call raises [TypeError] (the object is not callable, or it does not
    take these arguments). *)
Definition call_module_object (name : string) (kw : arguments) : option exn :=
  match kw with
  | ArgsNone =>
      if bool_decide (name ∈ ["__dir__"; "__repr__"; "__str__"; "__hash__"; "__sizeof__";
                              "__init_subclass__"])
      then None
      else Some (TypeError "object is not callable with these arguments")
  | _ => Some (TypeError "object is not callable with these arguments")
  end.

(** The imported parts as modelled above; the remote source holds the
    uniform reference under the name "uniform", the engine starts and
    quits without an exception. *)
Definition E_spec : externals :=
  {| generate_mask_invalid := generate_mask_invalid_spec;
     generate_mask_no_data := generate_mask_no_data_spec;
     SurfaceGrid_init := grid_of_dataset;
     from_url_or_path := λ _, Err LoaderError;
     load_source := λ s, if String.eqb s "uniform" then Ok ref_ds else Err LoaderError;
     slice_dataset := λ d _ _ _, Ok d;
     start_matlab := Ok ();
     smoothn := smoothn_ones;
     quit_engine := Ok ();
     object_attribute := λ name, bool_decide (name ∈ module_object_names);
     call_object_attribute := call_module_object |}.

(** The world of the examples: the target's arrays at locations 0 and 1. *)
Definition w0 : world := World [target_u; target_v] [].

(** A step with two references, the one with gaps first. *)
Definition two_refs : InterpolationStep.t :=
  InterpolationStep.init (Some [RefGrid gappy_grid; RefGrid ref_grid]).

(** A reference whose value is (0.25, NaN) wherever it is looked up: V is
    missing, U is not. *)
Definition vnan_grid : SurfaceGrid :=
  {| ds := ref_ds;
     times := [0; 3600]%Z;
     lats := [32; 33]%float;
     lons := [10; 11]%float;
     grid_time := [0; 3600]%float;
     get_fs_vector := λ _ _ _, Ok (0.25, nan)%float;
     get_closest_current := λ _ _ _, Ok (0.25, nan)%float |}.

(** The same gap in a dataset: U is 0.25 everywhere, V is NaN everywhere. *)
Definition vgap_ds : Dataset :=
  make_dataset [0; 3600]%Z [32; 33]%float [10; 11]%float (const3 0.25) (const3 nan).
Definition vgap_grid : SurfaceGrid :=
  make_grid vgap_ds [0; 3600]%Z [32; 33]%float [10; 11]%float.

(** A target with three time steps, half an hour apart, over the hour that
    the uniform reference covers with two; one cell is missing at the last
    time step. *)
Definition fine_u : arr3 :=
  [ [[0.5; 0.5]; [0.5; 0.5]]; [[0.5; 0.5]; [0.5; 0.5]]; [[nan; 0.5]; [0.5; 0.5]] ]%float.
Definition fine_ds : Dataset :=
  make_dataset [0; 1800; 3600]%Z [32; 33]%float [10; 11]%float fine_u fine_u.
Definition w_fine : world := World [fine_u; fine_u] [].

(** A target without latitudes. *)
Definition flat_ds : Dataset := make_dataset [0]%Z [] [10; 11]%float [[]] [[]].
Definition w_flat : world := World [[[]]; [[]]] [].

(** A target whose U is valid everywhere and whose V misses one cell. *)
Definition vmiss_u : arr3 := const3 0.5.
Definition vmiss_v : arr3 := [ [[nan; 0.5]; [0.5; 0.5]]; [[0.5; 0.5]; [0.5; 0.5]] ]%float.
Definition vmiss_ds : Dataset :=
  make_dataset [0; 3600]%Z [32; 33]%float [10; 11]%float vmiss_u vmiss_v.
Definition w_vmiss : world := World [vmiss_u; vmiss_v; vmiss_u] [].

(** The grids of the example targets. *)
Definition target_grid : SurfaceGrid :=
  make_grid target_ds [0; 3600]%Z [32; 33]%float [10; 11]%float.
Definition fine_grid : SurfaceGrid :=
  make_grid fine_ds [0; 1800; 3600]%Z [32; 33]%float [10; 11]%float.
(** The world in which the step with the one reference that has gaps ends,
    started on the example world. *)
Definition w_gappy : world :=
  world_of (InterpolationStep.process E_spec
              {| InterpolationStep.references := [] ++ [RefGrid gappy_grid] |}
              0 1 target_ds w0).

(** A configuration whose second step holds a reference that is neither a
    grid nor a string, and one whose second step is not registered. *)
Definition config_bad_reference : list step_config :=
  [ {| step_name := "InterpolationStep"; step_args := ArgsReferences (Some [RefGrid ref_grid]) |};
    {| step_name := "InterpolationStep"; step_args := ArgsReferences (Some [RefOther]) |} ].

Definition config_bad_name : list step_config :=
  [ {| step_name := "InterpolationStep"; step_args := ArgsReferences (Some [RefGrid ref_grid]) |};
    {| step_name := "KrigingStep"; step_args := ArgsNone |} ].

(** A mask grid over the domain of the target: the cell in the second row
    and second column is land, NaN at every time step. *)
Definition land_u : arr3 := [ [[0.5; 0.5]; [0.5; nan]]; [[0.5; 0.5]; [0.5; nan]] ]%float.
Definition land_ds : Dataset :=
  make_dataset [0; 3600]%Z [32; 33]%float [10; 11]%float land_u land_u.
Definition land_grid : SurfaceGrid :=
  make_grid land_ds [0; 3600]%Z [32; 33]%float [10; 11]%float.

(** The world in which the smoothing step with this mask ends, started on
    the example world with the engine that returns one on every cell. *)
Definition w_smoothed : world :=
  world_of (SmoothnStep.process E_spec {| SmoothnStep.mask := Some land_grid |}
              0 1 target_ds w0).

(** A pipeline of one interpolation step without references, and the U and
    V variables of the example target. *)
Definition copy_pipeline : Gapfiller.t :=
  Gapfiller.init [PyStep (Step (InterpolationStep_GapfillStep E_spec)
                            (InterpolationStep.init None))].
Definition target_var_u : variable :=
  {| var_dims := uv_dims; var_values := target_u; var_attrs := {["units" := "m/s"]} |}.
Definition target_var_v : variable :=
  {| var_dims := uv_dims; var_values := target_v; var_attrs := {["units" := "m/s"]} |}.

(** The world that this step ends in, started on the example world. *)
Definition w_filled : world :=
  world_of (InterpolationStep.process E_spec two_refs 0 1 target_ds w0).

(** ** Notions used in the statements *)

(** A cell is marked by a mask. *)
Definition marked (m : mask3) (p : pos) : Prop := get3 m p = Some true.

(** What the pipeline needs of the mask helper: when an array is changed
    only on cells that its mask marks, the mask of the new array marks no
    cell that the old mask did not mark.  Every cell-wise rule has this
    property. *)
Definition mask_stable (gmi : arr3 → mask3) : Prop :=
  ∀ u u' : arr3,
    (∀ p, is_Some (get3 u' p) ↔ is_Some (get3 u p)) →
    (∀ p, ¬ marked (gmi u) p → get3 u' p = get3 u p) →
    ∀ p, marked (gmi u') p → marked (gmi u) p.

(** The two values that [get_interped] reads from a reference for a cell
    of the target: the vector of the flat field set at the mapped time, and
    the closest current. *)
Definition reference_values (target ref : SurfaceGrid) (p : pos)
    : result ((float * float) * (float * float)) :=
  let '(t, i, j) := p in
  let? time_diff := diff_first (grid_time ref) in
  let? lat := index (lats target) i in
  let? lon := index (lons target) j in
  let? current := get_fs_vector ref (float_of_nat t * time_diff)%float lat lon in
  let? closest := get_closest_current ref t lat lon in
  Ok (current, closest).

(** The fill is rejected: the U component of the closest current is NaN,
    or the magnitude of the vector is exactly zero. *)
Definition rejected (current closest : float * float) : bool :=
  is_nan (fst closest) || (abs (fst current) + abs (snd current) =? 0)%float.

(** The world after the first message of a pass of the interpolation loop,
    and after a pass that wrote [u'] and [v'] to the arrays [lu] and [lv]. *)
Definition attempted (invalid : mask3) (w : world) : world :=
  World (heap w) (log w ++ [LogAttempt (count3 invalid)]).

Definition passed (E : externals) (lu lv : loc) (invalid : mask3) (u' v' : arr3)
    (w : world) : world :=
  World (<[lv := v']> (<[lu := u']> (heap w)))
        (log w ++ [LogAttempt (count3 invalid);
                   LogAfterRef (count3 (generate_mask_invalid E u'))
                     (Z.of_nat (count3 invalid)
                      - Z.of_nat (count3 (generate_mask_invalid E u')))]).

(** Two worlds agree on the log and on the array [lu], and hold arrays of
    one shape at [lv]. *)
Definition agree_up_to_v (lu lv : loc) (w1 w2 : world) : Prop :=
  log w1 = log w2
  ∧ heap w1 !! lu = heap w2 !! lu
  ∧ ∃ v1 v2, heap w1 !! lv = Some v1 ∧ heap w2 !! lv = Some v2 ∧ shape3 v1 = shape3 v2.

(** Two runs of a step end alike as far as U and the log go: both return,
    the same locations, with the same log and the same U array, or both
    raise the same exception with the same log. *)
Definition same_outcome_up_to_v (r1 r2 : outcome (loc * loc)) : Prop :=
  match r1, r2 with
  | Return (lu1, lv1) w1, Return (lu2, lv2) w2 =>
      lu1 = lu2 ∧ lv1 = lv2 ∧ log w1 = log w2 ∧ heap w1 !! lu1 = heap w2 !! lu2
  | Raise e1 w1, Raise e2 w2 => e1 = e2 ∧ log w1 = log w2
  | _, _ => False
  end.

(** A step preserves the shape of the arrays: whenever it returns, run on
    two arrays of the world, the two arrays it returns have the shapes of
    those.  (An object that is no step returns nothing.) *)
Definition preserves_shape (target : Dataset) (o : pyobj) : Prop :=
  match o with
  | PyStep s =>
      ∀ u v w ua va u' v' w',
        heap w !! u = Some ua → heap w !! v = Some va →
        step_process s (step_self s) u v target w = Return (u', v') w' →
        ∃ ua' va',
          heap w' !! u' = Some ua' ∧ heap w' !! v' = Some va'
          ∧ shape3 ua' = shape3 ua ∧ shape3 va' = shape3 va
  | PyOther => True
  end.

(** A variable that the dataset exposes, with values of the sizes of its
    dimensions. *)
Definition exposes (d : Dataset) (name : string) (v : variable) : Prop :=
  data_vars d !! name = Some v
  ∧ fits (var_values v) (filter (λ '(c, _), c ∈ var_dims v) (coords d)) (var_dims v) = true.

(** The invalid-cell counts that a log reports, in order: the count on the
    target data, then the count after each reference. *)
Definition reported_count (ev : event) : option nat :=
  match ev with
  | LogTargetInvalid n => Some n
  | LogAfterRef n _ => Some n
  | _ => None
  end.

Definition reported_counts (l : list event) : list nat := omap reported_count l.

Definition never_increases (l : list nat) : Prop :=
  ∀ k a b, l !! k = Some a → l !! S k = Some b → b ≤ a.

(** Unfolds the operations of a computation. *)
Ltac unfold_M :=
  unfold copy in *;
  unfold bind, lift, read, write, log_info, ret, raise, alloc in *; simpl in *.


(** ** Notions used in the further properties *)

(** The mask helper looks at one value at a time: a cell is marked when
    [inv] holds of its value. *)
Definition cellwise (gmi : arr3 → mask3) (inv : float → bool) : Prop :=
  ∀ a, gmi a = map3 inv a.

(** What [get_interped] returns for the cell [p] of the target. *)
Definition interped (target ref : SurfaceGrid) (p : pos) : result (float * float) :=
  let? vals := reference_values target ref p in
  Ok (if rejected vals.1 vals.2 then (nan, nan) else vals.1).

(** The loop over the references, seen from one cell that holds [x]: as
    long as its U value is invalid the cell receives what the next
    reference gives; once it is valid it is left alone. *)
Fixpoint fill_cell (inv : float → bool) (target : SurfaceGrid) (refs : list SurfaceGrid)
    (p : pos) (x : float * float) : result (float * float) :=
  match refs with
  | [] => Ok x
  | ref :: rest =>
      if inv x.1
      then let? y := interped target ref p in fill_cell inv target rest p y
      else Ok x
  end.

(** ** Further example data *)

(** A target and a reference that hold a single time step; the target
    misses one cell. *)
Definition still_u : arr3 := [ [[nan; 0.5]; [0.5; 0.5]] ]%float.
Definition still_ds : Dataset :=
  make_dataset [0]%Z [32; 33]%float [10; 11]%float still_u still_u.
Definition still_grid : SurfaceGrid :=
  make_grid still_ds [0]%Z [32; 33]%float [10; 11]%float.
Definition still_ref_u : arr3 := [ [[0.25; 0.25]; [0.25; 0.25]] ]%float.
Definition still_ref_ds : Dataset :=
  make_dataset [0]%Z [32; 33]%float [10; 11]%float still_ref_u still_ref_u.
Definition still_ref_grid : SurfaceGrid :=
  make_grid still_ref_ds [0]%Z [32; 33]%float [10; 11]%float.
Definition w_still : world := World [still_u; still_u] [].

(** The span of a reference encloses that of the target, as
    [InterpolationStep.do_validation] tests it: on the first and the last
    coordinate of every axis. *)
Definition encloses (target ref : SurfaceGrid) : Prop :=
  ∃ tlat0 tlat1 tlon0 tlon1 tt0 tt1 rlat0 rlat1 rlon0 rlon1 rt0 rt1,
    head (lats target) = Some tlat0 ∧ last (lats target) = Some tlat1
    ∧ head (lons target) = Some tlon0 ∧ last (lons target) = Some tlon1
    ∧ head (times target) = Some tt0 ∧ last (times target) = Some tt1
    ∧ head (lats ref) = Some rlat0 ∧ last (lats ref) = Some rlat1
    ∧ head (lons ref) = Some rlon0 ∧ last (lons ref) = Some rlon1
    ∧ head (times ref) = Some rt0 ∧ last (times ref) = Some rt1
    ∧ (rlat0 <=? tlat0)%float = true ∧ (tlat1 <=? rlat1)%float = true
    ∧ (rlon0 <=? tlon0)%float = true ∧ (tlon1 <=? rlon1)%float = true
    ∧ (rt0 ≤ tt0)%Z ∧ (tt1 ≤ rt1)%Z.

(** The mask grid lies on the target grid, as [SmoothnStep.do_validation]
    tests it: as many latitudes and longitudes, and the same first and last
    coordinate on both axes ([==] on floats). *)
Definition mask_matches (target m : SurfaceGrid) : Prop :=
  length (lats target) = length (lats m) ∧ length (lons target) = length (lons m)
  ∧ ∃ tlat0 tlat1 tlon0 tlon1 mlat0 mlat1 mlon0 mlon1,
      head (lats target) = Some tlat0 ∧ last (lats target) = Some tlat1
      ∧ head (lons target) = Some tlon0 ∧ last (lons target) = Some tlon1
      ∧ head (lats m) = Some mlat0 ∧ last (lats m) = Some mlat1
      ∧ head (lons m) = Some mlon0 ∧ last (lons m) = Some mlon1
      ∧ (mlat0 =? tlat0)%float = true ∧ (mlat1 =? tlat1)%float = true
      ∧ (mlon0 =? tlon0)%float = true ∧ (mlon1 =? tlon1)%float = true.

(** A mask grid with one longitude where the example target has two. *)
Definition narrow_u : arr3 := [ [[0.5]; [nan]]; [[0.5]; [nan]] ]%float.
Definition narrow_ds : Dataset :=
  make_dataset [0; 3600]%Z [32; 33]%float [10]%float narrow_u narrow_u.
Definition narrow_grid : SurfaceGrid :=
  make_grid narrow_ds [0; 3600]%Z [32; 33]%float [10]%float.

(** [add_steps] as it acts on the object: [self.steps] is appended to while
    the arguments are checked one after the other, so what was appended
    before an exception stays.  The result is the object after the call
    and the exception, if there is one. *)
Fixpoint add_steps_in_place (self : Gapfiller.t) (args : list pyobj)
    : Gapfiller.t * option exn :=
  match args with
  | [] => (self, None)
  | PyStep s :: rest =>
      add_steps_in_place {| Gapfiller.steps := Gapfiller.steps self ++ [PyStep s] |} rest
  | PyOther :: _ => (self, Some (TypeError "object is not a proper gapfilling step."))
  end.

(** An instance of one of the two step classes of the module. *)
Definition module_step (E : externals) (o : pyobj) : Prop :=
  (∃ s, o = PyStep (Step (InterpolationStep_GapfillStep E) s))
  ∨ (∃ s, o = PyStep (Step (SmoothnStep_GapfillStep E) s)).

(** [isinstance(o, GapfillStep)] *)
Definition is_step (o : pyobj) : bool :=
  match o with
  | PyStep _ => true
  | PyOther => false
  end.


(** A pipeline of the two steps of the module: interpolation from the two
    example references, then smoothing under the land mask with the
    engine that returns one on every cell; and the dataset it returns for
    the example target. *)
Definition full_pipeline : Gapfiller.t :=
  Gapfiller.init
    [ PyStep (Step (InterpolationStep_GapfillStep E_spec) two_refs);
      PyStep (Step (SmoothnStep_GapfillStep E_spec) {| SmoothnStep.mask := Some land_grid |}) ].
Definition smoothed_u : arr3 := [ [[1; 1]; [1; nan]]; [[1; 1]; [1; nan]] ]%float.
Definition smoothed_ds : Dataset :=
  make_dataset [0; 3600]%Z [32; 33]%float [10; 11]%float smoothed_u smoothed_u.

(** A reference whose field set ends before its last time step: the
    lookups of the vector at or after one hour raise. *)
Definition late_grid : SurfaceGrid :=
  {| ds := ref_ds;
     times := [0; 3600]%Z;
     lats := [32; 33]%float;
     lons := [10; 11]%float;
     grid_time := [0; 3600]%float;
     get_fs_vector := λ time _ _,
       if (time <? 3600)%float then Ok (0.25, 0.125)%float else Err OutOfDomain;
     get_closest_current := λ _ _ _, Ok (0.25, 0.125)%float |}.

(** The example target with a further variable and a further attribute,
    and what the pipeline of the two steps returns for it. *)
Definition quality_var : variable :=
  {| var_dims := uv_dims; var_values := const3 1; var_attrs := {["long_name" := "quality"]} |}.
Definition survey_ds : Dataset :=
  {| data_vars := <["quality" := quality_var]> (data_vars target_ds);
     coords := coords target_ds;
     ds_attrs := <["institution" := "HFRNet"]> (ds_attrs target_ds) |}.
Definition survey_smoothed_ds : Dataset :=
  {| data_vars := <["quality" := quality_var]> (data_vars smoothed_ds);
     coords := coords target_ds;
     ds_attrs := <["institution" := "HFRNet"]> (ds_attrs target_ds) |}.
(** * Properties *)

(** ** Computations *)

Lemma rbind_Ok {A B} (r : result A) (k : A → result B) b :
  rbind r k = Ok b ↔ ∃ a, r = Ok a ∧ k a = Ok b.
Proof.
  destruct r as [a|e]; simpl; split.
  - eauto.
  - by intros (a' & [= <-] & H).
  - done.
  - by intros (a' & [=] & _).
Qed.

Lemma rbind_Err {A B} (r : result A) (k : A → result B) e :
  rbind r k = Err e ↔ r = Err e ∨ ∃ a, r = Ok a ∧ k a = Err e.
Proof.
  destruct r as [a|e']; simpl; split.
  - eauto.
  - by intros [[=] | (a' & [= <-] & H)].
  - intros [= ->]. by left.
  - by intros [[= ->] | (a' & [=] & _)].
Qed.

(** A loop that collects values yields one value per element. *)
Lemma mapR_Ok {A B} (f : A → result B) l ys :
  mapR f l = Ok ys ↔ Forall2 (λ x y, f x = Ok y) l ys.
Proof.
  revert ys. induction l as [|x l IH]; intros ys; simpl.
  - split; [intros [= <-]; constructor | by inversion 1].
  - rewrite rbind_Ok. split.
    + intros (y & Hy & H). apply rbind_Ok in H as (ys' & Hys & [= <-]).
      constructor; [done | by apply IH].
    + inversion 1 as [|? y ? ys' Hy Hys]; subst. exists y. split; [done|].
      apply rbind_Ok. exists ys'. split; [by apply IH | done].
Qed.

Lemma mapR_Err {A B} (f : A → result B) l e :
  mapR f l = Err e ↔
  ∃ l1 x l2 ys, l = l1 ++ x :: l2 ∧ mapR f l1 = Ok ys ∧ f x = Err e.
Proof.
  induction l as [|x l IH]; simpl.
  - split; [done | intros ([|??] & ? & ? & ? & ? & _); done].
  - rewrite rbind_Err. split.
    + intros [Hx | (y & Hy & H)].
      * exists [], x, l, []. done.
      * apply rbind_Err in H as [H | (ys & _ & [=])].
        apply IH in H as (l1 & x' & l2 & ys & -> & H1 & H2).
        exists (x :: l1), x', l2, (y :: ys). simpl. rewrite Hy. simpl. rewrite H1. done.
    + intros ([|x1 l1] & x' & l2 & ys & Heq & H1 & H2); simplify_eq/=.
      * by left.
      * right. apply rbind_Ok in H1 as (y & Hy & H1).
        apply rbind_Ok in H1 as (ys' & H1 & _).
        exists y. split; [done|]. apply rbind_Err. left. apply IH. eauto 10.
Qed.

Lemma mapR_app {A B} (f : A → result B) l1 l2 :
  mapR f (l1 ++ l2) =
  let? ys1 := mapR f l1 in let? ys2 := mapR f l2 in Ok (ys1 ++ ys2).
Proof.
  induction l1 as [|x l1 IH]; simpl.
  - by destruct (mapR f l2).
  - destruct (f x); simpl; [|done]. rewrite IH.
    destruct (mapR f l1); simpl; [|done]. by destruct (mapR f l2).
Qed.

Lemma mapR_Ok_total {A B} (f : A → result B) l :
  (∀ x, x ∈ l → ∃ y, f x = Ok y) → ∃ ys, mapR f l = Ok ys.
Proof.
  induction l as [|x l IH]; intros H; simpl; [by eexists|].
  destruct (H x) as [y ->]; [left|]. simpl.
  destruct IH as [ys ->]; [intros; apply H; by right|]. simpl. by eexists.
Qed.

(** ** Arrays *)

Lemma get3_set3 {A} (a a' : nd3 A) p q x :
  set3 a p x = Some a' → get3 a' q = if decide (p = q) then Some x else get3 a q.
Proof.
  destruct p as [[t i] j], q as [[t' i'] j']. unfold set3, get3. intros H.
  destruct (a !! t) as [plane|] eqn:Ht; simplify_eq/=.
  destruct (plane !! i) as [row|] eqn:Hi; simplify_eq/=.
  destruct (row !! j) as [y|] eqn:Hj; simplify_eq/=.
  destruct (decide (t = t')) as [<-|Ht'].
  2: { rewrite list_lookup_insert_ne by done. rewrite decide_False by congruence. done. }
  rewrite list_lookup_insert_eq by eauto using lookup_lt_Some. rewrite Ht. simpl.
  destruct (decide (i = i')) as [<-|Hi'].
  2: { rewrite list_lookup_insert_ne by done. rewrite decide_False by congruence. done. }
  rewrite list_lookup_insert_eq by eauto using lookup_lt_Some. rewrite Hi. simpl.
  destruct (decide (j = j')) as [<-|Hj'].
  2: { rewrite list_lookup_insert_ne by done. rewrite decide_False by congruence. done. }
  rewrite list_lookup_insert_eq by eauto using lookup_lt_Some. by rewrite decide_True.
Qed.

Lemma set3_is_Some {A} (a : nd3 A) p x : is_Some (set3 a p x) ↔ is_Some (get3 a p).
Proof.
  destruct p as [[t i] j]. unfold set3, get3.
  destruct (a !! t) as [plane|]; simpl; [|done].
  destruct (plane !! i) as [row|]; simpl; [|done].
  destruct (row !! j); simpl; split; intros [? ?]; eauto; done.
Qed.

Lemma set3_shape {A} (a a' : nd3 A) p x : set3 a p x = Some a' → shape3 a' = shape3 a.
Proof.
  destruct p as [[t i] j]. unfold set3, shape3. intros H.
  destruct (a !! t) as [plane|] eqn:Ht; simplify_eq/=.
  destruct (plane !! i) as [row|] eqn:Hi; simplify_eq/=.
  destruct (row !! j) as [y|] eqn:Hj; simplify_eq/=.
  change map with (@fmap list _) in *.
  rewrite list_fmap_insert. apply list_insert_id. rewrite list_lookup_fmap, Ht. simpl.
  f_equal. symmetry. rewrite list_fmap_insert. apply list_insert_id.
  rewrite list_lookup_fmap, Hi. simpl. by rewrite length_insert.
Qed.

(** Cells are looked up alike in arrays of one shape. *)
Lemma shape3_get3 {A B} (a : nd3 A) (b : nd3 B) p :
  shape3 a = shape3 b → is_Some (get3 a p) ↔ is_Some (get3 b p).
Proof.
  destruct p as [[t i] j]. unfold shape3, get3. intros H.
  assert (∀ (X Y : Type) (l : list X) (k : list Y) n, length l = length k →
            is_Some (l !! n) ↔ is_Some (k !! n)) as Hlen.
  { intros X Y l k n E. rewrite !lookup_lt_is_Some. by rewrite E. }
  assert (map (map length) a !! t = map (map length) b !! t) as Ht by by rewrite H.
  change map with (@fmap list _) in *. rewrite !list_lookup_fmap in Ht.
  destruct (a !! t) as [pa|], (b !! t) as [pb|]; simplify_eq/=; [|done].
  assert ((length <$> pa) !! i = (length <$> pb) !! i) as Hi by congruence.
  rewrite !list_lookup_fmap in Hi.
  destruct (pa !! i) as [ra|], (pb !! i) as [rb|]; simplify_eq/=; [|done].
  by apply Hlen.
Qed.

Lemma setitem3_shape a ps vals a' : setitem3 a ps vals = Ok a' → shape3 a' = shape3 a.
Proof.
  revert a vals. induction ps as [|p ps IH]; intros a [|x vals] H; simplify_eq/=; [done|].
  destruct (set3 a p x) as [a1|] eqn:Hset; [|done].
  rewrite (IH _ _ H). by eapply set3_shape.
Qed.

(** A cell that is not among the indices keeps its value. *)
Lemma setitem3_other a ps vals a' q :
  setitem3 a ps vals = Ok a' → q ∉ ps → get3 a' q = get3 a q.
Proof.
  revert a vals. induction ps as [|p ps IH]; intros a [|x vals] H Hq; simplify_eq/=; [done|].
  destruct (set3 a p x) as [a1|] eqn:Hset; [|done].
  apply not_elem_of_cons in Hq as [Hne Hq].
  rewrite (IH _ _ H Hq), (get3_set3 _ _ _ q _ Hset). by rewrite decide_False.
Qed.

(** A cell among the indices, which do not repeat, holds the value given
    for it. *)
Lemma setitem3_at a ps vals a' k q x :
  setitem3 a ps vals = Ok a' → NoDup ps →
  ps !! k = Some q → vals !! k = Some x → get3 a' q = Some x.
Proof.
  revert a vals k. induction ps as [|p ps IH]; intros a [|y vals] k H Hnd Hq Hx;
    simplify_eq/=.
  destruct (set3 a p y) as [a1|] eqn:Hset; [|done].
  apply NoDup_cons in Hnd as [Hp Hnd].
  destruct k as [|k]; simplify_eq/=.
  - rewrite (setitem3_other _ _ _ _ _ H Hp), (get3_set3 _ _ _ q _ Hset).
    by rewrite decide_True.
  - eauto.
Qed.

(** Whether the assignment succeeds depends on the shape of the array
    alone. *)
Lemma setitem3_shape_outcome a b ps (xs ys : list float) :
  shape3 a = shape3 b → length xs = length ys →
  match setitem3 a ps xs, setitem3 b ps ys with
  | Ok a', Ok b' => shape3 a' = shape3 b'
  | Err e1, Err e2 => e1 = e2
  | _, _ => False
  end.
Proof.
  revert a b xs ys. induction ps as [|p ps IH]; intros a b [|x xs] [|y ys] Hs Hl;
    simplify_eq/=; try done.
  pose proof (shape3_get3 a b p Hs) as Hget.
  rewrite <-!(set3_is_Some _ _ x) in Hget.
  assert (is_Some (set3 a p x) ↔ is_Some (set3 b p y)) as Hset.
  { rewrite Hget, !set3_is_Some. done. }
  destruct (set3 a p x) as [a1|] eqn:Ha, (set3 b p y) as [b1|] eqn:Hb.
  - apply IH; [|done]. by rewrite (set3_shape _ _ _ _ Ha), (set3_shape _ _ _ _ Hb).
  - destruct Hset as [Hset _]. destruct Hset; eauto; done.
  - destruct Hset as [_ Hset]. destruct Hset; eauto; done.
  - done.
Qed.

Lemma elem_of_iconcat {A B} (f : nat → A → list B) k0 l y :
  y ∈ iconcat f k0 l ↔ ∃ k x, l !! k = Some x ∧ y ∈ f (k0 + k) x.
Proof.
  revert k0. induction l as [|x l IH]; intros k0; simpl.
  - split; [by intros ?%elem_of_nil | by intros (? & ? & ? & _)].
  - rewrite elem_of_app, IH. split.
    + intros [H | (k & x' & Hk & H)].
      * exists 0, x. by rewrite Nat.add_0_r.
      * exists (S k), x'. by rewrite Nat.add_succ_r.
    + intros ([|k] & x' & Hk & H); simplify_eq/=.
      * left. by rewrite Nat.add_0_r in H.
      * right. exists k, x'. by rewrite Nat.add_succ_r in H.
Qed.

Lemma NoDup_iconcat {A B} (f : nat → A → list B) k0 l :
  (∀ k x, NoDup (f k x)) →
  (∀ k k' x x' y, y ∈ f k x → y ∈ f k' x' → k = k') →
  NoDup (iconcat f k0 l).
Proof.
  intros Hnd Hkey. revert k0. induction l as [|x l IH]; intros k0; simpl.
  - constructor.
  - apply NoDup_app. split_and!; [done| |done].
    intros y Hy (k & x' & _ & Hy')%elem_of_iconcat.
    specialize (Hkey _ _ _ _ _ Hy Hy'). lia.
Qed.

Lemma length_iconcat {A B} (f : nat → A → list B) (g : A → nat) k0 l :
  (∀ k x, length (f k x) = g x) → length (iconcat f k0 l) = sum_list (map g l).
Proof.
  intros Hg. revert k0. induction l as [|x l IH]; intros k0; simpl; [done|].
  by rewrite length_app, Hg, IH.
Qed.

(** [np.where] lists exactly the cells that hold [True], each once, and
    [sum] counts them. *)
Lemma elem_of_where3 m p : p ∈ where3 m ↔ marked m p.
Proof.
  destruct p as [[t i] j]. unfold where3, marked, get3.
  rewrite elem_of_iconcat. setoid_rewrite elem_of_iconcat.
  setoid_rewrite elem_of_iconcat. simpl. split.
  - intros (t' & plane & Ht & i' & row & Hi & j' & b & Hj & H).
    destruct b; [|by apply elem_of_nil in H].
    apply list_elem_of_singleton in H as [= -> -> ->].
    by rewrite Ht; simpl; rewrite Hi; simpl.
  - intros H. destruct (m !! t) as [plane|] eqn:Ht; simplify_eq/=.
    destruct (plane !! i) as [row|] eqn:Hi; simplify_eq/=.
    exists t, plane. split; [done|]. exists i, row. split; [done|].
    exists j, true. split; [done|]. by apply list_elem_of_singleton.
Qed.

Lemma NoDup_where3 m : NoDup (where3 m).
Proof.
  unfold where3. apply NoDup_iconcat.
  - intros t plane. apply NoDup_iconcat.
    + intros i row. apply NoDup_iconcat.
      * intros j [|]; [apply NoDup_singleton | constructor].
      * intros j j' [|] [|] y Hy Hy'; try by apply elem_of_nil in Hy.
        all: try by apply elem_of_nil in Hy'.
        apply list_elem_of_singleton in Hy, Hy'. congruence.
    + intros i i' row row' y (j & b & _ & Hy)%elem_of_iconcat
        (j' & b' & _ & Hy')%elem_of_iconcat.
      destruct b; [|by apply elem_of_nil in Hy].
      destruct b'; [|by apply elem_of_nil in Hy'].
      apply list_elem_of_singleton in Hy, Hy'. congruence.
  - intros t t' plane plane' y (i & row & _ & (j & b & _ & Hy)%elem_of_iconcat)%elem_of_iconcat
      (i' & row' & _ & (j' & b' & _ & Hy')%elem_of_iconcat)%elem_of_iconcat.
    destruct b; [|by apply elem_of_nil in Hy].
    destruct b'; [|by apply elem_of_nil in Hy'].
    apply list_elem_of_singleton in Hy, Hy'. congruence.
Qed.

Lemma length_where3 m : length (where3 m) = count3 m.
Proof.
  unfold where3, count3, count2, count1.
  apply length_iconcat. intros t plane.
  apply length_iconcat. intros i row.
  apply length_iconcat. by intros j [|].
Qed.

(** A mask that marks no new cell does not count more cells. *)
Lemma count3_mono m m' : (∀ p, marked m' p → marked m p) → count3 m' ≤ count3 m.
Proof.
  intros H. rewrite <-!length_where3. apply submseteq_length, NoDup_submseteq.
  - apply NoDup_where3.
  - intros p. rewrite !elem_of_where3. apply H.
Qed.
Lemma interp_values_Ok target ref ps n vals :
  InterpolationStep.interp_values target ref ps n = Ok vals →
  length vals = n ∧
  ∀ k, k < n → ∃ y, vals !! k = Some y ∧ get_interped k target ref ps = Ok y.
Proof.
  unfold InterpolationStep.interp_values. rewrite mapR_Ok. intros H. split.
  - apply Forall2_length in H. by rewrite length_seq in H.
  - intros k Hk.
    destruct (Forall2_lookup_l _ _ _ k k H) as (y & Hy & Hget); [by apply lookup_seq_lt|].
    eauto.
Qed.

(** ** One pass of the interpolation loop *)

Section fill_pass.
Context (E : externals) (target : SurfaceGrid) (lu lv : loc).
Abbreviation gmi := (generate_mask_invalid E).
Abbreviation fill_pass := (InterpolationStep.fill_pass E target lu lv).

Lemma fill_pass_spec invalid ref w :
  lu ≠ lv →
  (∃ e hp, fill_pass invalid ref w = Raise e (World hp (log w ++ [LogAttempt (count3 invalid)])))
  ∨ (∃ vals u v u' v',
        InterpolationStep.interp_values target ref (where3 invalid) (count3 invalid) = Ok vals
        ∧ heap w !! lu = Some u ∧ heap w !! lv = Some v
        ∧ setitem3 u (where3 invalid) (vals.*1) = Ok u'
        ∧ setitem3 v (where3 invalid) (vals.*2) = Ok v'
        ∧ fill_pass invalid ref w = Return (gmi u') (passed E lu lv invalid u' v' w)).
Proof.
  intros Hne. unfold InterpolationStep.fill_pass, passed. unfold_M.
  destruct (InterpolationStep.interp_values _ _ _ _) as [vals|e]; simpl;
    [|left; eexists _, _; reflexivity].
  destruct (heap w !! lu) as [u|] eqn:Hu; simpl; [|left; eexists _, _; reflexivity].
  destruct (setitem3 u _ _) as [u'|e] eqn:Hu'; simpl; [|left; eexists _, _; reflexivity].
  rewrite list_lookup_insert_ne by done.
  destruct (heap w !! lv) as [v|] eqn:Hv; simpl; [|left; eexists _, _; reflexivity].
  destruct (setitem3 v _ _) as [v'|e] eqn:Hv'; simpl; [|left; eexists _, _; reflexivity].
  rewrite list_lookup_insert_ne by done.
  rewrite list_lookup_insert_eq by eauto using lookup_lt_Some. simpl.
  right. exists vals, u, v, u', v'. rewrite <-app_assoc. done.
Qed.

(** A failing lookup ends the pass before anything is written. *)
Lemma fill_pass_lookup_Err invalid ref w e :
  InterpolationStep.interp_values target ref (where3 invalid) (count3 invalid) = Err e →
  fill_pass invalid ref w = Raise e (attempted invalid w).
Proof.
  intros H. unfold InterpolationStep.fill_pass, attempted. unfold_M. by rewrite H.
Qed.

(** After a pass the mask marks no cell that it did not mark before. *)
Lemma setitem3_marks u invalid xs u' :
  mask_stable gmi → invalid = gmi u →
  setitem3 u (where3 invalid) xs = Ok u' →
  ∀ p, marked (gmi u') p → marked (gmi u) p.
Proof.
  intros Hst -> Hset. apply Hst.
  - intros p. apply shape3_get3. by eapply setitem3_shape.
  - intros p Hp. eapply setitem3_other; [done|]. by rewrite elem_of_where3.
Qed.

End fill_pass.

(** ** The loop over the references *)

Lemma never_increases_singleton n : never_increases [n].
Proof. intros [|k] a b Ha Hb; simplify_eq/=. Qed.

Lemma never_increases_cons n n' l :
  n' ≤ n → never_increases (n' :: l) → never_increases (n :: n' :: l).
Proof.
  intros Hle Hl [|k] a b Ha Hb; simplify_eq/=; [done|]. by eapply Hl.
Qed.

Section ref_loop.
Context (E : externals) (target : SurfaceGrid) (lu lv : loc).
Context (Hne : lu ≠ lv).
Abbreviation gmi := (generate_mask_invalid E).
Abbreviation ref_loop := (InterpolationStep.ref_loop E target lu lv).

Lemma ref_loop_app refs1 refs2 invalid w :
  ref_loop invalid (refs1 ++ refs2) w =
  bind (ref_loop invalid refs1) (λ invalid', ref_loop invalid' refs2) w.
Proof.
  revert invalid w. induction refs1 as [|ref refs1 IH]; intros invalid w; simpl; [done|].
  unfold bind in *.
  destruct (InterpolationStep.fill_pass _ _ _ _ _ _ _) as [inv1 w1|e w1]; [|done].
  apply IH.
Qed.

(** The counts that the loop reports never increase, whatever its outcome. *)
Lemma ref_loop_counts refs invalid w u :
  mask_stable gmi → heap w !! lu = Some u → invalid = gmi u →
  ∃ new, log (world_of (ref_loop invalid refs w)) = log w ++ new
         ∧ never_increases (count3 invalid :: reported_counts new).
Proof.
  intros Hst. revert invalid w u.
  induction refs as [|ref refs IH]; intros invalid w u Hu ->; simpl.
  - exists []. split; [by rewrite app_nil_r | apply never_increases_singleton].
  - unfold bind.
    destruct (fill_pass_spec E target lu lv (gmi u) ref w Hne)
      as [(e & hp & ->) | (vals & u0 & v & u' & v' & _ & Hu0 & Hv & Hsu & _ & ->)]; simpl.
    + exists [LogAttempt (count3 (gmi u))]. split; [done | apply never_increases_singleton].
    + assert (u0 = u) as -> by congruence.
      destruct (IH (gmi u') (passed E lu lv (gmi u) u' v' w) u') as (new & Hlog & Hni);
        [|done|].
      { simpl. rewrite list_lookup_insert_ne by done.
        apply list_lookup_insert_eq. eauto using lookup_lt_Some. }
      eexists (_ :: _ :: new). split.
      * rewrite Hlog. simpl. by rewrite <-app_assoc.
      * simpl. apply never_increases_cons; [|done].
        apply count3_mono. by eapply setitem3_marks.
Qed.

(** When the loop returns, its mask is the mask of the U array. *)
Lemma ref_loop_invariant refs invalid w u v invalid' w' :
  heap w !! lu = Some u → heap w !! lv = Some v → invalid = gmi u →
  ref_loop invalid refs w = Return invalid' w' →
  ∃ u' v', heap w' !! lu = Some u' ∧ heap w' !! lv = Some v' ∧ invalid' = gmi u'.
Proof.
  revert invalid w u v.
  induction refs as [|ref refs IH]; intros invalid w u v Hu Hv -> Hr; simpl in Hr.
  - unfold ret in Hr. simplify_eq. eauto.
  - unfold bind in Hr.
    destruct (fill_pass_spec E target lu lv (gmi u) ref w Hne)
      as [(e & hp & Hp) | (vals & u0 & v0 & u1 & v1 & _ & Hu0 & Hv0 & Hsu & Hsv & Hp)];
      rewrite Hp in Hr; [done|].
    eapply (IH _ _ u1 v1); [| |done|exact Hr]; simpl.
    + rewrite list_lookup_insert_ne by done.
      apply list_lookup_insert_eq. eauto using lookup_lt_Some.
    + apply list_lookup_insert_eq. rewrite length_insert. eauto using lookup_lt_Some.
Qed.

(** What the loop leaves in place when it returns. *)
Lemma ref_loop_frame refs invalid w u v invalid' w' :
  mask_stable gmi →
  heap w !! lu = Some u → heap w !! lv = Some v → invalid = gmi u →
  ref_loop invalid refs w = Return invalid' w' →
  ∃ u' v',
    heap w' !! lu = Some u' ∧ heap w' !! lv = Some v' ∧ invalid' = gmi u'
    ∧ length (heap w') = length (heap w)
    ∧ shape3 u' = shape3 u ∧ shape3 v' = shape3 v
    ∧ (∀ l, l ≠ lu → l ≠ lv → heap w' !! l = heap w !! l)
    ∧ (∀ p, marked (gmi u') p → marked (gmi u) p)
    ∧ (∀ p, ¬ marked (gmi u) p → get3 u' p = get3 u p ∧ get3 v' p = get3 v p).
Proof.
  intros Hst. revert invalid w u v.
  induction refs as [|ref refs IH]; intros invalid w u v Hu Hv -> Hr; simpl in Hr.
  - unfold ret in Hr. simplify_eq. exists u, v. split_and!; done.
  - unfold bind in Hr.
    destruct (fill_pass_spec E target lu lv (gmi u) ref w Hne)
      as [(e & hp & Hp) | (vals & u0 & v0 & u1 & v1 & _ & Hu0 & Hv0 & Hsu & Hsv & Hp)];
      rewrite Hp in Hr; [done|].
    assert (u0 = u) as -> by congruence. assert (v0 = v) as -> by congruence.
    assert (heap (passed E lu lv (gmi u) u1 v1 w) !! lu = Some u1) as Hu1.
    { simpl. rewrite list_lookup_insert_ne by done.
      apply list_lookup_insert_eq. eauto using lookup_lt_Some. }
    assert (heap (passed E lu lv (gmi u) u1 v1 w) !! lv = Some v1) as Hv1.
    { simpl. apply list_lookup_insert_eq. rewrite length_insert.
      eauto using lookup_lt_Some. }
    destruct (IH _ _ _ _ Hu1 Hv1 eq_refl Hr)
      as (u' & v' & Hu' & Hv' & -> & Hlen & Hshu & Hshv & Hother & Hmarks & Hkeep).
    pose proof (setitem3_marks E u (gmi u) _ u1 Hst eq_refl Hsu) as Hmarks1.
    exists u', v'. split_and!; try done.
    + rewrite Hlen. simpl. by rewrite !length_insert.
    + rewrite Hshu. by eapply setitem3_shape.
    + rewrite Hshv. by eapply setitem3_shape.
    + intros l Hlu Hlv. rewrite (Hother l Hlu Hlv). simpl.
      by rewrite !list_lookup_insert_ne.
    + eauto.
    + intros p Hp0. destruct (Hkeep p) as [-> ->]; [eauto|].
      split; (eapply setitem3_other; [done|]); by rewrite elem_of_where3.
Qed.

End ref_loop.

(** ** process, step by step *)

Lemma process_eq E self u v target_ds w :
  InterpolationStep.process E self u v target_ds w =
  match SurfaceGrid_init E target_ds with
  | Err e => Raise e w
  | Ok target =>
  match mapR (InterpolationStep.load_reference E target) (InterpolationStep.references self) with
  | Err e => Raise e w
  | Ok loaded =>
  match InterpolationStep.do_validation target loaded with
  | Err e => Raise e w
  | Ok _ =>
  match heap w !! u with
  | None => Raise (ValueError "no such array") w
  | Some ua =>
    let invalid := generate_mask_invalid E ua in
    let log1 := log w ++ [LogTargetInvalid (count3 invalid)] in
    match (heap w ++ [ua]) !! v with
    | None => Raise (ValueError "no such array") (World (heap w ++ [ua]) log1)
    | Some va =>
      let lu := length (heap w) in
      let lv := S (length (heap w)) in
      match InterpolationStep.ref_loop E target lu lv invalid loaded
              (World (heap w ++ [ua; va]) log1) with
      | Return invalid' w' =>
          Return (lu, lv) (World (heap w') (log w' ++ [LogInterpolated (count3 invalid')]))
      | Raise e w' => Raise e w'
      end
    end
  end end end end.
Proof.
  unfold InterpolationStep.process. unfold_M.
  destruct (SurfaceGrid_init E target_ds) as [target|e]; simpl; [|done].
  destruct (mapR _ _) as [loaded|e]; simpl; [|done].
  destruct (InterpolationStep.do_validation _ _) as [[]|e]; simpl; [|done].
  destruct (heap w !! u) as [ua|] eqn:Hu; simpl; [|done].
  rewrite Hu. simpl.
  destruct ((heap w ++ [ua]) !! v) as [va|]; simpl; [|done].
  rewrite length_app, Nat.add_1_r, <-app_assoc. simpl.
  by destruct (InterpolationStep.ref_loop _ _ _ _ _ _ _).
Qed.

(** ** Cell-wise masks *)

Lemma get3_map3 {A B} (f : A → B) (a : nd3 A) p : get3 (map3 f a) p = f <$> get3 a p.
Proof.
  destruct p as [[t i] j]. unfold get3, map3. change map with (@fmap list _).
  rewrite list_lookup_fmap. destruct (a !! t) as [plane|]; simpl; [|done].
  rewrite list_lookup_fmap. destruct (plane !! i) as [row|]; simpl; [|done].
  by rewrite list_lookup_fmap.
Qed.

(** Every rule that looks at one cell at a time is stable. *)
Lemma map3_mask_stable (f : float → bool) : mask_stable (map3 f).
Proof.
  intros u u' _ Hkeep p. unfold marked. rewrite !get3_map3. intros Hp.
  destruct (decide (f <$> get3 u p = Some true)) as [|Hn]; [done|].
  rewrite <-(Hkeep p); [done|]. unfold marked. by rewrite get3_map3.
Qed.

(** ** The invalid-cell count *)

(** C3: for every target and every sequence of references, the numbers of
    invalid cells that [InterpolationStep.process] reports (on the target
    data, then after each reference) never increase, whatever the outcome
    of the step; the mask helper is any stable one. *)
Theorem invalid_count_never_increases E self u v target w :
  mask_stable (generate_mask_invalid E) →
  ∃ new, log (world_of (InterpolationStep.process E self u v target w)) = log w ++ new
         ∧ never_increases (reported_counts new).
Proof.
  intros Hst. rewrite process_eq.
  assert (never_increases []) as Hnil by (intros [|?] ???; done).
  destruct (SurfaceGrid_init E target) as [tg|e]; simpl;
    [|exists []; by rewrite app_nil_r].
  destruct (mapR _ _) as [loaded|e]; simpl; [|exists []; by rewrite app_nil_r].
  destruct (InterpolationStep.do_validation _ _) as [[]|e]; simpl;
    [|exists []; by rewrite app_nil_r].
  destruct (heap w !! u) as [ua|] eqn:Hu; simpl; [|exists []; by rewrite app_nil_r].
  destruct ((heap w ++ [ua]) !! v) as [va|] eqn:Hv; simpl.
  2: { eexists [_]. split; [done | apply never_increases_singleton]. }
  destruct (ref_loop_counts E tg (length (heap w)) (S (length (heap w))) (Nat.neq_succ_diag_r _)
              loaded (generate_mask_invalid E ua)
              (World (heap w ++ [ua; va])
                 (log w ++ [LogTargetInvalid (count3 (generate_mask_invalid E ua))])) ua Hst)
    as (new & Hlog & Hni); [by apply list_lookup_middle | done |].
  destruct (InterpolationStep.ref_loop _ _ _ _ _ _ _) as [inv' w'|e w']; simpl in *.
  - exists (LogTargetInvalid (count3 (generate_mask_invalid E ua))
            :: new ++ [LogInterpolated (count3 inv')]).
    split; [rewrite Hlog, <-!app_assoc; done|].
    unfold reported_counts in *. simpl. rewrite omap_app. simpl. by rewrite app_nil_r.
  - exists (LogTargetInvalid (count3 (generate_mask_invalid E ua)) :: new).
    split; [rewrite Hlog, <-!app_assoc; done | done].
Qed.

Lemma invalid_count_never_increases_witness :
  mask_stable (generate_mask_invalid E_spec)
  ∧ reported_counts (log (world_of (InterpolationStep.process E_spec two_refs 0 1 target_ds w0)))
    = [6; 4; 0]
  ∧ ∃ new, log (world_of (InterpolationStep.process E_spec two_refs 0 1 target_ds w0))
           = log w0 ++ new
           ∧ never_increases (reported_counts new).
Proof.
  split; [apply map3_mask_stable|]. split; [vm_compute; reflexivity|].
  apply (invalid_count_never_increases E_spec two_refs 0 1 target_ds w0).
  apply map3_mask_stable.
Defined.

(** ** Validation of a list of references *)

Lemma check_references_app target lo hi l1 l2 :
  InterpolationStep.check_references target lo hi (l1 ++ l2) =
  let? _ := InterpolationStep.check_references target lo hi l1 in
  InterpolationStep.check_references target lo hi l2.
Proof.
  induction l1 as [|ref l1 IH]; simpl; [done|].
  destruct (InterpolationStep.inbounds target ref lo hi) as [[|]|e]; simpl; done.
Qed.

Lemma do_validation_app target l1 l2 :
  InterpolationStep.do_validation target (l1 ++ l2) = Ok () →
  InterpolationStep.do_validation target l1 = Ok ().
Proof.
  unfold InterpolationStep.do_validation. simpl.
  destruct (index (lats target) 0) as [lat0|]; simpl; [|done].
  destruct (index (lons target) 0) as [lon0|]; simpl; [|done].
  destruct (index_last (lats target)) as [lat1|]; simpl; [|done].
  destruct (index_last (lons target)) as [lon1|]; simpl; [|done].
  rewrite check_references_app.
  by destruct (InterpolationStep.check_references _ _ _ l1) as [[]|e].
Qed.

(** The copies that [process] makes lie behind the arrays of the world. *)
Lemma lookup_copy_u (hp : list (list (list (list float)))) ua va lg :
  heap (World (hp ++ [ua; va]) lg) !! length hp = Some ua.
Proof. simpl. by apply list_lookup_middle. Qed.

Lemma lookup_copy_v (hp : list (list (list (list float)))) ua va lg :
  heap (World (hp ++ [ua; va]) lg) !! S (length hp) = Some va.
Proof.
  simpl. rewrite lookup_app_r by lia. by replace (S (length hp) - length hp) with 1 by lia.
Qed.

(** ** The references before a pass *)

(** A run over [refs1 ++ refs2] that returns passes through the state that
    the run over [refs1] ends in: [w1] is the world of the loop after
    [refs1], [w2] after [refs2]; the step over [refs1] alone returns the
    same locations and the arrays of [w1]. *)
Lemma process_app_Return E refs1 refs2 u v target w lu lv w' :
  InterpolationStep.process E {| InterpolationStep.references := refs1 ++ refs2 |}
    u v target w = Return (lu, lv) w' →
  ∃ tg l1 l2 u1 v1 w1 invalid2 w2,
    SurfaceGrid_init E target = Ok tg
    ∧ mapR (InterpolationStep.load_reference E tg) refs1 = Ok l1
    ∧ mapR (InterpolationStep.load_reference E tg) refs2 = Ok l2
    ∧ lu ≠ lv
    ∧ heap w1 !! lu = Some u1 ∧ heap w1 !! lv = Some v1
    ∧ InterpolationStep.ref_loop E tg lu lv (generate_mask_invalid E u1) l2 w1
      = Return invalid2 w2
    ∧ heap w' = heap w2
    ∧ InterpolationStep.process E {| InterpolationStep.references := refs1 |} u v target w
      = Return (lu, lv)
          (World (heap w1) (log w1 ++ [LogInterpolated (count3 (generate_mask_invalid E u1))])).
Proof.
  rewrite !process_eq. simpl.
  destruct (SurfaceGrid_init E target) as [tg|e]; simpl; [|done].
  rewrite mapR_app.
  destruct (mapR _ refs1) as [l1|e] eqn:Hl1; simpl; [|done].
  destruct (mapR _ refs2) as [l2|e] eqn:Hl2; simpl; [|done].
  destruct (InterpolationStep.do_validation tg (l1 ++ l2)) as [[]|e] eqn:Hval; simpl; [|done].
  rewrite (do_validation_app _ _ _ Hval).
  destruct (heap w !! u) as [ua|] eqn:Hu; simpl; [|done].
  destruct ((heap w ++ [ua]) !! v) as [va|] eqn:Hv; simpl; [|done].
  pose proof (Nat.neq_succ_diag_r (length (heap w))) as Hne.
  rewrite ref_loop_app. unfold bind.
  destruct (InterpolationStep.ref_loop E tg _ _ _ l1 _) as [inv1 w1|e w1] eqn:Hloop1; [|done].
  destruct (InterpolationStep.ref_loop E tg _ _ inv1 l2 w1) as [inv2 w2|e ?] eqn:Hloop2;
    [|done].
  intros [= <- <- <-].
  destruct (ref_loop_invariant E tg _ _ Hne _ _ _ ua va _ _
              (lookup_copy_u _ _ _ _) (lookup_copy_v _ _ _ _) eq_refl Hloop1)
    as (u1 & v1 & Hu1 & Hv1 & ->).
  exists tg, l1, l2, u1, v1, w1, inv2, w2. split_and!; done.
Qed.

(** ** Valid cells *)

(** C4: a cell that is valid at the start of a reference pass of
    [InterpolationStep.process] is written neither by that reference nor by
    a later one.  The start of a pass is the state that the step reaches
    with the references before it ([refs1]; none for the original input):
    every cell that the mask does not mark there holds the same u and v
    when all the references have been processed. *)
Theorem valid_cells_are_never_written E refs1 refs2 u v target w lu lv w2 :
  mask_stable (generate_mask_invalid E) →
  InterpolationStep.process E {| InterpolationStep.references := refs1 ++ refs2 |}
    u v target w = Return (lu, lv) w2 →
  ∃ w1 u1 v1 u2 v2,
    InterpolationStep.process E {| InterpolationStep.references := refs1 |}
      u v target w = Return (lu, lv) w1
    ∧ heap w1 !! lu = Some u1 ∧ heap w1 !! lv = Some v1
    ∧ heap w2 !! lu = Some u2 ∧ heap w2 !! lv = Some v2
    ∧ ∀ p, ¬ marked (generate_mask_invalid E u1) p →
           get3 u2 p = get3 u1 p ∧ get3 v2 p = get3 v1 p.
Proof.
  intros Hst Hrun.
  destruct (process_app_Return _ _ _ _ _ _ _ _ _ _ Hrun)
    as (tg & l1 & l2 & u1 & v1 & w1 & inv2 & w2' & _ & _ & _ & Hne & Hu1 & Hv1
        & Hloop & Hheap & Hrun1).
  destruct (ref_loop_frame E tg _ _ Hne _ _ _ u1 v1 _ _ Hst Hu1 Hv1 eq_refl Hloop)
    as (u2 & v2 & Hu2 & Hv2 & _ & _ & _ & _ & _ & _ & Hkeep).
  exists (World (heap w1) (log w1 ++ [LogInterpolated (count3 (generate_mask_invalid E u1))])),
    u1, v1, u2, v2. rewrite Hheap. done.
Qed.

Lemma valid_cells_are_never_written_witness :
  mask_stable (generate_mask_invalid E_spec)
  ∧ InterpolationStep.process E_spec
      {| InterpolationStep.references := [RefGrid gappy_grid] ++ [RefGrid ref_grid] |}
      0 1 target_ds w0 = Return (2, 3) w_filled
  ∧ ∃ w1 u1 v1 u2 v2,
      InterpolationStep.process E_spec
        {| InterpolationStep.references := [RefGrid gappy_grid] |}
        0 1 target_ds w0 = Return (2, 3) w1
      ∧ heap w1 !! 2 = Some u1 ∧ heap w1 !! 3 = Some v1
      ∧ heap w_filled !! 2 = Some u2 ∧ heap w_filled !! 3 = Some v2
      ∧ ∀ p, ¬ marked (generate_mask_invalid E_spec u1) p →
             get3 u2 p = get3 u1 p ∧ get3 v2 p = get3 v1 p.
Proof.
  split; [apply map3_mask_stable|].
  assert (InterpolationStep.process E_spec
            {| InterpolationStep.references := [RefGrid gappy_grid] ++ [RefGrid ref_grid] |}
            0 1 target_ds w0 = Return (2, 3) w_filled) as Hrun
    by (vm_compute; reflexivity).
  split; [exact Hrun|].
  exact (valid_cells_are_never_written E_spec [RefGrid gappy_grid] [RefGrid ref_grid]
           0 1 target_ds w0 2 3 w_filled (map3_mask_stable invalid_value) Hrun).
Defined.

(** ** What a pass writes *)

(** [get_interped], in terms of the two values it reads. *)
Lemma get_interped_eq k target ref ps p :
  ps !! k = Some p →
  get_interped k target ref ps =
  let? vals := reference_values target ref p in
  Ok (if rejected vals.1 vals.2 then (nan, nan) else vals.1).
Proof.
  intros Hk. unfold get_interped, reference_values, rejected, index. rewrite Hk.
  destruct p as [[t i] j]. simpl.
  destruct (diff_first _) as [time_diff|]; simpl; [|done].
  destruct (lats target !! i) as [lat|]; simpl; [|done].
  destruct (lons target !! j) as [lon|]; simpl; [|done].
  destruct (get_fs_vector _ _ _ _) as [[cu cv]|]; simpl; [|done].
  destruct (get_closest_current _ _ _ _) as [closest|]; simpl; [|done].
  by destruct (_ || _).
Qed.

Section fill_pass_values.
Context (E : externals) (target : SurfaceGrid) (lu lv : loc) (Hne : lu ≠ lv).

(** The cells that a pass visits hold, after it, what [get_interped] gave
    for them. *)
Lemma fill_pass_at invalid ref w invalid' w' p :
  InterpolationStep.fill_pass E target lu lv invalid ref w = Return invalid' w' →
  p ∈ where3 invalid →
  ∃ vals u' v',
    reference_values target ref p = Ok vals
    ∧ heap w' !! lu = Some u' ∧ heap w' !! lv = Some v'
    ∧ get3 u' p = Some (if rejected vals.1 vals.2 then nan else vals.1.1)
    ∧ get3 v' p = Some (if rejected vals.1 vals.2 then nan else vals.1.2).
Proof.
  intros Hr Hp.
  destruct (fill_pass_spec E target lu lv invalid ref w Hne)
    as [(e & hp & Hr') | (ys & u & v & u' & v' & Hys & Hu & Hv & Hsu & Hsv & Hr')];
    rewrite Hr' in Hr; [done|]. injection Hr as <- <-.
  apply list_elem_of_lookup in Hp as [k Hk].
  apply interp_values_Ok in Hys as [Hlen Hys].
  destruct (Hys k) as (y & Hy & Hget).
  { rewrite <-length_where3. eauto using lookup_lt_Some. }
  rewrite (get_interped_eq _ _ _ _ _ Hk) in Hget.
  destruct (reference_values target ref p) as [vals|e] eqn:Hvals; simplify_eq/=.
  exists vals, u', v'. split_and!.
  - done.
  - rewrite list_lookup_insert_ne by done.
    apply list_lookup_insert_eq. eauto using lookup_lt_Some.
  - apply list_lookup_insert_eq. rewrite length_insert. eauto using lookup_lt_Some.
  - eapply setitem3_at; [done | apply NoDup_where3 | done |].
    rewrite list_lookup_fmap, Hy. simpl. by destruct (rejected _ _).
  - eapply setitem3_at; [done | apply NoDup_where3 | done |].
    rewrite list_lookup_fmap, Hy. simpl. by destruct (rejected _ _).
Qed.

End fill_pass_values.

(** C5, as the code has it: for the last reference of the list, every cell
    that is invalid when its pass starts (after the references before it)
    ends with both u and v NaN when the U component of the reference's
    closest current is NaN or the magnitude |u| + |v| of the reference's
    vector is exactly zero; otherwise the cell receives the reference's
    vector, also when its V component is NaN. *)
Theorem rejected_fill_is_nan E refs r u v target w lu lv w2 :
  InterpolationStep.process E {| InterpolationStep.references := refs ++ [r] |}
    u v target w = Return (lu, lv) w2 →
  ∃ tg ref w1 u1 u2 v2,
    SurfaceGrid_init E target = Ok tg
    ∧ InterpolationStep.load_reference E tg r = Ok ref
    ∧ InterpolationStep.process E {| InterpolationStep.references := refs |}
        u v target w = Return (lu, lv) w1
    ∧ heap w1 !! lu = Some u1
    ∧ heap w2 !! lu = Some u2 ∧ heap w2 !! lv = Some v2
    ∧ ∀ p, marked (generate_mask_invalid E u1) p →
        ∃ current closest,
          reference_values tg ref p = Ok (current, closest)
          ∧ (is_nan closest.1 = true ∨ (abs current.1 + abs current.2 =? 0)%float = true →
             get3 u2 p = Some nan ∧ get3 v2 p = Some nan)
          ∧ (is_nan closest.1 = false →
             (abs current.1 + abs current.2 =? 0)%float = false →
             get3 u2 p = Some current.1 ∧ get3 v2 p = Some current.2).
Proof.
  intros Hrun.
  destruct (process_app_Return _ _ _ _ _ _ _ _ _ _ Hrun)
    as (tg & l1 & l2 & u1 & v1 & w1 & inv2 & w2' & Htg & _ & Hl2 & Hne & Hu1 & Hv1
        & Hloop & Hheap & Hrun1).
  simpl in Hl2. destruct (InterpolationStep.load_reference E tg r) as [ref|e] eqn:Hr;
    simplify_eq/=.
  destruct (ref_loop_invariant E tg lu lv Hne [ref] _ w1 u1 v1 _ _ Hu1 Hv1 eq_refl Hloop)
    as (u2 & v2 & Hu2 & Hv2 & _).
  simpl in Hloop. unfold bind in Hloop.
  destruct (InterpolationStep.fill_pass E tg lu lv _ ref w1) as [inv' w1'|e w1'] eqn:Hpass;
    [|done].
  unfold ret in Hloop. injection Hloop as -> ->.
  exists tg, ref, (World (heap w1)
                     (log w1 ++ [LogInterpolated (count3 (generate_mask_invalid E u1))])),
    u1, u2, v2.
  rewrite Hheap. split_and!; try done.
  intros p Hp. apply elem_of_where3 in Hp.
  destruct (fill_pass_at E tg lu lv Hne _ _ _ _ _ p Hpass Hp)
    as ([current closest] & u' & v' & Hvals & Hu' & Hv' & Hgu & Hgv).
  assert (u' = u2) as -> by congruence. assert (v' = v2) as -> by congruence.
  exists current, closest. split_and!; try done.
  - intros Hrej. assert (rejected current closest = true) as Hrej'.
    { unfold rejected. destruct Hrej as [-> | ->]; [done | by rewrite orb_true_r]. }
    simpl in *. by rewrite Hrej' in Hgu, Hgv.
  - intros H1 H2. simpl in *. unfold rejected in *. by rewrite H1, H2 in Hgu, Hgv.
Qed.

(** The first element of a list for which a lookup raises. *)
Lemma first_failure {A B} (f : A → result B) (l : list A) x e :
  x ∈ l → f x = Err e →
  ∃ l1 x' l2 e',
    l = l1 ++ x' :: l2 ∧ Forall (λ y, ∃ b, f y = Ok b) l1 ∧ f x' = Err e'.
Proof.
  induction l as [|y l IH]; intros Hx He; [by apply elem_of_nil in Hx|].
  destruct (f y) as [b|e0] eqn:Hy.
  - apply elem_of_cons in Hx as [->|Hx]; [congruence|].
    destruct (IH Hx He) as (l1 & x' & l2 & e' & -> & Hl1 & Hx').
    exists (y :: l1), x', l2, e'. split_and!; [done| |done].
    constructor; [by eexists | done].
  - exists [], y, l, e0. split_and!; [done | constructor | done].
Qed.

(** The lookups of a pass are made in the order of the cells: the pass
    ends with the exception of the first cell whose lookup raises. *)
Lemma interp_values_first_Err target ref ps1 p ps2 e :
  Forall (λ q, ∃ vals, reference_values target ref q = Ok vals) ps1 →
  reference_values target ref p = Err e →
  InterpolationStep.interp_values target ref (ps1 ++ p :: ps2) (length (ps1 ++ p :: ps2))
  = Err e.
Proof.
  intros Hps1 He. unfold InterpolationStep.interp_values.
  rewrite length_app. simpl. rewrite seq_app, mapR_app. simpl.
  assert (∃ ys, mapR (λ i, get_interped i target ref (ps1 ++ p :: ps2)) (seq 0 (length ps1))
                = Ok ys) as [ys ->].
  { apply mapR_Ok_total. intros k Hk. apply elem_of_seq in Hk as [_ Hk]. simpl in Hk.
    destruct (lookup_lt_is_Some_2 ps1 k Hk) as [q Hq].
    rewrite (get_interped_eq k target ref _ q) by (by apply lookup_app_l_Some).
    rewrite Forall_forall in Hps1.
    destruct (Hps1 q) as [vals ->]; [by eapply list_elem_of_lookup_2|]. by eexists. }
  simpl. rewrite (get_interped_eq (length ps1) target ref _ p)
    by (by apply list_lookup_middle).
  by rewrite He.
Qed.

(** C6, as the code has it: a lookup that raises for an invalid cell is not
    recovered.  For a reference at any position of the list ([refs1] are
    the references before it, [w1] and [u1] the world and the U array that
    the step reaches with them): when a lookup in that reference raises
    for a cell that is invalid when its pass starts,
    [InterpolationStep.process] raises the exception of the first such
    cell, in the order of [np.where]; no arrays are returned, the copies
    are as the references before left them, and the references that
    follow are not consulted. *)
Theorem lookup_failure_escapes E refs1 r refs2 u v target w tg l1 ref l2 lu lv w1 u1 p e :
  SurfaceGrid_init E target = Ok tg →
  mapR (InterpolationStep.load_reference E tg) refs1 = Ok l1 →
  InterpolationStep.load_reference E tg r = Ok ref →
  mapR (InterpolationStep.load_reference E tg) refs2 = Ok l2 →
  InterpolationStep.do_validation tg (l1 ++ ref :: l2) = Ok () →
  InterpolationStep.process E {| InterpolationStep.references := refs1 |} u v target w
    = Return (lu, lv) w1 →
  heap w1 !! lu = Some u1 →
  marked (generate_mask_invalid E u1) p →
  reference_values tg ref p = Err e →
  ∃ ps1 p' ps2 e' lg,
    where3 (generate_mask_invalid E u1) = ps1 ++ p' :: ps2
    ∧ Forall (λ q, ∃ vals, reference_values tg ref q = Ok vals) ps1
    ∧ reference_values tg ref p' = Err e'
    ∧ log w1 = lg ++ [LogInterpolated (count3 (generate_mask_invalid E u1))]
    ∧ InterpolationStep.process E
        {| InterpolationStep.references := refs1 ++ r :: refs2 |} u v target w
      = Raise e'
          (World (heap w1) (lg ++ [LogAttempt (count3 (generate_mask_invalid E u1))])).
Proof.
  intros Htg Hl1 Hr Hl2 Hval Hrun1 Hu1 Hp He.
  rewrite process_eq in Hrun1. simpl in Hrun1. rewrite Htg, Hl1 in Hrun1.
  rewrite (do_validation_app _ _ _ Hval) in Hrun1.
  destruct (heap w !! u) as [ua|] eqn:Hu; [|done].
  destruct ((heap w ++ [ua]) !! v) as [va|] eqn:Hv; [|done]. simpl in Hrun1.
  pose proof (Nat.neq_succ_diag_r (length (heap w))) as Hne.
  destruct (InterpolationStep.ref_loop E tg _ _ _ l1 _) as [inv1 w1'|e1 w1'] eqn:Hloop1;
    [|done].
  injection Hrun1 as <- <- <-.
  destruct (ref_loop_invariant E tg _ _ Hne _ _ _ ua va _ _
              (lookup_copy_u _ _ _ _) (lookup_copy_v _ _ _ _) eq_refl Hloop1)
    as (u1' & v1' & Hu1' & Hv1' & ->).
  simpl in Hu1. assert (u1' = u1) as -> by congruence.
  apply elem_of_where3 in Hp.
  destruct (first_failure (reference_values tg ref) _ p e Hp He)
    as (ps1 & p' & ps2 & e' & Hwhere & Hps1 & He').
  exists ps1, p', ps2, e', (log w1'). split_and!; [done..|].
  rewrite process_eq. simpl. rewrite Htg, mapR_app, Hl1. simpl. rewrite Hr, Hl2. simpl.
  rewrite Hval, Hu, Hv. simpl.
  rewrite ref_loop_app. unfold bind. rewrite Hloop1. simpl. unfold bind.
  rewrite (fill_pass_lookup_Err E tg _ _ _ ref _ e'); [done|].
  rewrite <-length_where3, Hwhere. by apply interp_values_first_Err.
Qed.

Lemma rejected_fill_is_nan_witness :
  InterpolationStep.process E_spec
    {| InterpolationStep.references := [] ++ [RefGrid gappy_grid] |} 0 1 target_ds w0
  = Return (2, 3) w_gappy
  ∧ heap w_gappy !! 2 = Some [ [[0.75; 0.5]; [nan; nan]]; [[0.75; 0.5]; [nan; nan]] ]%float
  ∧ ∃ tg ref w1 u1 u2 v2,
      SurfaceGrid_init E_spec target_ds = Ok tg
      ∧ InterpolationStep.load_reference E_spec tg (RefGrid gappy_grid) = Ok ref
      ∧ InterpolationStep.process E_spec {| InterpolationStep.references := [] |}
          0 1 target_ds w0 = Return (2, 3) w1
      ∧ heap w1 !! 2 = Some u1
      ∧ heap w_gappy !! 2 = Some u2 ∧ heap w_gappy !! 3 = Some v2
      ∧ ∀ p, marked (generate_mask_invalid E_spec u1) p →
          ∃ current closest,
            reference_values tg ref p = Ok (current, closest)
            ∧ (is_nan closest.1 = true ∨ (abs current.1 + abs current.2 =? 0)%float = true →
               get3 u2 p = Some nan ∧ get3 v2 p = Some nan)
            ∧ (is_nan closest.1 = false →
               (abs current.1 + abs current.2 =? 0)%float = false →
               get3 u2 p = Some current.1 ∧ get3 v2 p = Some current.2).
Proof.
  assert (InterpolationStep.process E_spec
            {| InterpolationStep.references := [] ++ [RefGrid gappy_grid] |} 0 1 target_ds w0
          = Return (2, 3) w_gappy) as Hrun by (vm_compute; reflexivity).
  split_and!; [exact Hrun | vm_compute; reflexivity |].
  exact (rejected_fill_is_nan E_spec [] (RefGrid gappy_grid) 0 1 target_ds w0 2 3 w_gappy Hrun).
Defined.

(** The claim of C5 fails where only the V component of the reference is
    NaN: the lookups give (0.25, NaN), which the rule of the specification
    counts as invalid, and the cell receives u = 0.25.  With the grid of a
    dataset whose V is NaN (zero in its flat field set) the cell receives
    (0.25, 0). *)
Lemma v_gap_is_propagated :
  reference_values target_grid vnan_grid (0, 0, 0) = Ok ((0.25, nan), (0.25, nan))%float
  ∧ invalid_rule 0.25 nan = true
  ∧ get_interped 0 target_grid vnan_grid [(0, 0, 0)] = Ok (0.25, nan)%float
  ∧ (heap (world_of (InterpolationStep.process E_spec
                       (InterpolationStep.init (Some [RefGrid vnan_grid])) 0 1 target_ds w0))
       !! 2 ≫= λ u', get3 u' (0, 0, 0)) = Some 0.25%float
  ∧ reference_values target_grid vgap_grid (0, 0, 0) = Ok ((0.25, 0), (0.25, nan))%float
  ∧ (heap (world_of (InterpolationStep.process E_spec
                       (InterpolationStep.init (Some [RefGrid vgap_grid])) 0 1 target_ds w0))
       !! 2 ≫= λ u', get3 u' (0, 0, 0)) = Some 0.25%float
  ∧ (heap (world_of (InterpolationStep.process E_spec
                       (InterpolationStep.init (Some [RefGrid vgap_grid])) 0 1 target_ds w0))
       !! 3 ≫= λ v', get3 v' (0, 0, 0)) = Some 0%float.
Proof. split_and!; vm_compute; reflexivity. Qed.

Lemma lookup_failure_escapes_witness :
  InterpolationStep.process E_spec {| InterpolationStep.references := [RefGrid gappy_grid] |}
    0 1 target_ds w0 = Return (2, 3) w_gappy
  ∧ heap w_gappy !! 2 = Some [ [[0.75; 0.5]; [nan; nan]]; [[0.75; 0.5]; [nan; nan]] ]%float
  ∧ reference_values target_grid late_grid (0, 1, 0) = Ok ((0.25, 0.125), (0.25, 0.125))%float
  ∧ reference_values target_grid late_grid (1, 1, 0) = Err OutOfDomain
  ∧ reference_values target_grid late_grid (1, 1, 1) = Err OutOfDomain
  ∧ InterpolationStep.process E_spec
      {| InterpolationStep.references :=
           [RefGrid gappy_grid] ++ RefGrid late_grid :: [RefGrid ref_grid] |}
      0 1 target_ds w0
    = Raise OutOfDomain
        (World [target_u; target_v;
                [ [[0.75; 0.5]; [nan; nan]]; [[0.75; 0.5]; [nan; nan]] ];
                [ [[0.375; 0.5]; [nan; nan]]; [[0.375; 0.5]; [nan; nan]] ]]%float
               [LogTargetInvalid 6; LogAttempt 6; LogAfterRef 4 2; LogAttempt 4])
  ∧ ∃ ps1 p' ps2 e' lg,
      where3 (generate_mask_invalid E_spec
                [ [[0.75; 0.5]; [nan; nan]]; [[0.75; 0.5]; [nan; nan]] ]%float)
      = ps1 ++ p' :: ps2
      ∧ Forall (λ q, ∃ vals, reference_values target_grid late_grid q = Ok vals) ps1
      ∧ reference_values target_grid late_grid p' = Err e'
      ∧ log w_gappy
        = lg ++ [LogInterpolated
                   (count3 (generate_mask_invalid E_spec
                              [ [[0.75; 0.5]; [nan; nan]]; [[0.75; 0.5]; [nan; nan]] ]%float))]
      ∧ InterpolationStep.process E_spec
          {| InterpolationStep.references :=
               [RefGrid gappy_grid] ++ RefGrid late_grid :: [RefGrid ref_grid] |}
          0 1 target_ds w0
        = Raise e'
            (World (heap w_gappy)
               (lg ++ [LogAttempt
                         (count3 (generate_mask_invalid E_spec
                                    [ [[0.75; 0.5]; [nan; nan]];
                                      [[0.75; 0.5]; [nan; nan]] ]%float))])).
Proof.
  assert (InterpolationStep.process E_spec
            {| InterpolationStep.references := [RefGrid gappy_grid] |} 0 1 target_ds w0
          = Return (2, 3) w_gappy) as Hrun by (vm_compute; reflexivity).
  assert (heap w_gappy !! 2
          = Some [ [[0.75; 0.5]; [nan; nan]]; [[0.75; 0.5]; [nan; nan]] ]%float) as Hu1
    by (vm_compute; reflexivity).
  assert (reference_values target_grid late_grid (1, 1, 1) = Err OutOfDomain) as He
    by (vm_compute; reflexivity).
  split_and!; [exact Hrun | exact Hu1 | vm_compute; reflexivity | vm_compute; reflexivity
              | exact He | vm_compute; reflexivity |].
  apply (lookup_failure_escapes E_spec [RefGrid gappy_grid] (RefGrid late_grid)
           [RefGrid ref_grid] 0 1 target_ds w0 target_grid [gappy_grid] late_grid [ref_grid]
           2 3 w_gappy _ (1, 1, 1) OutOfDomain).
  - vm_compute; reflexivity.
  - reflexivity.
  - reflexivity.
  - reflexivity.
  - vm_compute; reflexivity.
  - exact Hrun.
  - exact Hu1.
  - vm_compute; reflexivity.
  - exact He.
Defined.

(** The claim of C6 fails: the reference covers the hour of the target with
    two time steps, the target has three, and the lookup for the missing
    cell of the third maps to a time after the reference's last; the
    [OutOfDomain] of the lookup leaves [process]. *)
Lemma out_of_domain_escapes_process :
  InterpolationStep.do_validation fine_grid [ref_grid] = Ok ()
  ∧ InterpolationStep.process E_spec (InterpolationStep.init (Some [RefGrid ref_grid]))
      0 1 fine_ds w_fine
    = Raise OutOfDomain
        (World [fine_u; fine_u; fine_u; fine_u] [LogTargetInvalid 1; LogAttempt 1]).
Proof. split; vm_compute; reflexivity. Qed.

(** ** Coverage *)

Lemma check_references_first_failure target lo hi before ref after :
  Forall (λ r, InterpolationStep.inbounds target r lo hi = Ok true) before →
  InterpolationStep.inbounds target ref lo hi = Ok false →
  InterpolationStep.check_references target lo hi (before ++ ref :: after)
  = Err (ValueError incorrect_reference_dimensions).
Proof.
  intros Hbefore Href. induction Hbefore as [|r before Hr _ IH]; simpl.
  - by rewrite Href.
  - by rewrite Hr.
Qed.

(** C1, as the code has it: a loaded reference whose span does not enclose
    the target's makes [InterpolationStep.process] raise [ValueError] during
    validation.  Nothing is logged, no mask is computed and no array is
    copied or written: the world is as it was, and neither this reference
    nor the ones after it are used. *)
Theorem insufficient_coverage_aborts E self u v target_ds w target before ref after
    lat0 lon0 lat1 lon1 :
  SurfaceGrid_init E target_ds = Ok target →
  mapR (InterpolationStep.load_reference E target) (InterpolationStep.references self)
    = Ok (before ++ ref :: after) →
  index (lats target) 0 = Ok lat0 → index (lons target) 0 = Ok lon0 →
  index_last (lats target) = Ok lat1 → index_last (lons target) = Ok lon1 →
  Forall (λ r, InterpolationStep.inbounds target r (lat0, lon0) (lat1, lon1) = Ok true) before →
  InterpolationStep.inbounds target ref (lat0, lon0) (lat1, lon1) = Ok false →
  InterpolationStep.process E self u v target_ds w
  = Raise (ValueError incorrect_reference_dimensions) w.
Proof.
  intros Htarget Hloaded Hlat0 Hlon0 Hlat1 Hlon1 Hbefore Href.
  rewrite process_eq, Htarget, Hloaded. unfold InterpolationStep.do_validation. simpl.
  rewrite Hlat0, Hlon0, Hlat1, Hlon1. simpl.
  by rewrite (check_references_first_failure _ _ _ _ _ _ Hbefore Href).
Qed.

Lemma insufficient_coverage_aborts_witness :
  InterpolationStep.inbounds target_grid gappy_grid (32, 10)%float (33, 11)%float = Ok true
  ∧ InterpolationStep.inbounds target_grid half_grid (32, 10)%float (33, 11)%float = Ok false
  ∧ InterpolationStep.process E_spec
      (InterpolationStep.init (Some [RefGrid gappy_grid; RefGrid half_grid; RefGrid ref_grid]))
      0 1 target_ds w0
    = Raise (ValueError incorrect_reference_dimensions) w0.
Proof.
  assert (InterpolationStep.inbounds target_grid gappy_grid (32, 10)%float (33, 11)%float
          = Ok true) as Hin by (vm_compute; reflexivity).
  assert (InterpolationStep.inbounds target_grid half_grid (32, 10)%float (33, 11)%float
          = Ok false) as Hout by (vm_compute; reflexivity).
  split_and!; [exact Hin | exact Hout |].
  apply (insufficient_coverage_aborts E_spec _ 0 1 target_ds w0 target_grid
           [gappy_grid] half_grid [ref_grid] 32 10 33 11)%float.
  - reflexivity.
  - reflexivity.
  - reflexivity.
  - reflexivity.
  - reflexivity.
  - reflexivity.
  - constructor; [exact Hin | constructor].
  - exact Hout.
Defined.

(** The claim of C1 fails: with a reference over half of the longitudes
    before a reference that covers the target, the step does not continue
    with the second reference; it raises, and the world is untouched. *)
Lemma half_coverage_is_not_skipped :
  InterpolationStep.process E_spec
    (InterpolationStep.init (Some [RefGrid half_grid; RefGrid ref_grid])) 0 1 target_ds w0
  = Raise (ValueError incorrect_reference_dimensions) w0
  ∧ InterpolationStep.process E_spec
      (InterpolationStep.init (Some [RefGrid ref_grid])) 0 1 target_ds w0
    = Return (2, 3)
        (World [target_u; target_v;
                [ [[0.25; 0.5]; [0.25; 0.25]]; [[0.25; 0.5]; [0.25; 0.25]] ];
                [ [[0.125; 0.5]; [0.125; 0.125]]; [[0.125; 0.5]; [0.125; 0.125]] ]]%float
               [LogTargetInvalid 6; LogAttempt 6; LogAfterRef 0 6; LogInterpolated 0]).
Proof. split; vm_compute; reflexivity. Qed.

(** ** No references *)

Lemma index_0_nonempty {A} (l : list A) : l ≠ [] → ∃ x, index l 0 = Ok x.
Proof. destruct l; [done | eauto]. Qed.

Lemma index_last_nonempty {A} (l : list A) : l ≠ [] → ∃ x, index_last l = Ok x.
Proof.
  intros Hl. unfold index_last. destruct (last l) as [x|] eqn:Hlast; [eauto|].
  by apply last_None in Hlast.
Qed.

(** With no references, [process] copies. *)
Lemma process_no_references E self u v target_ds w target ua va :
  InterpolationStep.references self = [] →
  SurfaceGrid_init E target_ds = Ok target →
  lats target ≠ [] → lons target ≠ [] →
  heap w !! u = Some ua → heap w !! v = Some va →
  InterpolationStep.process E self u v target_ds w
  = Return (length (heap w), S (length (heap w)))
      (World (heap w ++ [ua; va])
             (log w ++ [LogTargetInvalid (count3 (generate_mask_invalid E ua));
                        LogInterpolated (count3 (generate_mask_invalid E ua))])).
Proof.
  intros Hrefs Htarget Hlats Hlons Hu Hv.
  rewrite process_eq, Htarget, Hrefs. simpl. unfold InterpolationStep.do_validation. simpl.
  destruct (index_0_nonempty _ Hlats) as [lat0 ->].
  destruct (index_0_nonempty _ Hlons) as [lon0 ->].
  destruct (index_last_nonempty _ Hlats) as [lat1 ->].
  destruct (index_last_nonempty _ Hlons) as [lon1 ->]. simpl.
  rewrite Hu. rewrite (lookup_app_l_Some _ _ _ _ Hv). simpl. unfold ret.
  by rewrite <-app_assoc.
Qed.

(** C10, as the code has it: for a target whose grid can be built and has
    at least one latitude and one longitude, [InterpolationStep] constructed
    with [None] or with the empty list returns two new arrays, behind the
    arrays of the world, that hold the values of the input u and v; the
    arrays of the world are as they were. *)
Theorem no_references_is_identity E references u v target_ds w target ua va :
  references = None ∨ references = Some [] →
  SurfaceGrid_init E target_ds = Ok target →
  lats target ≠ [] → lons target ≠ [] →
  heap w !! u = Some ua → heap w !! v = Some va →
  InterpolationStep.process E (InterpolationStep.init references) u v target_ds w
  = Return (length (heap w), S (length (heap w)))
      (World (heap w ++ [ua; va])
             (log w ++ [LogTargetInvalid (count3 (generate_mask_invalid E ua));
                        LogInterpolated (count3 (generate_mask_invalid E ua))])).
Proof.
  intros Hrefs. apply process_no_references. by destruct Hrefs as [-> | ->].
Qed.

Lemma no_references_is_identity_witness :
  InterpolationStep.process E_spec (InterpolationStep.init None) 0 1 target_ds w0
  = Return (2, 3)
      (World [target_u; target_v; target_u; target_v] [LogTargetInvalid 6; LogInterpolated 6]).
Proof.
  apply (no_references_is_identity E_spec None 0 1 target_ds w0 target_grid target_u target_v).
  - by left.
  - reflexivity.
  - discriminate.
  - discriminate.
  - reflexivity.
  - reflexivity.
Defined.

(** The claim of C10 fails for a target without latitudes: validation reads
    the first latitude before it looks at any reference, and the step
    raises [IndexError]. *)
Lemma no_references_empty_axis :
  InterpolationStep.process E_spec (InterpolationStep.init None) 0 1 flat_ds w_flat
  = Raise IndexError w_flat
  ∧ InterpolationStep.process E_spec (InterpolationStep.init (Some [])) 0 1 flat_ds w_flat
    = Raise IndexError w_flat.
Proof. split; vm_compute; reflexivity. Qed.

(** ** The mask and the V component *)

Section ignores_v.
Context (E : externals) (target : SurfaceGrid) (lu lv : loc) (Hne : lu ≠ lv).

Lemma fill_pass_eq invalid ref w :
  InterpolationStep.fill_pass E target lu lv invalid ref w =
  match InterpolationStep.interp_values target ref (where3 invalid) (count3 invalid) with
  | Err e => Raise e (attempted invalid w)
  | Ok vals =>
  match heap w !! lu with
  | None => Raise (ValueError "no such array") (attempted invalid w)
  | Some u =>
  match setitem3 u (where3 invalid) (vals.*1) with
  | Err e => Raise e (attempted invalid w)
  | Ok u' =>
  match heap w !! lv with
  | None => Raise (ValueError "no such array")
              (World (<[lu := u']> (heap w)) (log (attempted invalid w)))
  | Some v =>
  match setitem3 v (where3 invalid) (vals.*2) with
  | Err e => Raise e (World (<[lu := u']> (heap w)) (log (attempted invalid w)))
  | Ok v' => Return (generate_mask_invalid E u') (passed E lu lv invalid u' v' w)
  end end end end end.
Proof.
  unfold InterpolationStep.fill_pass, passed, attempted. unfold_M.
  destruct (InterpolationStep.interp_values _ _ _ _) as [vals|e]; simpl; [|done].
  destruct (heap w !! lu) as [u|] eqn:Hu; simpl; [|done].
  destruct (setitem3 u _ _) as [u'|e] eqn:Hu'; simpl; [|done].
  rewrite list_lookup_insert_ne by done.
  destruct (heap w !! lv) as [v|] eqn:Hv; simpl; [|done].
  destruct (setitem3 v _ _) as [v'|e] eqn:Hv'; simpl; [|done].
  rewrite list_lookup_insert_ne by done.
  rewrite list_lookup_insert_eq by eauto using lookup_lt_Some. simpl.
  by rewrite <-app_assoc.
Qed.

(** A pass does the same to U and to the log whatever the V array holds. *)
Lemma fill_pass_ignores_v invalid ref w1 w2 :
  agree_up_to_v lu lv w1 w2 →
  match InterpolationStep.fill_pass E target lu lv invalid ref w1,
        InterpolationStep.fill_pass E target lu lv invalid ref w2 with
  | Return i1 w1', Return i2 w2' => i1 = i2 ∧ agree_up_to_v lu lv w1' w2'
  | Raise e1 w1', Raise e2 w2' => e1 = e2 ∧ log w1' = log w2'
  | _, _ => False
  end.
Proof.
  intros (Hlog & Hlu & v1 & v2 & Hv1 & Hv2 & Hshape). rewrite !fill_pass_eq.
  unfold attempted, passed. rewrite <-Hlu, Hv1, Hv2, Hlog.
  destruct (InterpolationStep.interp_values _ _ _ _) as [vals|e]; simpl; [|done].
  destruct (heap w1 !! lu) as [u|] eqn:Hu; simpl; [|done].
  destruct (setitem3 u _ _) as [u'|e] eqn:Hu'; simpl; [|done].
  pose proof (setitem3_shape_outcome v1 v2 (where3 invalid) (vals.*2) (vals.*2)
                Hshape eq_refl) as Hout.
  destruct (setitem3 v1 _ _) as [v1'|e1], (setitem3 v2 _ _) as [v2'|e2]; simpl; try done.
  split; [done|]. split; [done|]. simpl.
  assert (lu < length (heap w1)) by eauto using lookup_lt_Some.
  assert (lu < length (heap w2)) by (rewrite Hlu in Hu; eauto using lookup_lt_Some).
  assert (lv < length (heap w1)) by eauto using lookup_lt_Some.
  assert (lv < length (heap w2)) by eauto using lookup_lt_Some.
  split.
  - rewrite !(list_lookup_insert_ne _ lv lu) by auto. by rewrite !list_lookup_insert_eq.
  - exists v1', v2'. by rewrite !list_lookup_insert_eq by (by rewrite length_insert).
Qed.

Lemma ref_loop_ignores_v refs invalid w1 w2 :
  agree_up_to_v lu lv w1 w2 →
  match InterpolationStep.ref_loop E target lu lv invalid refs w1,
        InterpolationStep.ref_loop E target lu lv invalid refs w2 with
  | Return i1 w1', Return i2 w2' => i1 = i2 ∧ agree_up_to_v lu lv w1' w2'
  | Raise e1 w1', Raise e2 w2' => e1 = e2 ∧ log w1' = log w2'
  | _, _ => False
  end.
Proof.
  revert invalid w1 w2. induction refs as [|ref refs IH]; intros invalid w1 w2 Hagree; simpl.
  - done.
  - unfold bind. pose proof (fill_pass_ignores_v invalid ref w1 w2 Hagree) as Hpass.
    destruct (InterpolationStep.fill_pass E target lu lv invalid ref w1) as [i1 w1'|e1 w1'],
      (InterpolationStep.fill_pass E target lu lv invalid ref w2) as [i2 w2'|e2 w2'];
      try done.
    destruct Hpass as [<- Hagree']. by apply IH.
Qed.

End ignores_v.

Lemma process_ignores_v E self u v1 v2 target w a1 a2 :
  heap w !! v1 = Some a1 → heap w !! v2 = Some a2 → shape3 a1 = shape3 a2 →
  same_outcome_up_to_v (InterpolationStep.process E self u v1 target w)
                       (InterpolationStep.process E self u v2 target w).
Proof.
  intros Hv1 Hv2 Hshape. rewrite !process_eq. unfold same_outcome_up_to_v.
  destruct (SurfaceGrid_init E target) as [tg|e]; simpl; [|done].
  destruct (mapR _ _) as [loaded|e]; simpl; [|done].
  destruct (InterpolationStep.do_validation _ _) as [[]|e]; simpl; [|done].
  destruct (heap w !! u) as [ua|] eqn:Hu; simpl; [|done].
  rewrite (lookup_app_l_Some _ _ _ _ Hv1), (lookup_app_l_Some _ _ _ _ Hv2).
  pose proof (Nat.neq_succ_diag_r (length (heap w))) as Hne.
  set (lg := log w ++ [LogTargetInvalid (count3 (generate_mask_invalid E ua))]).
  pose proof (ref_loop_ignores_v E tg _ _ Hne loaded (generate_mask_invalid E ua)
                (World (heap w ++ [ua; a1]) lg) (World (heap w ++ [ua; a2]) lg)) as Hloop.
  destruct (InterpolationStep.ref_loop E tg _ _ _ loaded (World (heap w ++ [ua; a1]) lg))
    as [i1 w1'|e1 w1'],
    (InterpolationStep.ref_loop E tg _ _ _ loaded (World (heap w ++ [ua; a2]) lg))
    as [i2 w2'|e2 w2'].
  - destruct Hloop as (<- & Hlog & Hlu & _).
    { split; [done|]. split; [by rewrite !lookup_copy_u|].
      exists a1, a2. by rewrite !lookup_copy_v. }
    simpl. by rewrite Hlog.
  - apply Hloop. split; [done|]. split; [by rewrite !lookup_copy_u|].
    exists a1, a2. by rewrite !lookup_copy_v.
  - apply Hloop. split; [done|]. split; [by rewrite !lookup_copy_u|].
    exists a1, a2. by rewrite !lookup_copy_v.
  - apply Hloop. split; [done|]. split; [by rewrite !lookup_copy_u|].
    exists a1, a2. by rewrite !lookup_copy_v.
Qed.

(** C2, as the code has it: the invalid mask of [InterpolationStep] is
    [generate_mask_invalid] of the U array alone.  Run on one U array with
    two V arrays of one shape, the step ends alike: the same exception or
    the same locations, the same reported counts of invalid cells and the
    same U array; V does not enter the mask. *)
Theorem mask_ignores_v E self u v1 v2 target w a1 a2 :
  heap w !! v1 = Some a1 → heap w !! v2 = Some a2 → shape3 a1 = shape3 a2 →
  same_outcome_up_to_v (InterpolationStep.process E self u v1 target w)
                       (InterpolationStep.process E self u v2 target w).
Proof. apply process_ignores_v. Qed.

Lemma mask_ignores_v_witness :
  same_outcome_up_to_v
    (InterpolationStep.process E_spec (InterpolationStep.init (Some [RefStr "uniform"]))
       0 1 vmiss_ds w_vmiss)
    (InterpolationStep.process E_spec (InterpolationStep.init (Some [RefStr "uniform"]))
       0 2 vmiss_ds w_vmiss).
Proof.
  apply (mask_ignores_v E_spec _ 0 1 2 vmiss_ds w_vmiss vmiss_v vmiss_u); reflexivity.
Defined.

(** The claim of C2 fails: in a target whose U is valid everywhere and
    whose V is NaN in one cell, the rule of the specification marks that
    cell, the mask of the step does not; the step reports no invalid cell
    and returns V with its NaN although the reference has data there.
    Whatever the mask helper is, the step reports the same counts as for
    the target whose V is valid everywhere. *)
Lemma v_only_gap_is_not_invalid :
  get3 (invalid_mask_rule vmiss_u vmiss_v) (0, 0, 0) = Some true
  ∧ get3 (generate_mask_invalid E_spec vmiss_u) (0, 0, 0) = Some false
  ∧ InterpolationStep.process E_spec (InterpolationStep.init (Some [RefStr "uniform"]))
      0 1 vmiss_ds w_vmiss
    = Return (3, 4)
        (World [vmiss_u; vmiss_v; vmiss_u; vmiss_u; vmiss_v]
               [LogTargetInvalid 0; LogAttempt 0; LogAfterRef 0 0; LogInterpolated 0])
  ∧ count3 (invalid_mask_rule vmiss_u vmiss_v) = 1
  ∧ count3 (invalid_mask_rule vmiss_u vmiss_u) = 0
  ∧ ∀ (E : externals) (self : InterpolationStep.t) (target : Dataset),
      same_outcome_up_to_v (InterpolationStep.process E self 0 1 target w_vmiss)
                           (InterpolationStep.process E self 0 2 target w_vmiss).
Proof.
  split_and!; try (vm_compute; reflexivity).
  intros E self target. by apply (process_ignores_v E self 0 1 2 target w_vmiss vmiss_v vmiss_u).
Qed.

(** ** Configuration errors *)

Lemma load_from_config_unregistered E before c after steps :
  assoc (step_name c) module_namespace = None →
  object_attribute E (step_name c) = false →
  mapR (λ step, let? step_class := import_gapfill_step E (step_name step) in
                construct E step_class (step_args step)) before = Ok steps →
  Gapfiller.load_from_config E (before ++ c :: after)
  = Err (AttributeError ("Gapfilling step " +:+ step_name c +:+ " not found in gapfilling.py")).
Proof.
  intros Hname Hobj Hbefore. unfold Gapfiller.load_from_config.
  rewrite mapR_app, Hbefore. simpl. unfold import_gapfill_step. by rewrite Hname, Hobj.
Qed.

Lemma process_unrecognized_reference E self u v target w tg before after loaded :
  SurfaceGrid_init E target = Ok tg →
  InterpolationStep.references self = before ++ RefOther :: after →
  mapR (InterpolationStep.load_reference E tg) before = Ok loaded →
  InterpolationStep.process E self u v target w
  = Raise (TypeError "Unrecognized type for reference") w.
Proof.
  intros Htg Hrefs Hbefore. rewrite process_eq, Htg, Hrefs, mapR_app, Hbefore. done.
Qed.

(** C9, as the code has it: a step name that [getattr] does not resolve
    on the module (a name that is neither bound in the module nor an
    attribute that every module object has) makes
    [Gapfiller.load_from_config] raise [AttributeError], at construction;
    a reference that is neither a grid nor a string is accepted at
    construction, and [TypeError] is raised when the step that holds it
    runs, before that step validates, logs, copies or writes anything. *)
Theorem configuration_errors :
  (∀ E before c after steps,
     assoc (step_name c) module_namespace = None →
     object_attribute E (step_name c) = false →
     mapR (λ step, let? step_class := import_gapfill_step E (step_name step) in
                   construct E step_class (step_args step)) before = Ok steps →
     Gapfiller.load_from_config E (before ++ c :: after)
     = Err (AttributeError
              ("Gapfilling step " +:+ step_name c +:+ " not found in gapfilling.py")))
  ∧ (∀ E references,
       Gapfiller.load_from_config E
         [ {| step_name := "InterpolationStep"; step_args := ArgsReferences references |} ]
       = Ok {| Gapfiller.steps :=
                 [PyStep (Step (InterpolationStep_GapfillStep E)
                            (InterpolationStep.init references))] |})
  ∧ (∀ E self u v target w tg before after loaded,
       SurfaceGrid_init E target = Ok tg →
       InterpolationStep.references self = before ++ RefOther :: after →
       mapR (InterpolationStep.load_reference E tg) before = Ok loaded →
       InterpolationStep.process E self u v target w
       = Raise (TypeError "Unrecognized type for reference") w).
Proof.
  split_and!.
  - apply load_from_config_unregistered.
  - done.
  - apply process_unrecognized_reference.
Qed.

Lemma configuration_errors_witness :
  Gapfiller.load_from_config E_spec config_bad_name
  = Err (AttributeError "Gapfilling step KrigingStep not found in gapfilling.py")
  ∧ InterpolationStep.process E_spec
      (InterpolationStep.init (Some [RefStr "uniform"; RefOther; RefGrid ref_grid]))
      0 1 target_ds w0
    = Raise (TypeError "Unrecognized type for reference") w0.
Proof.
  split.
  - exact (proj1 configuration_errors E_spec
             [ {| step_name := "InterpolationStep";
                  step_args := ArgsReferences (Some [RefGrid ref_grid]) |} ]
             {| step_name := "KrigingStep"; step_args := ArgsNone |} [] _
             eq_refl eq_refl eq_refl).
  - exact (proj2 (proj2 configuration_errors) E_spec
             (InterpolationStep.init (Some [RefStr "uniform"; RefOther; RefGrid ref_grid]))
             0 1 target_ds w0 target_grid [RefStr "uniform"] [RefGrid ref_grid] _
             eq_refl eq_refl eq_refl).
Defined.

(** The claim of C9 fails for the reference: the configuration is accepted,
    the pipeline is constructed, and [execute] raises [TypeError] in the
    second step, after the first step has filled the six gaps of the
    target. *)
Lemma bad_reference_is_found_late :
  ∃ g,
    Gapfiller.load_from_config E_spec config_bad_reference = Ok g
    ∧ Gapfiller.execute g target_ds (World [] [])
      = Raise (TypeError "Unrecognized type for reference")
          (World [target_u; target_v;
                  [ [[0.25; 0.5]; [0.25; 0.25]]; [[0.25; 0.5]; [0.25; 0.25]] ];
                  [ [[0.125; 0.5]; [0.125; 0.125]]; [[0.125; 0.5]; [0.125; 0.125]] ]]%float
                 [LogExecuting; LogTargetInvalid 6; LogAttempt 6; LogAfterRef 0 6;
                  LogInterpolated 0]).
Proof. eexists. split; [reflexivity | vm_compute; reflexivity]. Qed.

(** ** The no-data mask of the smoothing step *)

Lemma get3_tile3 {A} (m : list (list A)) T t i j :
  t < T → get3 (tile3 m T) (t, i, j) = m !! i ≫= (.!! j).
Proof. intros Ht. unfold get3, tile3. by rewrite lookup_replicate_2. Qed.

(** Assignment through a boolean mask: a cell that the mask holds [True]
    for receives the value, the other cells keep theirs. *)
Lemma get3_setmask3 a m x a' p b :
  setmask3 a m x = Ok a' → get3 m p = Some b →
  ∃ y, get3 a p = Some y ∧ get3 a' p = Some (if b then x else y).
Proof.
  unfold setmask3. case_bool_decide as Hshape; [|done]. intros [= <-] Hm.
  destruct (proj2 (shape3_get3 a m p Hshape)) as [y Hy]; [by eexists|].
  exists y. split; [done|].
  destruct p as [[t i] j]. unfold get3, setmask2, setmask1 in *.
  rewrite lookup_zip_with.
  destruct (a !! t) as [pa|], (m !! t) as [pm|]; simplify_eq/=.
  rewrite lookup_zip_with.
  destruct (pa !! i) as [ra|], (pm !! i) as [rm|]; simplify_eq/=.
  rewrite lookup_zip_with. by rewrite Hy, Hm.
Qed.

Lemma setmask3_length a m x a' : setmask3 a m x = Ok a' → length a' ≤ length m.
Proof.
  unfold setmask3. case_bool_decide; [|done]. intros [= <-].
  rewrite length_zip_with. lia.
Qed.

Lemma smoothn_process_eq E self u v target w :
  SmoothnStep.process E self u v target w =
  match SurfaceGrid_init E target with
  | Err e => Raise e w
  | Ok tg =>
  match SmoothnStep.do_validation self tg with
  | Err e => Raise e w
  | Ok _ =>
  match start_matlab E with
  | Err e => Raise e w
  | Ok _ =>
  match heap w !! u with
  | None => Raise (ValueError "no such array") w
  | Some ua =>
  match (heap w ++ [ua]) !! v with
  | None => Raise (ValueError "no such array") (World (heap w ++ [ua]) (log w))
  | Some va =>
    let su := length (heap w) in
    let sv := S (length (heap w)) in
    match SmoothnStep.smooth_fields E su sv ua va (seq 0 (length ua))
            (World (heap w ++ [ua; va]) (log w ++ [LogFilling (length ua)])) with
    | Raise e w' => Raise e w'
    | Return _ w4 =>
        match SmoothnStep.apply_mask E self tg su sv w4 with
        | Return _ w' =>
            match quit_engine E with
            | Ok _ => Return (su, sv) w'
            | Err e => Raise e w'
            end
        | Raise e w' => Raise e w'
        end
    end
  end end end end end.
Proof.
  unfold SmoothnStep.process. unfold_M.
  destruct (SurfaceGrid_init E target) as [tg|e]; simpl; [|done].
  destruct (SmoothnStep.do_validation _ _) as [[]|e]; simpl; [|done].
  destruct (start_matlab E) as [[]|e]; simpl; [|done].
  destruct (heap w !! u) as [ua|] eqn:Hu; simpl; [|done].
  destruct ((heap w ++ [ua]) !! v) as [va|] eqn:Hv; simpl; [|done].
  rewrite length_app, Nat.add_1_r, <-app_assoc. simpl.
  rewrite (list_lookup_middle (heap w) [va] ua _ eq_refl). simpl.
  replace ((heap w ++ [ua; va]) !! S (length (heap w))) with (Some va).
  2: { symmetry. apply (lookup_copy_v (heap w) ua va []). }
  simpl. destruct (SmoothnStep.smooth_fields _ _ _ _ _ _ _) as [[] w4|e w4]; [|done].
  destruct (SmoothnStep.apply_mask _ _ _ _ _ _) as [[] w5|e w5]; [|done]. simpl.
  by destruct (quit_engine E) as [[]|e].
Qed.

Lemma apply_mask_Return E m tg lu lv w w' :
  lu ≠ lv →
  SmoothnStep.apply_mask E {| SmoothnStep.mask := Some m |} tg lu lv w = Return () w' →
  ∃ mask_u T a b a' b',
    getitem (ds m) "U" = Ok mask_u
    ∧ setmask3 a (tile3 (generate_mask_no_data E (da_values mask_u)) T) nan = Ok a'
    ∧ setmask3 b (tile3 (generate_mask_no_data E (da_values mask_u)) T) nan = Ok b'
    ∧ heap w' !! lu = Some a' ∧ heap w' !! lv = Some b'.
Proof.
  intros Hne. unfold SmoothnStep.apply_mask. simpl. unfold_M.
  destruct (getitem (ds m) "U") as [mask_u|e]; simpl; [|done].
  destruct (coord_size (ds tg) "time") as [T|e]; simpl; [|done].
  destruct (heap w !! lu) as [a|] eqn:Ha; simpl; [|done].
  destruct (setmask3 a _ _) as [a'|e] eqn:Ha'; simpl; [|done].
  rewrite list_lookup_insert_ne by done.
  destruct (heap w !! lv) as [b|] eqn:Hb; simpl; [|done].
  destruct (setmask3 b _ _) as [b'|e] eqn:Hb'; simpl; [|done].
  intros [= <-]. exists mask_u, T, a, b, a', b'. simpl. split_and!; try done.
  - rewrite list_lookup_insert_ne by done.
    apply list_lookup_insert_eq. eauto using lookup_lt_Some.
  - apply list_lookup_insert_eq. rewrite length_insert. eauto using lookup_lt_Some.
Qed.

Lemma init_with_mask E src self :
  SmoothnStep.init E (Some src) = Ok self → ∃ m, self = {| SmoothnStep.mask := Some m |}.
Proof.
  destruct src as [g|d|path]; simpl.
  - intros [= <-]. eauto.
  - destruct (SurfaceGrid_init E d); simpl; [intros [= <-]; eauto | done].
  - destruct (from_url_or_path E path); simpl; [intros [= <-]; eauto | done].
Qed.

(** C8: when [SmoothnStep] is constructed with a mask and [process]
    returns, every cell that [generate_mask_no_data] marks for the mask's U
    is NaN in both arrays that the step returns, at every time step,
    whatever the engine returned for it. *)
Theorem mask_is_enforced E src self u v target w su sv w' :
  SmoothnStep.init E (Some src) = Ok self →
  SmoothnStep.process E self u v target w = Return (su, sv) w' →
  ∃ m mask_u out_u out_v,
    SmoothnStep.mask self = Some m
    ∧ getitem (ds m) "U" = Ok mask_u
    ∧ heap w' !! su = Some out_u ∧ heap w' !! sv = Some out_v
    ∧ ∀ t i j,
        generate_mask_no_data E (da_values mask_u) !! i ≫= (.!! j) = Some true →
        (t < length out_u → get3 out_u (t, i, j) = Some nan)
        ∧ (t < length out_v → get3 out_v (t, i, j) = Some nan).
Proof.
  intros [m ->]%init_with_mask. rewrite smoothn_process_eq.
  destruct (SurfaceGrid_init E target) as [tg|e]; simpl; [|done].
  destruct (SmoothnStep.do_validation _ _) as [[]|e]; simpl; [|done].
  destruct (start_matlab E) as [[]|e]; simpl; [|done].
  destruct (heap w !! u) as [ua|] eqn:Hu; simpl; [|done].
  destruct ((heap w ++ [ua]) !! v) as [va|] eqn:Hv; simpl; [|done].
  destruct (SmoothnStep.smooth_fields _ _ _ _ _ _ _) as [[] w4|e w4]; [|done].
  destruct (SmoothnStep.apply_mask _ _ _ _ _ _) as [[] w5|e w5] eqn:Hmask; [|done].
  destruct (quit_engine E) as [[]|e]; [|done].
  intros [= <- <- <-].
  apply apply_mask_Return in Hmask
    as (mask_u & T & a & b & a' & b' & Hget & Ha & Hb & Hlu & Hlv); [|lia].
  exists m, mask_u, a', b'. split_and!; try done.
  intros t i j Hmarked.
  split; intros Ht.
  - pose proof (setmask3_length _ _ _ _ Ha) as Hlen. unfold tile3 in Hlen.
    rewrite length_replicate in Hlen.
    assert (get3 (tile3 (generate_mask_no_data E (da_values mask_u)) T) (t, i, j) = Some true)
      as Htile by (rewrite get3_tile3 by lia; done).
    by destruct (get3_setmask3 _ _ _ _ _ _ Ha Htile) as (y & _ & ?).
  - pose proof (setmask3_length _ _ _ _ Hb) as Hlen. unfold tile3 in Hlen.
    rewrite length_replicate in Hlen.
    assert (get3 (tile3 (generate_mask_no_data E (da_values mask_u)) T) (t, i, j) = Some true)
      as Htile by (rewrite get3_tile3 by lia; done).
    by destruct (get3_setmask3 _ _ _ _ _ _ Hb Htile) as (y & _ & ?).
Qed.

Lemma mask_is_enforced_witness :
  SmoothnStep.init E_spec (Some (MaskGrid land_grid)) = Ok {| SmoothnStep.mask := Some land_grid |}
  ∧ SmoothnStep.process E_spec {| SmoothnStep.mask := Some land_grid |} 0 1 target_ds w0
    = Return (2, 3) w_smoothed
  ∧ heap w_smoothed !! 2 = Some [ [[1; 1]; [1; nan]]; [[1; 1]; [1; nan]] ]%float
  ∧ ∃ m mask_u out_u out_v,
      SmoothnStep.mask {| SmoothnStep.mask := Some land_grid |} = Some m
      ∧ getitem (ds m) "U" = Ok mask_u
      ∧ heap w_smoothed !! 2 = Some out_u ∧ heap w_smoothed !! 3 = Some out_v
      ∧ ∀ t i j,
          generate_mask_no_data E_spec (da_values mask_u) !! i ≫= (.!! j) = Some true →
          (t < length out_u → get3 out_u (t, i, j) = Some nan)
          ∧ (t < length out_v → get3 out_v (t, i, j) = Some nan).
Proof.
  assert (SmoothnStep.process E_spec {| SmoothnStep.mask := Some land_grid |} 0 1 target_ds w0
          = Return (2, 3) w_smoothed) as Hrun by (vm_compute; reflexivity).
  split_and!; [reflexivity | exact Hrun | vm_compute; reflexivity |].
  exact (mask_is_enforced E_spec (MaskGrid land_grid) _ 0 1 target_ds w0 2 3 w_smoothed
           eq_refl Hrun).
Defined.

(** ** The dataset that the orchestrator returns *)

Lemma shape_of_shape3 {A} (a : nd3 A) :
  shape_of a =
  [ length (shape3 a);
    default 0 (length <$> head (shape3 a));
    default 0 (head (shape3 a) ≫= head) ].
Proof.
  unfold shape_of, shape3. rewrite length_map.
  destruct a as [|[|row plane] a]; simpl; by rewrite ?length_map.
Qed.

Lemma shape3_shape_of {A B} (a : nd3 A) (b : nd3 B) :
  shape3 a = shape3 b → shape_of a = shape_of b.
Proof. intros H. by rewrite !shape_of_shape3, H. Qed.

Lemma has_shape_shape3 {A} (a : nd3 A) T Y X :
  has_shape a T Y X =
  bool_decide (length (shape3 a) = T)
  && forallb (λ lens, bool_decide (length lens = Y)
                      && forallb (λ n, bool_decide (n = X)) lens) (shape3 a).
Proof.
  unfold has_shape, shape3. rewrite length_map. f_equal.
  induction a as [|plane a IH]; simpl; [done|]. rewrite IH, length_map. do 2 f_equal.
  clear. induction plane as [|row plane IH]; simpl; [done|]. by rewrite IH.
Qed.

Lemma fits_shape3 (a b : list (list (list float))) cs dims :
  shape3 a = shape3 b → fits a cs dims = fits b cs dims.
Proof.
  intros H. unfold fits. rewrite (shape3_shape_of a b H).
  destruct dims as [|dt [|dy [|dx [|]]]]; try done.
  destruct (shape_of b) as [|T [|Y [|X [|]]]]; try done.
  by rewrite !has_shape_shape3, H.
Qed.

Lemma list_eqb_refl {A} (eqb : A → A → bool) l : (∀ x, eqb x x = true) → list_eqb eqb l l = true.
Proof. intros Hrefl. induction l as [|x l IH]; simpl; [done|]. by rewrite Hrefl, IH. Qed.

Lemma axis_equiv_refl ax : axis_equiv ax ax = true.
Proof.
  destruct ax as [ts|xs]; simpl; apply list_eqb_refl.
  - apply Z.eqb_refl.
  - intros x. unfold float_equiv, is_nan. by destruct (x =? x)%float.
Qed.

(** The coordinates of a variable of the dataset merge into the dataset's
    without a change. *)
Lemma merge_coords_filter (cs : gmap string axis) (P : string * axis → Prop)
    `{!∀ x, Decision (P x)} :
  merge_coords cs (filter P cs) = Ok cs.
Proof.
  unfold merge_coords.
  assert (forallb (λ '(c, ax), match cs !! c with
                               | Some ax' => axis_equiv ax' ax
                               | None => true
                               end) (map_to_list (filter P cs)) = true) as ->.
  { apply forallb_forall. intros [c ax] Hin%list_elem_of_In%elem_of_map_to_list.
    apply map_lookup_filter_Some in Hin as [-> _]. apply axis_equiv_refl. }
  f_equal. apply map_eq. intros c. rewrite lookup_union.
  destruct (cs !! c) as [ax|] eqn:Hc, (filter P cs !! c) as [ax'|] eqn:Hf; try done.
  apply map_lookup_filter_Some in Hf as [Hf _]. congruence.
Qed.

Lemma run_steps_preserves_shape steps target :
  Forall (preserves_shape target) steps →
  ∀ u v w ua va u' v' w',
    heap w !! u = Some ua → heap w !! v = Some va →
    Gapfiller.run_steps steps u v target w = Return (u', v') w' →
    ∃ ua' va',
      heap w' !! u' = Some ua' ∧ heap w' !! v' = Some va'
      ∧ shape3 ua' = shape3 ua ∧ shape3 va' = shape3 va.
Proof.
  induction 1 as [|[s|] steps Hs _ IH]; intros u v w ua va u' v' w' Hu Hv Hrun;
    simpl in Hrun.
  - unfold ret in Hrun. simplify_eq. by exists ua, va.
  - unfold bind in Hrun.
    destruct (step_process s (step_self s) u v target w) as [[u1 v1] w1|e w1] eqn:Hstep;
      [|done].
    destruct (Hs u v w ua va u1 v1 w1 Hu Hv Hstep) as (ua1 & va1 & Hu1 & Hv1 & Hsu & Hsv).
    destruct (IH _ _ _ _ _ _ _ _ Hu1 Hv1 Hrun) as (ua' & va' & ? & ? & ? & ?).
    exists ua', va'. split_and!; [done..|congruence|congruence].
  - done.
Qed.

(** The dimensions of a dataset, read off its coordinates and variables. *)
Lemma elem_of_ds_dims d x :
  x ∈ ds_dims d ↔
  (∃ c ax, coords d !! c = Some ax ∧ x = (c, axis_size ax))
  ∨ (∃ n v, data_vars d !! n = Some v ∧ x ∈ var_dim_sizes v).
Proof.
  unfold ds_dims. rewrite elem_of_app. change map with (@fmap list _).
  rewrite list_elem_of_fmap, list_elem_of_join. split.
  - intros [([c ax] & -> & Hin%elem_of_map_to_list)
           | (l & Hx & ([n v] & -> & Hin%elem_of_map_to_list)%list_elem_of_fmap)]; eauto.
  - intros [(c & ax & Hin & ->) | (n & v & Hin & Hx)].
    + left. exists (c, ax). by rewrite elem_of_map_to_list.
    + right. exists (var_dim_sizes v). split; [done|].
      apply list_elem_of_fmap. exists (n, v). by rewrite elem_of_map_to_list.
Qed.

Lemma lookup_replaced (dv : gmap string variable) ou ov n :
  <["V" := ov]> (<["U" := ou]> (foldr delete dv ["U"; "V"])) !! n
  = if decide (n = "V") then Some ov else if decide (n = "U") then Some ou else dv !! n.
Proof.
  simpl. destruct (decide (n = "V")) as [->|Hv]; [by rewrite lookup_insert_eq|].
  rewrite lookup_insert_ne by done.
  destruct (decide (n = "U")) as [->|Hu]; [by rewrite lookup_insert_eq|].
  rewrite lookup_insert_ne by done. by rewrite !lookup_delete_ne.
Qed.

(** ** Further properties of the pipeline *)

(** The arrays of the world are not touched by the loop: it writes to the
    two arrays it is given. *)
Lemma ref_loop_take E target lu lv refs invalid w n :
  lu ≠ lv → n ≤ lu → n ≤ lv →
  take n (heap (world_of (InterpolationStep.ref_loop E target lu lv invalid refs w)))
  = take n (heap w).
Proof.
  intros Hne Hlu Hlv. revert invalid w.
  induction refs as [|ref refs IH]; intros invalid w; simpl; [done|].
  unfold bind. rewrite (fill_pass_eq E target lu lv Hne).
  destruct (InterpolationStep.interp_values _ _ _ _) as [vals|e]; simpl; [|done].
  destruct (heap w !! lu) as [u|]; simpl; [|done].
  destruct (setitem3 u _ _) as [u'|e]; simpl; [|done].
  destruct (heap w !! lv) as [v|]; simpl; [|by rewrite take_insert_ge].
  destruct (setitem3 v _ _) as [v'|e]; simpl; [|by rewrite take_insert_ge].
  rewrite IH. simpl. by rewrite !take_insert_ge.
Qed.

Lemma interpolation_keeps_heap E self u v target w :
  take (length (heap w)) (heap (world_of (InterpolationStep.process E self u v target w)))
  = heap w.
Proof.
  rewrite process_eq.
  destruct (SurfaceGrid_init E target) as [tg|e]; simpl; [|by rewrite firstn_all].
  destruct (mapR _ _) as [loaded|e]; simpl; [|by rewrite firstn_all].
  destruct (InterpolationStep.do_validation _ _) as [[]|e]; simpl; [|by rewrite firstn_all].
  destruct (heap w !! u) as [ua|] eqn:Hu; simpl; [|by rewrite firstn_all].
  destruct ((heap w ++ [ua]) !! v) as [va|] eqn:Hv; simpl; [|by rewrite take_app_length].
  pose proof (ref_loop_take E tg (length (heap w)) (S (length (heap w))) loaded
                (generate_mask_invalid E ua)
                (World (heap w ++ [ua; va])
                   (log w ++ [LogTargetInvalid (count3 (generate_mask_invalid E ua))]))
                (length (heap w)) (Nat.neq_succ_diag_r _) (le_n _) (Nat.le_succ_diag_r _))
    as Htake.
  simpl in Htake. rewrite take_app_length in Htake.
  by destruct (InterpolationStep.ref_loop _ _ _ _ _ _ _).
Qed.

(** Whatever its outcome, [InterpolationStep.process] leaves every array
    of the world as it was: the input arrays and the target are never
    partially filled, the step works on copies. *)
Theorem process_works_on_copies E self u v target w :
  take (length (heap w)) (heap (world_of (InterpolationStep.process E self u v target w)))
  = heap w.
Proof. apply interpolation_keeps_heap. Qed.

Lemma run_steps_app steps1 steps2 u v target w :
  Gapfiller.run_steps (steps1 ++ steps2) u v target w
  = bind (Gapfiller.run_steps steps1 u v target)
         (λ '(u', v'), Gapfiller.run_steps steps2 u' v' target) w.
Proof.
  revert u v w. induction steps1 as [|[s|] steps1 IH]; intros u v w; simpl; [done| |done].
  unfold bind in *.
  destruct (step_process s (step_self s) u v target w) as [[u' v'] w'|e w']; [|done].
  apply IH.
Qed.

(** [Gapfiller.execute] has no handler around the steps: when the steps
    before a step return and that step raises, [execute] raises the same
    exception and leaves the world as the failing step left it.  The later
    steps are not run, no dataset is assembled and the completion is not
    logged, whatever the later steps and the rest of the target are. *)
Theorem failing_step_aborts_execute before s after target w var_u var_v u1 v1 w1 e w2 :
  data_vars target !! "U" = Some var_u →
  data_vars target !! "V" = Some var_v →
  Gapfiller.run_steps before (length (heap w)) (S (length (heap w))) target
    (World (heap w ++ [var_values var_u; var_values var_v]) (log w ++ [LogExecuting]))
  = Return (u1, v1) w1 →
  step_process s (step_self s) u1 v1 target w1 = Raise e w2 →
  Gapfiller.execute (Gapfiller.init (before ++ PyStep s :: after)) target w = Raise e w2.
Proof.
  intros HU HV Hbefore Hs.
  unfold Gapfiller.execute. unfold_M. unfold getitem. rewrite HU, HV. simpl.
  rewrite length_app, Nat.add_1_r, <-app_assoc. simpl.
  rewrite run_steps_app. unfold bind. rewrite Hbefore. simpl. unfold bind.
  by rewrite Hs.
Qed.

Lemma failing_step_aborts_execute_witness :
  Gapfiller.execute
    (Gapfiller.init
       ([PyStep (Step (InterpolationStep_GapfillStep E_spec)
                   (InterpolationStep.init (Some [RefGrid gappy_grid])))]
        ++ PyStep (Step (InterpolationStep_GapfillStep E_spec)
                     (InterpolationStep.init (Some [RefGrid late_grid])))
        :: [PyStep (Step (SmoothnStep_GapfillStep E_spec)
                      {| SmoothnStep.mask := Some land_grid |})]))
    target_ds (World [] [])
  = Raise OutOfDomain
      (World [target_u; target_v;
              [ [[0.75; 0.5]; [nan; nan]]; [[0.75; 0.5]; [nan; nan]] ];
              [ [[0.375; 0.5]; [nan; nan]]; [[0.375; 0.5]; [nan; nan]] ];
              [ [[0.75; 0.5]; [nan; nan]]; [[0.75; 0.5]; [nan; nan]] ];
              [ [[0.375; 0.5]; [nan; nan]]; [[0.375; 0.5]; [nan; nan]] ]]%float
             [LogExecuting; LogTargetInvalid 6; LogAttempt 6; LogAfterRef 4 2;
              LogInterpolated 4; LogTargetInvalid 4; LogAttempt 4]).
Proof.
  apply (failing_step_aborts_execute _ _ _ target_ds (World [] []) target_var_u target_var_v
           2 3
           (World [target_u; target_v;
                   [ [[0.75; 0.5]; [nan; nan]]; [[0.75; 0.5]; [nan; nan]] ];
                   [ [[0.375; 0.5]; [nan; nan]]; [[0.375; 0.5]; [nan; nan]] ]]%float
                  [LogExecuting; LogTargetInvalid 6; LogAttempt 6; LogAfterRef 4 2;
                   LogInterpolated 4])).
  - vm_compute; reflexivity.
  - vm_compute; reflexivity.
  - vm_compute; reflexivity.
  - vm_compute; reflexivity.
Defined.

(** A pipeline without steps returns the input dataset as it is. *)
Theorem execute_no_steps target w var_u var_v :
  exposes target "U" var_u → exposes target "V" var_v →
  Gapfiller.execute (Gapfiller.init []) target w
  = Return target
      (World (heap w ++ [var_values var_u; var_values var_v])
             (log w ++ [LogExecuting; LogCompleted])).
Proof.
  intros [HU HfitU] [HV HfitV].
  unfold Gapfiller.execute. unfold_M. unfold getitem. rewrite HU, HV. simpl.
  rewrite <-app_assoc. simpl.
  rewrite (list_lookup_middle (heap w) [var_values var_v] (var_values var_u) _ eq_refl). simpl.
  unfold conv_to_dataarray, new_DataArray. simpl. rewrite HfitU. simpl.
  replace ((heap w ++ [var_values var_u; var_values var_v]) !! length (heap w ++ [var_values var_u]))
    with (Some (var_values var_v)).
  2: { rewrite length_app. simpl. rewrite lookup_app_r by lia.
       by replace (_ - _) with 1 by lia. }
  simpl. rewrite HfitV. simpl.
  unfold drop_vars. simpl. rewrite HU, HV. simpl.
  unfold assign1. simpl. rewrite merge_coords_filter. simpl.
  rewrite merge_coords_filter. simpl. rewrite <-app_assoc. simpl.
  do 2 f_equal. destruct target as [dv cs ats]. simpl in *. f_equal.
  apply map_eq. intros n.
  pose proof (lookup_replaced dv
                {| var_dims := var_dims var_u; var_values := var_values var_u;
                   var_attrs := var_attrs var_u |}
                {| var_dims := var_dims var_v; var_values := var_values var_v;
                   var_attrs := var_attrs var_v |} n) as Hlookup.
  simpl in Hlookup. rewrite Hlookup.
  destruct (decide (n = "V")) as [->|]; [by destruct var_v; rewrite HV|].
  destruct (decide (n = "U")) as [->|]; [by destruct var_u; rewrite HU|]. done.
Qed.

Lemma execute_no_steps_witness :
  Gapfiller.execute (Gapfiller.init []) target_ds (World [] [])
  = Return target_ds (World [target_u; target_v] [LogExecuting; LogCompleted]).
Proof.
  apply (execute_no_steps target_ds (World [] []) target_var_u target_var_v).
  - split; vm_compute; reflexivity.
  - split; vm_compute; reflexivity.
Defined.

(** The example of the specification, with values that binary64 holds
    exactly: a 2 x 2 x 2 target with one NaN cell, one valid cell and two
    zero cells per time step, and one reference that is uniformly
    (0.25, 0.125).  Every invalid cell receives (0.25, 0.125), the valid
    cell keeps (0.5, 0.5), and the counts go from six to zero. *)
Example uniform_reference_fills_every_gap :
  InterpolationStep.process E_spec (InterpolationStep.init (Some [RefGrid ref_grid]))
    0 1 target_ds w0
  = Return (2, 3)
      (World [target_u; target_v;
              [ [[0.25; 0.5]; [0.25; 0.25]]; [[0.25; 0.5]; [0.25; 0.25]] ];
              [ [[0.125; 0.5]; [0.125; 0.125]]; [[0.125; 0.5]; [0.125; 0.125]] ]]%float
             [LogTargetInvalid 6; LogAttempt 6; LogAfterRef 0 6; LogInterpolated 0]).
Proof. vm_compute. reflexivity. Qed.

(** ** The interpolation loop, cell by cell *)

Lemma cellwise_stable gmi inv : cellwise gmi inv → mask_stable gmi.
Proof.
  intros Hc u u' Hsh Hkeep p. rewrite !Hc. apply (map3_mask_stable inv u u' Hsh).
  intros q. rewrite <-Hc. apply Hkeep.
Qed.

Lemma cellwise_marked gmi inv a p :
  cellwise gmi inv → marked (gmi a) p ↔ ∃ x, get3 a p = Some x ∧ inv x = true.
Proof.
  intros Hc. unfold marked. rewrite Hc, get3_map3.
  destruct (get3 a p) as [x|]; simpl.
  - split; [intros [= H]; eauto | intros (y & [= <-] & ->); done].
  - split; [done | intros (y & [=] & _)].
Qed.

(** A valid cell is left alone by every reference. *)
Lemma fill_cell_valid inv target refs p x :
  inv x.1 = false → fill_cell inv target refs p x = Ok x.
Proof. intros H. destruct refs; simpl; [done|]. by rewrite H. Qed.

(** The value that the loop leaves in a cell is a fixed point of the loop. *)
Lemma fill_cell_idem inv target refs p x y :
  fill_cell inv target refs p x = Ok y → fill_cell inv target refs p y = Ok y.
Proof.
  destruct refs as [|ref rest]; simpl; [done|].
  destruct (inv x.1) eqn:Hx.
  - intros H. destruct (inv y.1) eqn:Hy; [done|].
    destruct rest; done.
  - intros [= <-]. by rewrite Hx.
Qed.

Lemma interped_get_interped k target ref ps p :
  ps !! k = Some p → get_interped k target ref ps = interped target ref p.
Proof. apply get_interped_eq. Qed.

Section cells.
Context (E : externals) (inv : float → bool) (target : SurfaceGrid) (lu lv : loc).
Context (Hne : lu ≠ lv) (Hcell : cellwise (generate_mask_invalid E) inv).

(** When the loop returns, every cell holds what [fill_cell] gives for
    the values it held before. *)
Lemma ref_loop_cells refs w u v invalid' w' :
  heap w !! lu = Some u → heap w !! lv = Some v →
  InterpolationStep.ref_loop E target lu lv (generate_mask_invalid E u) refs w
    = Return invalid' w' →
  ∃ u' v',
    heap w' !! lu = Some u' ∧ heap w' !! lv = Some v'
    ∧ ∀ p a b, get3 u p = Some a → get3 v p = Some b →
        ∃ a' b', fill_cell inv target refs p (a, b) = Ok (a', b')
                 ∧ get3 u' p = Some a' ∧ get3 v' p = Some b'.
Proof.
  revert w u v. induction refs as [|ref refs IH]; intros w u v Hu Hv Hr; simpl in Hr.
  - unfold ret in Hr. simplify_eq. exists u, v. split_and!; [done..|].
    intros p a b Ha Hb. exists a, b. done.
  - unfold bind in Hr.
    destruct (InterpolationStep.fill_pass E target lu lv (generate_mask_invalid E u) ref w)
      as [invalid1 w1|e w1] eqn:Hpass; [|done].
    destruct (fill_pass_spec E target lu lv (generate_mask_invalid E u) ref w Hne)
      as [(e & hp & Hp) | (vals & u0 & v0 & u1 & v1 & _ & Hu0 & Hv0 & Hsu & Hsv & Hp)];
      rewrite Hp in Hpass; [done|]. injection Hpass as <- <-.
    assert (u0 = u) as -> by congruence. assert (v0 = v) as -> by congruence.
    assert (heap (passed E lu lv (generate_mask_invalid E u) u1 v1 w) !! lu = Some u1) as Hu1.
    { simpl. rewrite list_lookup_insert_ne by done.
      apply list_lookup_insert_eq. eauto using lookup_lt_Some. }
    assert (heap (passed E lu lv (generate_mask_invalid E u) u1 v1 w) !! lv = Some v1) as Hv1.
    { simpl. apply list_lookup_insert_eq. rewrite length_insert.
      eauto using lookup_lt_Some. }
    destruct (IH _ _ _ Hu1 Hv1 Hr) as (u' & v' & Hu' & Hv' & Hcells).
    exists u', v'. split_and!; [done..|].
    intros p a b Ha Hb. simpl. destruct (inv a) eqn:Hinv; simpl.
    + assert (p ∈ where3 (generate_mask_invalid E u)) as Hin.
      { apply elem_of_where3, (cellwise_marked _ inv); eauto. }
      destruct (fill_pass_at E target lu lv Hne _ _ _ _ _ p Hp Hin)
        as (rv & u1' & v1' & Hrv & Hu1' & Hv1' & Hgu & Hgv).
      assert (u1' = u1) as -> by congruence. assert (v1' = v1) as -> by congruence.
      unfold interped. rewrite Hrv. simpl.
      destruct (Hcells p _ _ Hgu Hgv) as (a' & b' & Hfill & Ha' & Hb').
      exists a', b'. split_and!; [|done..].
      rewrite <-Hfill. by destruct (rejected rv.1 rv.2), rv as [[??][??]].
    + assert (p ∉ where3 (generate_mask_invalid E u)) as Hout.
      { rewrite elem_of_where3, (cellwise_marked _ inv) by done.
        intros (x & Hx & Hix). congruence. }
      assert (get3 u1 p = Some a) as Ha1 by (by rewrite (setitem3_other _ _ _ _ _ Hsu Hout)).
      assert (get3 v1 p = Some b) as Hb1 by (by rewrite (setitem3_other _ _ _ _ _ Hsv Hout)).
      destruct (Hcells p _ _ Ha1 Hb1) as (a' & b' & Hfill & Ha' & Hb').
      rewrite fill_cell_valid in Hfill by done. simplify_eq. eauto.
Qed.

End cells.

(** ** When the interpolation loop returns *)

Lemma setitem3_Ok a ps vals :
  (∀ p, p ∈ ps → is_Some (get3 a p)) → length vals = length ps →
  ∃ a', setitem3 a ps vals = Ok a'.
Proof.
  revert a vals. induction ps as [|p ps IH]; intros a [|x vals] Hin Hlen; simplify_eq/=.
  - by eexists.
  - destruct (set3 a p x) as [a1|] eqn:Hset.
    + apply IH; [|done]. intros q Hq.
      apply (shape3_get3 a1 a q); [by eapply set3_shape|]. apply Hin. by right.
    + assert (is_Some (set3 a p x)) as [? ?]; [|congruence].
      apply set3_is_Some, Hin. left.
Qed.

Lemma interp_values_total target ref ps :
  (∀ p, p ∈ ps → ∃ y, interped target ref p = Ok y) →
  ∃ vals, InterpolationStep.interp_values target ref ps (length ps) = Ok vals.
Proof.
  intros H. apply mapR_Ok_total. intros k Hk. apply elem_of_seq in Hk as [_ Hk]. simpl in Hk.
  destruct (lookup_lt_is_Some_2 ps k Hk) as [p Hp].
  rewrite (interped_get_interped _ _ _ _ _ Hp). apply H. by eapply list_elem_of_lookup_2.
Qed.

Section total.
Context (E : externals) (inv : float → bool) (target : SurfaceGrid) (lu lv : loc).
Context (Hne : lu ≠ lv) (Hcell : cellwise (generate_mask_invalid E) inv).

(** The loop returns when, for every cell, the lookups that the cell
    needs succeed. *)
Lemma ref_loop_total refs w u v :
  heap w !! lu = Some u → heap w !! lv = Some v → shape3 v = shape3 u →
  (∀ p a b, get3 u p = Some a → get3 v p = Some b →
     ∃ y, fill_cell inv target refs p (a, b) = Ok y) →
  ∃ invalid' w',
    InterpolationStep.ref_loop E target lu lv (generate_mask_invalid E u) refs w
      = Return invalid' w'.
Proof.
  revert w u v. induction refs as [|ref refs IH]; intros w u v Hu Hv Hsh Hfill; simpl.
  - by eexists _, _.
  - unfold bind. rewrite (fill_pass_eq E target lu lv Hne), Hu, Hv.
    set (invalid := generate_mask_invalid E u).
    assert (∀ p, p ∈ where3 invalid →
              ∃ a b, get3 u p = Some a ∧ get3 v p = Some b ∧ inv a = true) as Hmarked.
    { intros p Hp. apply elem_of_where3, (cellwise_marked _ inv) in Hp as (a & Ha & Hia);
        [|done].
      destruct (proj2 (shape3_get3 v u p Hsh)) as [b Hb]; [eauto|]. eauto. }
    destruct (interp_values_total target ref (where3 invalid)) as [vals Hvals].
    { intros p Hp. destruct (Hmarked p Hp) as (a & b & Ha & Hb & Hia).
      destruct (Hfill p a b Ha Hb) as [y Hy]. simpl in Hy. rewrite Hia in Hy.
      destruct (interped target ref p) as [z|]; [by eexists | done]. }
    rewrite length_where3 in Hvals. rewrite Hvals.
    pose proof (interp_values_Ok _ _ _ _ _ Hvals) as [Hlen Hget].
    destruct (setitem3_Ok u (where3 invalid) (vals.*1)) as [u1 Hsu].
    { intros p Hp. destruct (Hmarked p Hp) as (a & b & Ha & Hb & Hia). eauto. }
    { by rewrite length_fmap, length_where3. }
    destruct (setitem3_Ok v (where3 invalid) (vals.*2)) as [v1 Hsv].
    { intros p Hp. destruct (Hmarked p Hp) as (a & b & Ha & Hb & Hia). eauto. }
    { by rewrite length_fmap, length_where3. }
    rewrite Hsu, Hsv.
    apply (IH _ u1 v1).
    + simpl. rewrite list_lookup_insert_ne by done.
      apply list_lookup_insert_eq. eauto using lookup_lt_Some.
    + simpl. apply list_lookup_insert_eq. rewrite length_insert. eauto using lookup_lt_Some.
    + rewrite (setitem3_shape _ _ _ _ Hsu), (setitem3_shape _ _ _ _ Hsv). done.
    + intros p a1 b1 Ha1 Hb1.
      destruct (decide (p ∈ where3 invalid)) as [Hp|Hp].
      * destruct (Hmarked p Hp) as (a & b & Ha & Hb & Hia).
        destruct (Hfill p a b Ha Hb) as [y Hy]. simpl in Hy. rewrite Hia in Hy.
        apply list_elem_of_lookup in Hp as [k Hk].
        destruct (Hget k) as (z & Hz & Hgz).
        { rewrite <-length_where3. eauto using lookup_lt_Some. }
        rewrite (interped_get_interped _ _ _ _ _ Hk) in Hgz. rewrite Hgz in Hy. simpl in Hy.
        assert (get3 u1 p = Some z.1) as Hz1.
        { eapply setitem3_at; [done | apply NoDup_where3 | done |].
          by rewrite list_lookup_fmap, Hz. }
        assert (get3 v1 p = Some z.2) as Hz2.
        { eapply setitem3_at; [done | apply NoDup_where3 | done |].
          by rewrite list_lookup_fmap, Hz. }
        exists y. destruct z as [z1 z2]. simpl in *. congruence.
      * rewrite (setitem3_other _ _ _ _ _ Hsu Hp) in Ha1.
        exists (a1, b1). apply fill_cell_valid. simpl.
        destruct (inv a1) eqn:Hia; [|done]. exfalso. apply Hp.
        apply elem_of_where3, (cellwise_marked _ inv); eauto.
Qed.

End total.

(** ** The step, cell by cell *)

(** What a returning run of [process] went through. *)
Lemma process_Return_inv E self u v target w lu lv w' ua va :
  heap w !! u = Some ua → heap w !! v = Some va →
  InterpolationStep.process E self u v target w = Return (lu, lv) w' →
  ∃ tg loaded invalid' w1,
    SurfaceGrid_init E target = Ok tg
    ∧ mapR (InterpolationStep.load_reference E tg) (InterpolationStep.references self)
      = Ok loaded
    ∧ InterpolationStep.do_validation tg loaded = Ok ()
    ∧ lu = length (heap w) ∧ lv = S (length (heap w))
    ∧ InterpolationStep.ref_loop E tg lu lv (generate_mask_invalid E ua) loaded
        (World (heap w ++ [ua; va])
               (log w ++ [LogTargetInvalid (count3 (generate_mask_invalid E ua))]))
      = Return invalid' w1
    ∧ w' = World (heap w1) (log w1 ++ [LogInterpolated (count3 invalid')]).
Proof.
  intros Hu Hv. rewrite process_eq, Hu, (lookup_app_l_Some _ _ _ _ Hv).
  destruct (SurfaceGrid_init E target) as [tg|e] eqn:Htg; [|done].
  destruct (mapR _ _) as [loaded|e] eqn:Hload; [|done].
  destruct (InterpolationStep.do_validation _ _) as [[]|e] eqn:Hval; [|done]. simpl.
  destruct (InterpolationStep.ref_loop _ _ _ _ _ _ _) as [invalid' w1|e w1] eqn:Hloop; [|done].
  intros [= <- <- <-]. eexists tg, loaded, invalid', w1. split_and!; done.
Qed.

(** The two arrays that [process] starts the loop on. *)
Lemma lookup_copies (hp : list arr3) (ua va : arr3) :
  (hp ++ [ua; va]) !! length hp = Some ua ∧ (hp ++ [ua; va]) !! S (length hp) = Some va.
Proof.
  split.
  - by rewrite (list_lookup_middle hp [va] ua _ eq_refl).
  - rewrite lookup_app_r by lia. by replace (S (length hp) - length hp) with 1 by lia.
Qed.

(** The loop keeps the shapes of the two arrays, whatever the mask helper. *)
Lemma ref_loop_shape E target lu lv refs invalid w u v invalid' w' :
  lu ≠ lv → heap w !! lu = Some u → heap w !! lv = Some v →
  InterpolationStep.ref_loop E target lu lv invalid refs w = Return invalid' w' →
  ∃ u' v', heap w' !! lu = Some u' ∧ heap w' !! lv = Some v'
           ∧ shape3 u' = shape3 u ∧ shape3 v' = shape3 v.
Proof.
  intros Hne. revert invalid w u v.
  induction refs as [|ref refs IH]; intros invalid w u v Hu Hv Hr; simpl in Hr.
  - unfold ret in Hr. simplify_eq. by exists u, v.
  - unfold bind in Hr.
    destruct (fill_pass_spec E target lu lv invalid ref w Hne)
      as [(e & hp & Hp) | (vals & u0 & v0 & u1 & v1 & _ & Hu0 & Hv0 & Hsu & Hsv & Hp)];
      rewrite Hp in Hr; [done|].
    assert (u0 = u) as -> by congruence. assert (v0 = v) as -> by congruence.
    assert (heap (passed E lu lv invalid u1 v1 w) !! lu = Some u1) as Hu1.
    { simpl. rewrite list_lookup_insert_ne by done.
      apply list_lookup_insert_eq. eauto using lookup_lt_Some. }
    assert (heap (passed E lu lv invalid u1 v1 w) !! lv = Some v1) as Hv1.
    { simpl. apply list_lookup_insert_eq. rewrite length_insert.
      eauto using lookup_lt_Some. }
    destruct (IH _ _ _ _ Hu1 Hv1 Hr) as (u' & v' & Hu' & Hv' & Hshu & Hshv).
    exists u', v'. split_and!; [done..| |].
    + rewrite Hshu. by eapply setitem3_shape.
    + rewrite Hshv. by eapply setitem3_shape.
Qed.

Lemma interpolation_shape E self u v target w lu lv w' ua va :
  heap w !! u = Some ua → heap w !! v = Some va →
  InterpolationStep.process E self u v target w = Return (lu, lv) w' →
  ∃ u' v', heap w' !! lu = Some u' ∧ heap w' !! lv = Some v'
           ∧ shape3 u' = shape3 ua ∧ shape3 v' = shape3 va.
Proof.
  intros Hu Hv Hr.
  destruct (process_Return_inv _ _ _ _ _ _ _ _ _ _ _ Hu Hv Hr)
    as (tg & loaded & invalid' & w1 & _ & _ & _ & -> & -> & Hloop & ->).
  destruct (lookup_copies (heap w) ua va) as [Hcu Hcv].
  eapply ref_loop_shape in Hloop; [|lia|done..]. done.
Qed.

(** When [InterpolationStep.process] returns, the two arrays it returns
    have the shapes of the arrays it was given, whatever the references
    and the mask helper are. *)
Theorem interpolation_preserves_shape E self u v target w lu lv w' ua va :
  heap w !! u = Some ua → heap w !! v = Some va →
  InterpolationStep.process E self u v target w = Return (lu, lv) w' →
  ∃ u' v', heap w' !! lu = Some u' ∧ heap w' !! lv = Some v'
           ∧ shape3 u' = shape3 ua ∧ shape3 v' = shape3 va.
Proof. apply interpolation_shape. Qed.

Lemma interpolation_preserves_shape_witness :
  InterpolationStep.process E_spec two_refs 0 1 target_ds w0 = Return (2, 3) w_filled
  ∧ ∃ u' v', heap w_filled !! 2 = Some u' ∧ heap w_filled !! 3 = Some v'
             ∧ shape3 u' = shape3 target_u ∧ shape3 v' = shape3 target_v.
Proof.
  assert (InterpolationStep.process E_spec two_refs 0 1 target_ds w0 = Return (2, 3) w_filled)
    as Hrun by (vm_compute; reflexivity).
  split; [exact Hrun|].
  exact (interpolation_preserves_shape E_spec two_refs 0 1 target_ds w0 2 3 w_filled
           target_u target_v eq_refl eq_refl Hrun).
Defined.

(** With a mask helper that looks at one value at a time, a returning
    [InterpolationStep.process] is a cell-wise operation: the values of a
    cell in the returned arrays are those that [fill_cell] computes from
    the cell's own input values and the loaded references, in list order. *)
Theorem interpolation_is_cellwise E inv self u v target w lu lv w' ua va :
  cellwise (generate_mask_invalid E) inv →
  heap w !! u = Some ua → heap w !! v = Some va →
  InterpolationStep.process E self u v target w = Return (lu, lv) w' →
  ∃ tg loaded u' v',
    SurfaceGrid_init E target = Ok tg
    ∧ mapR (InterpolationStep.load_reference E tg) (InterpolationStep.references self)
      = Ok loaded
    ∧ heap w' !! lu = Some u' ∧ heap w' !! lv = Some v'
    ∧ ∀ p a b, get3 ua p = Some a → get3 va p = Some b →
        ∃ a' b', fill_cell inv tg loaded p (a, b) = Ok (a', b')
                 ∧ get3 u' p = Some a' ∧ get3 v' p = Some b'.
Proof.
  intros Hcell Hu Hv Hr.
  destruct (process_Return_inv _ _ _ _ _ _ _ _ _ _ _ Hu Hv Hr)
    as (tg & loaded & invalid' & w1 & Htg & Hload & _ & -> & -> & Hloop & ->).
  destruct (lookup_copies (heap w) ua va) as [Hcu Hcv].
  eapply (ref_loop_cells E inv) in Hloop as (u' & v' & Hu' & Hv' & Hcells);
    [|lia|done..].
  exists tg, loaded, u', v'. done.
Qed.

Lemma interpolation_is_cellwise_witness :
  cellwise (generate_mask_invalid E_spec) invalid_value
  ∧ InterpolationStep.process E_spec two_refs 0 1 target_ds w0 = Return (2, 3) w_filled
  ∧ fill_cell invalid_value target_grid [gappy_grid; ref_grid] (0, 1, 0) (0, 0)%float
    = Ok (0.25, 0.125)%float
  ∧ ∃ tg loaded u' v',
      SurfaceGrid_init E_spec target_ds = Ok tg
      ∧ mapR (InterpolationStep.load_reference E_spec tg) (InterpolationStep.references two_refs)
        = Ok loaded
      ∧ heap w_filled !! 2 = Some u' ∧ heap w_filled !! 3 = Some v'
      ∧ ∀ p a b, get3 target_u p = Some a → get3 target_v p = Some b →
          ∃ a' b', fill_cell invalid_value tg loaded p (a, b) = Ok (a', b')
                   ∧ get3 u' p = Some a' ∧ get3 v' p = Some b'.
Proof.
  assert (InterpolationStep.process E_spec two_refs 0 1 target_ds w0 = Return (2, 3) w_filled)
    as Hrun by (vm_compute; reflexivity).
  split; [intros a; reflexivity|]. split; [exact Hrun|]. split; [vm_compute; reflexivity|].
  exact (interpolation_is_cellwise E_spec invalid_value two_refs 0 1 target_ds w0 2 3 w_filled
           target_u target_v (λ a, eq_refl) eq_refl eq_refl Hrun).
Defined.

(** A cell that is invalid receives the value of the first reference, in
    list order, that gives it a valid U. *)
Lemma fill_cell_first_valid inv tg pre r post p x y z :
  inv x.1 = true →
  Forall (λ ref, ∀ y', interped tg ref p = Ok y' → inv y'.1 = true) pre →
  interped tg r p = Ok y → inv y.1 = false →
  fill_cell inv tg (pre ++ r :: post) p x = Ok z → z = y.
Proof.
  intros Hx Hpre Hr Hy. revert x Hx.
  induction Hpre as [|ref pre Href Hpre IH]; intros x Hx; simpl; rewrite Hx.
  - rewrite Hr. simpl. rewrite fill_cell_valid by done. congruence.
  - destruct (interped tg ref p) as [y'|] eqn:Hy'; simpl; [|done]. eauto.
Qed.

(** The order of the references is an order of priority: with a mask
    helper that looks at one value at a time, an invalid cell of the target
    ends with the value of the first reference of the list that gives it a
    valid U, whatever the later references hold. *)
Theorem first_valid_reference_wins E inv self u v target w lu lv w' ua va
    tg pre r post p a b y :
  cellwise (generate_mask_invalid E) inv →
  heap w !! u = Some ua → heap w !! v = Some va →
  InterpolationStep.process E self u v target w = Return (lu, lv) w' →
  SurfaceGrid_init E target = Ok tg →
  mapR (InterpolationStep.load_reference E tg) (InterpolationStep.references self)
    = Ok (pre ++ r :: post) →
  get3 ua p = Some a → get3 va p = Some b → inv a = true →
  Forall (λ ref, ∀ y', interped tg ref p = Ok y' → inv y'.1 = true) pre →
  interped tg r p = Ok y → inv y.1 = false →
  ∃ u' v', heap w' !! lu = Some u' ∧ heap w' !! lv = Some v'
           ∧ get3 u' p = Some y.1 ∧ get3 v' p = Some y.2.
Proof.
  intros Hcell Hu Hv Hrun Htg Hload Ha Hb Hia Hpre Hr Hy.
  destruct (process_Return_inv _ _ _ _ _ _ _ _ _ _ _ Hu Hv Hrun)
    as (tg' & loaded & invalid' & w1 & Htg' & Hload' & _ & -> & -> & Hloop & ->).
  assert (tg' = tg) as -> by congruence.
  assert (loaded = pre ++ r :: post) as -> by congruence.
  destruct (lookup_copies (heap w) ua va) as [Hcu Hcv].
  eapply (ref_loop_cells E inv) in Hloop as (u' & v' & Hu' & Hv' & Hcells);
    [|lia|done..].
  destruct (Hcells p a b Ha Hb) as (a' & b' & Hfill & Ha' & Hb').
  apply (fill_cell_first_valid inv tg pre r post p (a, b) y) in Hfill; [|done..].
  subst y. exists u', v'. done.
Qed.

Lemma first_valid_reference_wins_witness :
  cellwise (generate_mask_invalid E_spec) invalid_value
  ∧ InterpolationStep.process E_spec two_refs 0 1 target_ds w0 = Return (2, 3) w_filled
  ∧ interped target_grid gappy_grid (0, 1, 0) = Ok (nan, nan)
  ∧ interped target_grid ref_grid (0, 1, 0) = Ok (0.25, 0.125)%float
  ∧ ∃ u' v', heap w_filled !! 2 = Some u' ∧ heap w_filled !! 3 = Some v'
             ∧ get3 u' (0, 1, 0) = Some (0.25, 0.125)%float.1
             ∧ get3 v' (0, 1, 0) = Some (0.25, 0.125)%float.2.
Proof.
  assert (InterpolationStep.process E_spec two_refs 0 1 target_ds w0 = Return (2, 3) w_filled)
    as Hrun by (vm_compute; reflexivity).
  assert (interped target_grid gappy_grid (0, 1, 0) = Ok (nan, nan)) as Hgappy
    by (vm_compute; reflexivity).
  split; [intros a; reflexivity|]. split; [exact Hrun|]. split; [exact Hgappy|].
  split; [vm_compute; reflexivity|].
  apply (first_valid_reference_wins E_spec invalid_value two_refs 0 1 target_ds w0 2 3 w_filled
           target_u target_v target_grid [gappy_grid] ref_grid [] (0, 1, 0) 0%float 0%float
           (0.25, 0.125)%float (λ a, eq_refl) eq_refl eq_refl Hrun).
  - vm_compute; reflexivity.
  - vm_compute; reflexivity.
  - vm_compute; reflexivity.
  - vm_compute; reflexivity.
  - vm_compute; reflexivity.
  - constructor; [|constructor]. intros y' Hy'. rewrite Hgappy in Hy'.
    injection Hy' as <-. vm_compute; reflexivity.
  - vm_compute; reflexivity.
  - vm_compute; reflexivity.
Defined.

(** [process] returns when the loop does. *)
Lemma process_Return_intro E self u v target w ua va tg loaded invalid' w1 :
  heap w !! u = Some ua → heap w !! v = Some va →
  SurfaceGrid_init E target = Ok tg →
  mapR (InterpolationStep.load_reference E tg) (InterpolationStep.references self)
    = Ok loaded →
  InterpolationStep.do_validation tg loaded = Ok () →
  InterpolationStep.ref_loop E tg (length (heap w)) (S (length (heap w)))
      (generate_mask_invalid E ua) loaded
      (World (heap w ++ [ua; va])
             (log w ++ [LogTargetInvalid (count3 (generate_mask_invalid E ua))]))
    = Return invalid' w1 →
  InterpolationStep.process E self u v target w
  = Return (length (heap w), S (length (heap w)))
      (World (heap w1) (log w1 ++ [LogInterpolated (count3 invalid')])).
Proof.
  intros Hu Hv Htg Hload Hval Hloop.
  rewrite process_eq, Htg, Hload, Hval, Hu, (lookup_app_l_Some _ _ _ _ Hv). simpl.
  by rewrite Hloop.
Qed.

Lemma interpolation_returns_aux E inv self u v target w ua va tg loaded :
  cellwise (generate_mask_invalid E) inv →
  heap w !! u = Some ua → heap w !! v = Some va → shape3 va = shape3 ua →
  SurfaceGrid_init E target = Ok tg →
  mapR (InterpolationStep.load_reference E tg) (InterpolationStep.references self)
    = Ok loaded →
  InterpolationStep.do_validation tg loaded = Ok () →
  (∀ p a b, get3 ua p = Some a → get3 va p = Some b →
     ∃ y, fill_cell inv tg loaded p (a, b) = Ok y) →
  ∃ w' u' v',
    InterpolationStep.process E self u v target w
    = Return (length (heap w), S (length (heap w))) w'
    ∧ heap w' !! length (heap w) = Some u' ∧ heap w' !! S (length (heap w)) = Some v'
    ∧ shape3 u' = shape3 ua ∧ shape3 v' = shape3 va
    ∧ ∀ p a b, get3 ua p = Some a → get3 va p = Some b →
        ∃ a' b', fill_cell inv tg loaded p (a, b) = Ok (a', b')
                 ∧ get3 u' p = Some a' ∧ get3 v' p = Some b'.
Proof.
  intros Hcell Hu Hv Hsh Htg Hload Hval Hfill.
  destruct (lookup_copies (heap w) ua va) as [Hcu Hcv].
  destruct (ref_loop_total E inv tg (length (heap w)) (S (length (heap w)))
              (Nat.neq_succ_diag_r _) Hcell loaded
              (World (heap w ++ [ua; va])
                 (log w ++ [LogTargetInvalid (count3 (generate_mask_invalid E ua))]))
              ua va Hcu Hcv Hsh Hfill) as (invalid' & w1 & Hloop).
  pose proof (process_Return_intro _ _ _ _ _ _ _ _ _ _ _ _ Hu Hv Htg Hload Hval Hloop) as Hrun.
  pose proof Hloop as Hloop'.
  eapply ref_loop_shape in Hloop' as (u1 & v1 & Hu1 & Hv1 & Hshu & Hshv); [|lia|done..].
  eapply (ref_loop_cells E inv) in Hloop as (u' & v' & Hu' & Hv' & Hcells); [|lia|done..].
  assert (u1 = u') as -> by congruence. assert (v1 = v') as -> by congruence.
  eexists _, u', v'. split; [exact Hrun|]. done.
Qed.

(** With a mask helper that looks at one value at a time,
    [InterpolationStep.process] returns whenever the grid of the target is
    built, the references are loaded and validated, U and V have one shape
    and, for every cell, the lookups that the cell needs succeed (those in
    the references up to the first that gives a valid U); the cells of the
    returned arrays then hold what [fill_cell] gives. *)
Theorem interpolation_returns E inv self u v target w ua va tg loaded :
  cellwise (generate_mask_invalid E) inv →
  heap w !! u = Some ua → heap w !! v = Some va → shape3 va = shape3 ua →
  SurfaceGrid_init E target = Ok tg →
  mapR (InterpolationStep.load_reference E tg) (InterpolationStep.references self)
    = Ok loaded →
  InterpolationStep.do_validation tg loaded = Ok () →
  (∀ p a b, get3 ua p = Some a → get3 va p = Some b →
     ∃ y, fill_cell inv tg loaded p (a, b) = Ok y) →
  ∃ w' u' v',
    InterpolationStep.process E self u v target w
    = Return (length (heap w), S (length (heap w))) w'
    ∧ heap w' !! length (heap w) = Some u' ∧ heap w' !! S (length (heap w)) = Some v'
    ∧ ∀ p a b, get3 ua p = Some a → get3 va p = Some b →
        ∃ a' b', fill_cell inv tg loaded p (a, b) = Ok (a', b')
                 ∧ get3 u' p = Some a' ∧ get3 v' p = Some b'.
Proof.
  intros Hcell Hu Hv Hsh Htg Hload Hval Hfill.
  destruct (interpolation_returns_aux E inv self u v target w ua va tg loaded
              Hcell Hu Hv Hsh Htg Hload Hval Hfill)
    as (w' & u' & v' & Hrun & Hu' & Hv' & _ & _ & Hcells).
  by exists w', u', v'.
Qed.

Lemma interpolation_returns_witness :
  cellwise (generate_mask_invalid E_spec) invalid_value
  ∧ shape3 target_v = shape3 target_u
  ∧ InterpolationStep.do_validation target_grid [gappy_grid; ref_grid] = Ok ()
  ∧ ∃ w' u' v',
      InterpolationStep.process E_spec two_refs 0 1 target_ds w0
      = Return (length (heap w0), S (length (heap w0))) w'
      ∧ heap w' !! length (heap w0) = Some u' ∧ heap w' !! S (length (heap w0)) = Some v'
      ∧ ∀ p a b, get3 target_u p = Some a → get3 target_v p = Some b →
          ∃ a' b', fill_cell invalid_value target_grid [gappy_grid; ref_grid] p (a, b)
                   = Ok (a', b')
                   ∧ get3 u' p = Some a' ∧ get3 v' p = Some b'.
Proof.
  split; [intros a; reflexivity|]. split; [reflexivity|]. split; [vm_compute; reflexivity|].
  apply (interpolation_returns E_spec invalid_value two_refs 0 1 target_ds w0
           target_u target_v target_grid [gappy_grid; ref_grid] (λ a, eq_refl)).
  - reflexivity.
  - reflexivity.
  - reflexivity.
  - vm_compute; reflexivity.
  - vm_compute; reflexivity.
  - vm_compute; reflexivity.
  - intros [[t i] j] a b Ha Hb.
    destruct t as [|[|t]]; [| |done];
      (destruct i as [|[|i]]; [| |done]);
      (destruct j as [|[|j]]; [| |done]);
      vm_compute in Ha, Hb; injection Ha as <-; injection Hb as <-;
      eexists; vm_compute; reflexivity.
Defined.

(** Two arrays of one shape that hold the same values are the same array. *)
Lemma nd3_ext {A} (a b : nd3 A) :
  shape3 a = shape3 b → (∀ p, get3 a p = get3 b p) → a = b.
Proof.
  intros Hsh Hget. apply list_eq. intros t.
  assert (shape3 a !! t = shape3 b !! t) as Ht by (by rewrite Hsh).
  unfold shape3 in Ht. change map with (@fmap list _) in Ht.
  rewrite !list_lookup_fmap in Ht.
  destruct (a !! t) as [pa|] eqn:Hpa, (b !! t) as [pb|] eqn:Hpb; simplify_eq/=; [|done].
  f_equal. apply list_eq. intros i.
  assert ((length <$> pa) !! i = (length <$> pb) !! i) as Hi by (by rewrite Ht).
  rewrite !list_lookup_fmap in Hi.
  destruct (pa !! i) as [ra|] eqn:Hra, (pb !! i) as [rb|] eqn:Hrb; simplify_eq/=; [|done].
  f_equal. apply list_eq. intros j.
  specialize (Hget (t, i, j)). unfold get3 in Hget.
  rewrite Hpa, Hpb in Hget. simpl in Hget. by rewrite Hra, Hrb in Hget.
Qed.

(** Running the step a second time, on what it returned, changes nothing:
    with a mask helper that looks at one value at a time, the second run
    returns arrays equal to those of the first.  (A cell that the
    references could not make valid is looked up again and receives the
    same value.) *)
Theorem interpolation_is_idempotent E inv self u v target w lu lv w1 ua va :
  cellwise (generate_mask_invalid E) inv →
  heap w !! u = Some ua → heap w !! v = Some va → shape3 va = shape3 ua →
  InterpolationStep.process E self u v target w = Return (lu, lv) w1 →
  ∃ lu2 lv2 w2,
    InterpolationStep.process E self lu lv target w1 = Return (lu2, lv2) w2
    ∧ heap w2 !! lu2 = heap w1 !! lu ∧ heap w2 !! lv2 = heap w1 !! lv.
Proof.
  intros Hcell Hu Hv Hsh Hrun.
  destruct (process_Return_inv _ _ _ _ _ _ _ _ _ _ _ Hu Hv Hrun)
    as (tg & loaded & invalid' & w1' & Htg & Hload & Hval & -> & -> & Hloop & ->).
  destruct (lookup_copies (heap w) ua va) as [Hcu Hcv].
  pose proof Hloop as Hloop'.
  eapply ref_loop_shape in Hloop' as (u1 & v1 & Hu1 & Hv1 & Hshu & Hshv); [|lia|done..].
  eapply (ref_loop_cells E inv) in Hloop as (u1' & v1' & Hu1' & Hv1' & Hcells);
    [|lia|done..].
  assert (u1' = u1) as -> by congruence. assert (v1' = v1) as -> by congruence.
  set (w1 := World (heap w1') (log w1' ++ [LogInterpolated (count3 invalid')])).
  assert (∀ p a b, get3 u1 p = Some a → get3 v1 p = Some b →
            fill_cell inv tg loaded p (a, b) = Ok (a, b)) as Hfix.
  { intros p a b Ha Hb.
    destruct (proj1 (shape3_get3 u1 ua p Hshu)) as [a0 Ha0]; [eauto|].
    destruct (proj1 (shape3_get3 v1 va p Hshv)) as [b0 Hb0]; [eauto|].
    destruct (Hcells p a0 b0 Ha0 Hb0) as (a' & b' & Hfill & Ha' & Hb').
    assert (a' = a) as -> by congruence. assert (b' = b) as -> by congruence.
    by eapply fill_cell_idem. }
  destruct (interpolation_returns_aux E inv self (length (heap w)) (S (length (heap w)))
              target w1 u1 v1 tg loaded Hcell Hu1 Hv1)
    as (w2 & u2 & v2 & Hrun2 & Hu2 & Hv2 & Hsh2u & Hsh2v & Hcells2);
    [congruence | done.. | |].
  { intros p a b Ha Hb. exists (a, b). eauto. }
  eexists _, _, w2. split; [exact Hrun2|].
  rewrite Hu2, Hv2. change (heap w1) with (heap w1'). rewrite Hu1, Hv1.
  split; f_equal; apply nd3_ext; try done.
  - intros p. destruct (get3 u1 p) as [a|] eqn:Ha.
    + destruct (proj1 (shape3_get3 u1 v1 p ltac:(congruence))) as [b Hb]; [eauto|].
      destruct (Hcells2 p a b Ha Hb) as (a' & b' & Hfill & Ha' & Hb').
      rewrite (Hfix p a b Ha Hb) in Hfill. congruence.
    + destruct (get3 u2 p) as [a2|] eqn:Ha2; [|done].
      destruct (proj1 (shape3_get3 u2 u1 p Hsh2u)) as [? ?]; [eauto|congruence].
  - intros p. destruct (get3 v1 p) as [b|] eqn:Hb.
    + destruct (proj1 (shape3_get3 v1 u1 p ltac:(congruence))) as [a Ha]; [eauto|].
      destruct (Hcells2 p a b Ha Hb) as (a' & b' & Hfill & Ha' & Hb').
      rewrite (Hfix p a b Ha Hb) in Hfill. congruence.
    + destruct (get3 v2 p) as [b2|] eqn:Hb2; [|done].
      destruct (proj1 (shape3_get3 v2 v1 p Hsh2v)) as [? ?]; [eauto|congruence].
Qed.

Lemma interpolation_is_idempotent_witness :
  cellwise (generate_mask_invalid E_spec) invalid_value
  ∧ shape3 target_v = shape3 target_u
  ∧ InterpolationStep.process E_spec two_refs 0 1 target_ds w0 = Return (2, 3) w_filled
  ∧ ∃ lu2 lv2 w2,
      InterpolationStep.process E_spec two_refs 2 3 target_ds w_filled = Return (lu2, lv2) w2
      ∧ heap w2 !! lu2 = heap w_filled !! 2 ∧ heap w2 !! lv2 = heap w_filled !! 3.
Proof.
  assert (InterpolationStep.process E_spec two_refs 0 1 target_ds w0 = Return (2, 3) w_filled)
    as Hrun by (vm_compute; reflexivity).
  split; [intros a; reflexivity|]. split; [reflexivity|]. split; [exact Hrun|].
  exact (interpolation_is_idempotent E_spec invalid_value two_refs 0 1 target_ds w0 2 3
           w_filled target_u target_v (λ a, eq_refl) eq_refl eq_refl eq_refl Hrun).
Defined.

(** ** Targets without gaps, references of one time step, failing loads *)

(** A pass over a mask that marks nothing writes nothing. *)
Lemma ref_loop_no_gaps E target lu lv refs w u v :
  lu ≠ lv → heap w !! lu = Some u → heap w !! lv = Some v →
  count3 (generate_mask_invalid E u) = 0 →
  InterpolationStep.ref_loop E target lu lv (generate_mask_invalid E u) refs w
  = Return (generate_mask_invalid E u)
      (World (heap w) (log w ++ (refs ≫= λ _, [LogAttempt 0; LogAfterRef 0 0]))).
Proof.
  intros Hne Hu Hv Hzero. revert w Hu Hv.
  induction refs as [|ref refs IH]; intros w Hu Hv; simpl.
  - unfold ret. rewrite app_nil_r. by destruct w.
  - unfold bind. rewrite (fill_pass_eq E target lu lv Hne), Hu, Hv.
    assert (where3 (generate_mask_invalid E u) = []) as Hnil.
    { apply nil_length_inv. by rewrite length_where3. }
    rewrite Hnil, Hzero. simpl. unfold passed. simpl.
    rewrite (list_insert_id (heap w) lu u Hu), (list_insert_id (heap w) lv v Hv).
    rewrite Hzero. simpl.
    rewrite IH by done. simpl. by rewrite <-app_assoc.
Qed.

(** A target whose U the mask helper finds no invalid cell in comes back
    as it is, whatever the references hold: the step returns two fresh copies
    of U and V, makes no lookup in any reference, and logs zero counts. *)
Theorem no_gaps_is_identity E self u v target w ua va tg loaded :
  SurfaceGrid_init E target = Ok tg →
  mapR (InterpolationStep.load_reference E tg) (InterpolationStep.references self)
    = Ok loaded →
  InterpolationStep.do_validation tg loaded = Ok () →
  heap w !! u = Some ua → heap w !! v = Some va →
  count3 (generate_mask_invalid E ua) = 0 →
  InterpolationStep.process E self u v target w
  = Return (length (heap w), S (length (heap w)))
      (World (heap w ++ [ua; va])
             (log w ++ [LogTargetInvalid 0]
                    ++ (loaded ≫= λ _, [LogAttempt 0; LogAfterRef 0 0])
                    ++ [LogInterpolated 0])).
Proof.
  intros Htg Hload Hval Hu Hv Hzero.
  destruct (lookup_copies (heap w) ua va) as [Hcu Hcv].
  rewrite (process_Return_intro E self u v target w ua va tg loaded
             (generate_mask_invalid E ua)
             (World (heap w ++ [ua; va])
                (log w ++ [LogTargetInvalid 0]
                       ++ (loaded ≫= λ _, [LogAttempt 0; LogAfterRef 0 0])))
             Hu Hv Htg Hload Hval).
  - simpl. rewrite Hzero. by rewrite <-!app_assoc.
  - rewrite (ref_loop_no_gaps E tg _ _ loaded _ ua va) by (done || lia).
    simpl. rewrite Hzero. by rewrite <-!app_assoc.
Qed.

Lemma no_gaps_is_identity_witness :
  count3 (generate_mask_invalid E_spec vmiss_u) = 0
  ∧ InterpolationStep.process E_spec two_refs 0 1 vmiss_ds w_vmiss
    = Return (3, 4)
        (World [vmiss_u; vmiss_v; vmiss_u; vmiss_u; vmiss_v]
           [LogTargetInvalid 0; LogAttempt 0; LogAfterRef 0 0;
            LogAttempt 0; LogAfterRef 0 0; LogInterpolated 0]).
Proof.
  split; [vm_compute; reflexivity|].
  apply (no_gaps_is_identity E_spec two_refs 0 1 vmiss_ds w_vmiss vmiss_u vmiss_v
           (make_grid vmiss_ds [0; 3600]%Z [32; 33]%float [10; 11]%float)
           [gappy_grid; ref_grid]).
  - vm_compute; reflexivity.
  - vm_compute; reflexivity.
  - vm_compute; reflexivity.
  - reflexivity.
  - reflexivity.
  - vm_compute; reflexivity.
Defined.

(** [get_interped] takes the first difference of the reference's time
    axis before anything else: a reference with a single time step (or
    none) has no such difference.  When such a reference is the first of
    the list and the target has an invalid cell, [process] raises
    [IndexError] at the first cell, after the two messages and with
    nothing written. *)
Theorem single_time_reference_raises E self u v target w ua va tg ref rest :
  SurfaceGrid_init E target = Ok tg →
  mapR (InterpolationStep.load_reference E tg) (InterpolationStep.references self)
    = Ok (ref :: rest) →
  InterpolationStep.do_validation tg (ref :: rest) = Ok () →
  heap w !! u = Some ua → heap w !! v = Some va →
  length (grid_time ref) ≤ 1 →
  0 < count3 (generate_mask_invalid E ua) →
  InterpolationStep.process E self u v target w
  = Raise IndexError
      (World (heap w ++ [ua; va])
             (log w ++ [LogTargetInvalid (count3 (generate_mask_invalid E ua));
                        LogAttempt (count3 (generate_mask_invalid E ua))])).
Proof.
  intros Htg Hload Hval Hu Hv Htime Hpos.
  rewrite process_eq, Htg, Hload, Hval, Hu, (lookup_app_l_Some _ _ _ _ Hv). simpl.
  unfold bind.
  rewrite (fill_pass_lookup_Err E tg _ _ _ ref _ IndexError).
  - unfold attempted. simpl. by rewrite <-app_assoc.
  - unfold InterpolationStep.interp_values.
    destruct (count3 (generate_mask_invalid E ua)) as [|n]; [lia|]. simpl.
    unfold get_interped.
    destruct (grid_time ref) as [|x0 [|x1 ts]]; simpl in *; [done..|lia].
Qed.

Lemma single_time_reference_raises_witness :
  InterpolationStep.do_validation still_grid [still_ref_grid] = Ok ()
  ∧ length (grid_time still_ref_grid) ≤ 1
  ∧ 0 < count3 (generate_mask_invalid E_spec still_u)
  ∧ InterpolationStep.process E_spec (InterpolationStep.init (Some [RefGrid still_ref_grid]))
      0 1 still_ds w_still
    = Raise IndexError
        (World [still_u; still_u; still_u; still_u] [LogTargetInvalid 1; LogAttempt 1]).
Proof.
  split; [vm_compute; reflexivity|]. split; [vm_compute; lia|]. split; [vm_compute; lia|].
  apply (single_time_reference_raises E_spec
           (InterpolationStep.init (Some [RefGrid still_ref_grid])) 0 1 still_ds w_still
           still_u still_u still_grid still_ref_grid []).
  - vm_compute; reflexivity.
  - vm_compute; reflexivity.
  - vm_compute; reflexivity.
  - reflexivity.
  - reflexivity.
  - vm_compute; lia.
  - vm_compute; lia.
Defined.

(** ** What validation accepts *)

Lemma index_0_Ok {A} (l : list A) x : index l 0 = Ok x ↔ head l = Some x.
Proof. unfold index. destruct l; simpl; naive_solver. Qed.

Lemma index_last_Ok {A} (l : list A) x : index_last l = Ok x ↔ last l = Some x.
Proof. unfold index_last. destruct (last l); naive_solver. Qed.

Lemma check_references_Ok target lo hi refs :
  InterpolationStep.check_references target lo hi refs = Ok ()
  ↔ Forall (λ r, InterpolationStep.inbounds target r lo hi = Ok true) refs.
Proof.
  induction refs as [|r refs IH]; simpl.
  - split; [constructor | done].
  - rewrite Forall_cons, <-IH.
    destruct (InterpolationStep.inbounds target r lo hi) as [[|]|e]; simpl; intuition congruence.
Qed.

Lemma inbounds_true target ref lat0 lon0 lat1 lon1 :
  head (lats target) = Some lat0 → last (lats target) = Some lat1 →
  head (lons target) = Some lon0 → last (lons target) = Some lon1 →
  InterpolationStep.inbounds target ref (lat0, lon0) (lat1, lon1) = Ok true
  ↔ encloses target ref.
Proof.
  intros Hlat0 Hlat1 Hlon0 Hlon1.
  unfold InterpolationStep.inbounds, encloses, and_then, get_coords. simpl.
  unfold index, index_last. rewrite <-!head_lookup.
  split.
  - destruct (head (lats ref)) as [rlat0|]; simpl; [|done].
    destruct (rlat0 <=? lat0)%float eqn:H1; simpl.
    2: { destruct (head (lons ref)) as [rlon0|]; simpl; [|done].
         destruct (rlon0 <=? lon0)%float; simpl.
         - destruct (last (lons ref)); simpl; [|done].
           destruct (head (times ref)); simpl; [|done].
           destruct (head (times target)); simpl; [|done].
           destruct (_ <=? _)%Z; simpl; [|done].
           destruct (last (times ref)); simpl; [|done].
           by destruct (last (times target)).
         - destruct (head (times ref)); simpl; [|done].
           destruct (head (times target)); simpl; [|done].
           destruct (_ <=? _)%Z; simpl; [|done].
           destruct (last (times ref)); simpl; [|done].
           by destruct (last (times target)). }
    destruct (last (lats ref)) as [rlat1|]; simpl; [|done].
    destruct (lat1 <=? rlat1)%float eqn:H2; simpl.
    2: { destruct (head (lons ref)) as [rlon0|]; simpl; [|done].
         destruct (rlon0 <=? lon0)%float; simpl.
         - destruct (last (lons ref)); simpl; [|done].
           destruct (head (times ref)); simpl; [|done].
           destruct (head (times target)); simpl; [|done].
           destruct (_ <=? _)%Z; simpl; [|done].
           destruct (last (times ref)); simpl; [|done].
           by destruct (last (times target)).
         - destruct (head (times ref)); simpl; [|done].
           destruct (head (times target)); simpl; [|done].
           destruct (_ <=? _)%Z; simpl; [|done].
           destruct (last (times ref)); simpl; [|done].
           by destruct (last (times target)). }
    destruct (head (lons ref)) as [rlon0|]; simpl; [|done].
    destruct (rlon0 <=? lon0)%float eqn:H3; simpl.
    2: { destruct (head (times ref)); simpl; [|done].
         destruct (head (times target)); simpl; [|done].
         destruct (_ <=? _)%Z; simpl; [|done].
         destruct (last (times ref)); simpl; [|done].
         by destruct (last (times target)). }
    destruct (last (lons ref)) as [rlon1|]; simpl; [|done].
    destruct (lon1 <=? rlon1)%float eqn:H4; simpl.
    2: { destruct (head (times ref)); simpl; [|done].
         destruct (head (times target)); simpl; [|done].
         destruct (_ <=? _)%Z; simpl; [|done].
         destruct (last (times ref)); simpl; [|done].
         by destruct (last (times target)). }
    destruct (head (times ref)) as [rt0|]; simpl; [|done].
    destruct (head (times target)) as [tt0|]; simpl; [|done].
    destruct (rt0 <=? tt0)%Z eqn:H5; simpl; [|done].
    destruct (last (times ref)) as [rt1|]; simpl; [|done].
    destruct (last (times target)) as [tt1|]; simpl; [|done].
    destruct (tt1 <=? rt1)%Z eqn:H6; simpl; [|done]. intros _.
    exists lat0, lat1, lon0, lon1, tt0, tt1, rlat0, rlat1, rlon0, rlon1, rt0, rt1.
    split_and!; try done; by apply Z.leb_le.
  - intros (tlat0 & tlat1 & tlon0 & tlon1 & tt0 & tt1 & rlat0 & rlat1 & rlon0 & rlon1
            & rt0 & rt1 & Ha & Hb & Hc & Hd & He & Hf & Hg & Hh & Hi & Hj & Hk & Hl
            & H1 & H2 & H3 & H4 & H5 & H6).
    simplify_eq. rewrite Hg, Hh, Hi, Hj, Hk, Hl, He, Hf. simpl.
    rewrite H1, H2, H3, H4. simpl.
    apply Z.leb_le in H5, H6. by rewrite H5, H6.
Qed.

(** [InterpolationStep.do_validation] accepts a list of references exactly
    when the target has at least one latitude and one longitude and the
    span of every reference encloses the span of the target: first
    coordinate at most the target's first, last coordinate at least the
    target's last, on the latitude, longitude and time axes. *)
Theorem validation_accepts_enclosing_references target refs :
  InterpolationStep.do_validation target refs = Ok ()
  ↔ lats target ≠ [] ∧ lons target ≠ [] ∧ Forall (encloses target) refs.
Proof.
  unfold InterpolationStep.do_validation, get_coords.
  destruct (head (lats target)) as [lat0|] eqn:Hlat0.
  2: { apply head_None in Hlat0. rewrite Hlat0. simpl. split; [done | by intros [? _]]. }
  destruct (head (lons target)) as [lon0|] eqn:Hlon0.
  2: { apply head_None in Hlon0. rewrite Hlon0.
       rewrite (proj2 (index_0_Ok _ _) Hlat0). simpl.
       split; [done | by intros (_ & ? & _)]. }
  destruct (last (lats target)) as [lat1|] eqn:Hlat1.
  2: { apply last_None in Hlat1. by rewrite Hlat1 in Hlat0. }
  destruct (last (lons target)) as [lon1|] eqn:Hlon1.
  2: { apply last_None in Hlon1. by rewrite Hlon1 in Hlon0. }
  rewrite (proj2 (index_0_Ok _ _) Hlat0), (proj2 (index_0_Ok _ _) Hlon0),
    (proj2 (index_last_Ok _ _) Hlat1), (proj2 (index_last_Ok _ _) Hlon1). simpl.
  rewrite check_references_Ok.
  assert (lats target ≠ []) as Hne1 by (intros E; by rewrite E in Hlat0).
  assert (lons target ≠ []) as Hne2 by (intros E; by rewrite E in Hlon0).
  split.
  - intros H. split_and!; [done..|].
    eapply Forall_impl; [exact H|]. intros r Hr. simpl in Hr.
    by apply (inbounds_true target r lat0 lon0 lat1 lon1).
  - intros (_ & _ & H). eapply Forall_impl; [exact H|]. intros r Hr. simpl.
    by apply (inbounds_true target r lat0 lon0 lat1 lon1).
Qed.

Lemma do_validation_Forall target refs :
  InterpolationStep.do_validation target refs = Ok ()
  ↔ InterpolationStep.do_validation target [] = Ok ()
    ∧ Forall (λ r, InterpolationStep.do_validation target [r] = Ok ()) refs.
Proof.
  unfold InterpolationStep.do_validation, get_coords.
  destruct (index (lats target) 0) as [lat0|]; simpl; [|intuition congruence].
  destruct (index (lons target) 0) as [lon0|]; simpl; [|intuition congruence].
  destruct (index_last (lats target)) as [lat1|]; simpl; [|intuition congruence].
  destruct (index_last (lons target)) as [lon1|]; simpl; [|intuition congruence].
  rewrite check_references_Ok. split.
  - intros H. split; [done|]. eapply Forall_impl; [exact H|]. intros r Hr. simpl in *.
    by rewrite Hr.
  - intros [_ H]. eapply Forall_impl; [exact H|]. intros r Hr. simpl in *.
    by destruct (InterpolationStep.inbounds target r _ _) as [[|]|].
Qed.

(** Validation looks at each reference on its own: a list of references
    that is accepted stays accepted when references are removed from it or
    put in another order. *)
Theorem validation_of_fewer_references target refs refs' :
  refs' ⊆+ refs →
  InterpolationStep.do_validation target refs = Ok () →
  InterpolationStep.do_validation target refs' = Ok ().
Proof.
  intros Hsub. rewrite (do_validation_Forall target refs), (do_validation_Forall target refs').
  intros [H0 H]. split; [done|]. rewrite Forall_forall in *.
  intros r Hr. apply H. by eapply elem_of_submseteq.
Qed.

Lemma validation_of_fewer_references_witness :
  [ref_grid] ⊆+ [gappy_grid; ref_grid]
  ∧ InterpolationStep.do_validation target_grid [gappy_grid; ref_grid] = Ok ()
  ∧ InterpolationStep.do_validation target_grid [ref_grid] = Ok ().
Proof.
  assert ([ref_grid] ⊆+ [gappy_grid; ref_grid]) as Hsub
    by (apply submseteq_cons; reflexivity).
  assert (InterpolationStep.do_validation target_grid [gappy_grid; ref_grid] = Ok ()) as Hval
    by (vm_compute; reflexivity).
  split; [exact Hsub|]. split; [exact Hval|].
  exact (validation_of_fewer_references target_grid [gappy_grid; ref_grid] [ref_grid] Hsub Hval).
Defined.

(** ** References that fail to load *)

(** A reference given as a string is fetched from the remote source when
    [process] runs.  When the fetch fails, the exception leaves [process]
    at once: nothing is logged, no array is copied, the references after
    it are not loaded, and the references before it were loaded for
    nothing. *)
Theorem failing_load_aborts E self u v target w tg pre s post loaded_pre e :
  SurfaceGrid_init E target = Ok tg →
  InterpolationStep.references self = pre ++ RefStr s :: post →
  mapR (InterpolationStep.load_reference E tg) pre = Ok loaded_pre →
  load_source E s = Err e →
  InterpolationStep.process E self u v target w = Raise e w.
Proof.
  intros Htg Hrefs Hpre Hload.
  rewrite process_eq, Htg, Hrefs, mapR_app, Hpre. simpl. by rewrite Hload.
Qed.

Lemma failing_load_aborts_witness :
  load_source E_spec "elsewhere" = Err LoaderError
  ∧ InterpolationStep.process E_spec
      (InterpolationStep.init (Some [RefGrid ref_grid; RefStr "elsewhere"; RefStr "uniform"]))
      0 1 target_ds w0
    = Raise LoaderError w0.
Proof.
  split; [reflexivity|].
  apply (failing_load_aborts E_spec
           (InterpolationStep.init (Some [RefGrid ref_grid; RefStr "elsewhere"; RefStr "uniform"]))
           0 1 target_ds w0 target_grid [RefGrid ref_grid] "elsewhere" [RefStr "uniform"]
           [ref_grid] LoaderError).
  - vm_compute; reflexivity.
  - reflexivity.
  - reflexivity.
  - reflexivity.
Defined.

(** ** The smoothing step, plane by plane *)

Lemma broadcast_row_length src row r :
  broadcast_row src row = Ok r → length r = length row.
Proof.
  unfold broadcast_row. case_bool_decide as Hlen.
  - by intros [= <-].
  - destruct src as [|x [|??]]; intros [=]; subst. by rewrite length_replicate.
Qed.

Lemma broadcast_rows_shape src plane p :
  broadcast_rows src plane = Ok p → length <$> p = length <$> plane.
Proof.
  revert plane p. induction src as [|s src IH]; intros [|row plane] p; simpl; try done.
  - by intros [= <-].
  - destruct (broadcast_row s row) as [r|] eqn:Hr; simpl; [|done].
    destruct (broadcast_rows src plane) as [rs|] eqn:Hrs; simpl; [|done].
    intros [= <-]. simpl. f_equal; [by eapply broadcast_row_length | eauto].
Qed.

Lemma broadcast_plane_shape src plane p :
  broadcast_plane src plane = Ok p → length <$> p = length <$> plane.
Proof.
  unfold broadcast_plane. case_bool_decide.
  - apply broadcast_rows_shape.
  - destruct src as [|s [|??]]; try done. apply broadcast_rows_shape.
Qed.

(** An array of the shape of the plane is assigned as it is. *)
Lemma broadcast_rows_same src plane :
  length <$> src = length <$> plane → broadcast_rows src plane = Ok src.
Proof.
  revert plane. induction src as [|s src IH]; intros [|row plane] H; simplify_eq/=; [done|].
  unfold broadcast_row. rewrite bool_decide_eq_true_2 by done. simpl.
  by rewrite IH.
Qed.

Lemma broadcast_plane_same src plane :
  length <$> src = length <$> plane → broadcast_plane src plane = Ok src.
Proof.
  intros H. unfold broadcast_plane.
  assert (length src = length plane) as Hlen
    by (by rewrite <-(length_fmap length src), H, length_fmap).
  rewrite bool_decide_eq_true_2 by done. by apply broadcast_rows_same.
Qed.

Lemma set_plane_inv a i src a' :
  set_plane a i src = Ok a' →
  ∃ plane p, a !! i = Some plane ∧ broadcast_plane src plane = Ok p ∧ a' = <[i := p]> a.
Proof.
  unfold set_plane, index. destruct (a !! i) as [plane|]; simpl; [|done].
  destruct (broadcast_plane src plane) as [p|] eqn:Hp; simpl; [|done].
  intros [= <-]. eauto.
Qed.

Lemma set_plane_shape a i src a' : set_plane a i src = Ok a' → shape3 a' = shape3 a.
Proof.
  intros (plane & p & Hplane & Hp & ->)%set_plane_inv.
  unfold shape3. change map with (@fmap list _).
  rewrite list_fmap_insert. apply list_insert_id.
  rewrite list_lookup_fmap, Hplane. simpl. f_equal. symmetry.
  by apply broadcast_plane_shape in Hp.
Qed.

Section smooth_fields.
Context (E : externals) (lu lv : loc) (Hne : lu ≠ lv).

Lemma smooth_field_eq u_list v_list i w :
  SmoothnStep.smooth_field E lu lv u_list v_list i w =
  match index u_list i with
  | Err e => Raise e w
  | Ok u_mat =>
  match index v_list i with
  | Err e => Raise e w
  | Ok v_mat =>
  match smoothn E u_mat v_mat with
  | Err e => Raise e w
  | Ok (u_array, v_array) =>
  match heap w !! lu with
  | None => Raise (ValueError "no such array") w
  | Some su =>
  match set_plane su i u_array with
  | Err e => Raise e w
  | Ok su' =>
  match heap w !! lv with
  | None => Raise (ValueError "no such array") (World (<[lu := su']> (heap w)) (log w))
  | Some sv =>
  match set_plane sv i v_array with
  | Err e => Raise e (World (<[lu := su']> (heap w)) (log w))
  | Ok sv' => Return () (World (<[lv := sv']> (<[lu := su']> (heap w))) (log w))
  end end end end end end end.
Proof.
  unfold SmoothnStep.smooth_field. unfold_M.
  destruct (index u_list i) as [u_mat|]; simpl; [|done].
  destruct (index v_list i) as [v_mat|]; simpl; [|done].
  destruct (smoothn E u_mat v_mat) as [[u_array v_array]|]; simpl; [|done].
  destruct (heap w !! lu) as [su|]; simpl; [|done].
  destruct (set_plane su i u_array) as [su'|]; simpl; [|done].
  rewrite list_lookup_insert_ne by done.
  destruct (heap w !! lv) as [sv|]; simpl; [|done].
  by destruct (set_plane sv i v_array) as [sv'|].
Qed.

(** The loop over the time steps touches the two arrays it is given and
    nothing else, and logs nothing. *)
Lemma smooth_fields_take u_list v_list range w n :
  n ≤ lu → n ≤ lv →
  take n (heap (world_of (SmoothnStep.smooth_fields E lu lv u_list v_list range w)))
  = take n (heap w)
  ∧ log (world_of (SmoothnStep.smooth_fields E lu lv u_list v_list range w)) = log w.
Proof.
  intros Hlu Hlv. revert w. induction range as [|i range IH]; intros w; simpl; [done|].
  unfold bind. rewrite smooth_field_eq.
  destruct (index u_list i) as [u_mat|]; simpl; [|done].
  destruct (index v_list i) as [v_mat|]; simpl; [|done].
  destruct (smoothn E u_mat v_mat) as [[u_array v_array]|]; simpl; [|done].
  destruct (heap w !! lu) as [su|]; simpl; [|done].
  destruct (set_plane su i u_array) as [su'|]; simpl; [|done].
  destruct (heap w !! lv) as [sv|]; simpl; [|by rewrite take_insert_ge].
  destruct (set_plane sv i v_array) as [sv'|]; simpl; [|by rewrite take_insert_ge].
  destruct (IH (World (<[lv := sv']> (<[lu := su']> (heap w))) (log w))) as [-> ->].
  simpl. by rewrite !take_insert_ge.
Qed.

(** When the loop returns, the plane of every time step of the range
    holds what the engine gave for the planes of the two lists at that
    time step, and the other planes are as they were. *)
Lemma smooth_fields_spec u_list v_list range w a b w' :
  NoDup range →
  heap w !! lu = Some a → heap w !! lv = Some b →
  SmoothnStep.smooth_fields E lu lv u_list v_list range w = Return () w' →
  ∃ a' b',
    heap w' !! lu = Some a' ∧ heap w' !! lv = Some b'
    ∧ shape3 a' = shape3 a ∧ shape3 b' = shape3 b
    ∧ (∀ t, t ∉ range → a' !! t = a !! t ∧ b' !! t = b !! t)
    ∧ (∀ t, t ∈ range →
         ∃ pu pv eu ev qa qb ru rv,
           u_list !! t = Some pu ∧ v_list !! t = Some pv
           ∧ smoothn E pu pv = Ok (eu, ev)
           ∧ a !! t = Some qa ∧ b !! t = Some qb
           ∧ broadcast_plane eu qa = Ok ru ∧ broadcast_plane ev qb = Ok rv
           ∧ a' !! t = Some ru ∧ b' !! t = Some rv).
Proof.
  intros Hnd. revert w a b.
  induction Hnd as [|i range Hi Hnd IH]; intros w a b Ha Hb Hr; simpl in Hr.
  - unfold ret in Hr. simplify_eq. exists a, b. split_and!; try done.
    intros t Ht. by apply elem_of_nil in Ht.
  - unfold bind in Hr. rewrite smooth_field_eq in Hr. unfold index in Hr.
    destruct (u_list !! i) as [pu|] eqn:Hpu; simpl in Hr; [|done].
    destruct (v_list !! i) as [pv|] eqn:Hpv; simpl in Hr; [|done].
    destruct (smoothn E pu pv) as [[eu ev]|] eqn:Heng; simpl in Hr; [|done].
    rewrite Ha in Hr.
    destruct (set_plane a i eu) as [a1|] eqn:Ha1; simpl in Hr; [|done].
    rewrite Hb in Hr.
    destruct (set_plane b i ev) as [b1|] eqn:Hb1; simpl in Hr; [|done].
    pose proof (set_plane_shape _ _ _ _ Ha1) as Hsha.
    pose proof (set_plane_shape _ _ _ _ Hb1) as Hshb.
    apply set_plane_inv in Ha1 as (qa & ru & Hqa & Hru & ->).
    apply set_plane_inv in Hb1 as (qb & rv & Hqb & Hrv & ->).
    apply (IH _ (<[i := ru]> a) (<[i := rv]> b))
      in Hr as (a' & b' & Ha' & Hb' & Hsa' & Hsb' & Hout & Hin).
    2: { simpl. rewrite list_lookup_insert_ne by done.
         apply list_lookup_insert_eq. eauto using lookup_lt_Some. }
    2: { simpl. apply list_lookup_insert_eq. rewrite length_insert.
         eauto using lookup_lt_Some. }
    exists a', b'. split_and!; [done | done | congruence | congruence | |].
    + intros t Ht. apply not_elem_of_cons in Ht as [Hti Ht].
      destruct (Hout t Ht) as [-> ->]. by rewrite !list_lookup_insert_ne.
    + intros t Ht. apply elem_of_cons in Ht as [->|Ht].
      * destruct (Hout i Hi) as [Hai Hbi].
        exists pu, pv, eu, ev, qa, qb, ru, rv. split_and!; try done.
        -- rewrite Hai. apply list_lookup_insert_eq. eauto using lookup_lt_Some.
        -- rewrite Hbi. apply list_lookup_insert_eq. eauto using lookup_lt_Some.
      * assert (t ≠ i) as Hti by (intros ->; done).
        destruct (Hin t Ht) as (pu' & pv' & eu' & ev' & qa' & qb' & ru' & rv'
                                & ? & ? & ? & Hqa' & Hqb' & ? & ? & ? & ?).
        rewrite list_lookup_insert_ne in Hqa', Hqb' by done.
        exists pu', pv', eu', ev', qa', qb', ru', rv'. split_and!; done.
Qed.

End smooth_fields.

Lemma apply_mask_eq E self tg lu lv w :
  lu ≠ lv →
  SmoothnStep.apply_mask E self tg lu lv w =
  match SmoothnStep.mask self with
  | None => Return () w
  | Some m =>
  match getitem (ds m) "U" with
  | Err e => Raise e w
  | Ok mask_u =>
  match coord_size (ds tg) "time" with
  | Err e => Raise e w
  | Ok T =>
  let no_data := tile3 (generate_mask_no_data E (da_values mask_u)) T in
  match heap w !! lu with
  | None => Raise (ValueError "no such array") w
  | Some su =>
  match setmask3 su no_data nan with
  | Err e => Raise e w
  | Ok su' =>
  match heap w !! lv with
  | None => Raise (ValueError "no such array") (World (<[lu := su']> (heap w)) (log w))
  | Some sv =>
  match setmask3 sv no_data nan with
  | Err e => Raise e (World (<[lu := su']> (heap w)) (log w))
  | Ok sv' => Return () (World (<[lv := sv']> (<[lu := su']> (heap w))) (log w))
  end end end end end end end.
Proof.
  intros Hne. unfold SmoothnStep.apply_mask. destruct (SmoothnStep.mask self) as [m|]; [|done].
  unfold_M.
  destruct (getitem (ds m) "U") as [mask_u|]; simpl; [|done].
  destruct (coord_size (ds tg) "time") as [T|]; simpl; [|done].
  destruct (heap w !! lu) as [su|]; simpl; [|done].
  destruct (setmask3 su _ _) as [su'|]; simpl; [|done].
  rewrite list_lookup_insert_ne by done.
  destruct (heap w !! lv) as [sv|]; simpl; [|done].
  by destruct (setmask3 sv _ _) as [sv'|].
Qed.

Lemma apply_mask_take E self tg lu lv w n :
  lu ≠ lv → n ≤ lu → n ≤ lv →
  take n (heap (world_of (SmoothnStep.apply_mask E self tg lu lv w))) = take n (heap w).
Proof.
  intros Hne Hlu Hlv. rewrite apply_mask_eq by done.
  destruct (SmoothnStep.mask self) as [m|]; [|done].
  destruct (getitem (ds m) "U") as [mask_u|]; simpl; [|done].
  destruct (coord_size (ds tg) "time") as [T|]; simpl; [|done].
  destruct (heap w !! lu) as [su|]; simpl; [|done].
  destruct (setmask3 su _ _) as [su'|]; simpl; [|done].
  destruct (heap w !! lv) as [sv|]; simpl; [|by rewrite take_insert_ge].
  destruct (setmask3 sv _ _) as [sv'|]; simpl; by rewrite !take_insert_ge.
Qed.

Lemma setmask3_shape a m x a' : setmask3 a m x = Ok a' → shape3 a' = shape3 a.
Proof.
  unfold setmask3. case_bool_decide as Hsh; [|done]. intros [= <-].
  unfold shape3 in *. change map with (@fmap list _) in *.
  revert m Hsh. induction a as [|pa a IH]; intros [|pm m] Hsh; simplify_eq/=; [done|].
  f_equal; [|eauto].
  clear IH. revert pm H. induction pa as [|ra pa IH]; intros [|rm pm] Hp; simplify_eq/=; [done|].
  f_equal; [|eauto]. unfold setmask1. rewrite length_zip_with. lia.
Qed.

Lemma smoothing_keeps_heap E self u v target w :
  take (length (heap w)) (heap (world_of (SmoothnStep.process E self u v target w)))
  = heap w.
Proof.
  rewrite smoothn_process_eq.
  destruct (SurfaceGrid_init E target) as [tg|e]; simpl; [|by rewrite firstn_all].
  destruct (SmoothnStep.do_validation _ _) as [[]|e]; simpl; [|by rewrite firstn_all].
  destruct (start_matlab E) as [[]|e]; simpl; [|by rewrite firstn_all].
  destruct (heap w !! u) as [ua|] eqn:Hu; simpl; [|by rewrite firstn_all].
  destruct ((heap w ++ [ua]) !! v) as [va|] eqn:Hv; simpl; [|by rewrite take_app_length].
  destruct (smooth_fields_take E (length (heap w)) (S (length (heap w)))
              (Nat.neq_succ_diag_r _) ua va (seq 0 (length ua))
              (World (heap w ++ [ua; va]) (log w ++ [LogFilling (length ua)]))
              (length (heap w)) (le_n _) (Nat.le_succ_diag_r _)) as [Htake _].
  simpl in Htake. rewrite take_app_length in Htake.
  destruct (SmoothnStep.smooth_fields _ _ _ _ _ _ _) as [[] w4|e w4]; simpl in *; [|done].
  pose proof (apply_mask_take E self tg (length (heap w)) (S (length (heap w))) w4
                (length (heap w)) (Nat.neq_succ_diag_r _) (le_n _) (Nat.le_succ_diag_r _))
    as Htake'.
  rewrite Htake in Htake'.
  destruct (SmoothnStep.apply_mask _ _ _ _ _ _) as [[] w5|e w5]; simpl in *; [|done].
  by destruct (quit_engine E) as [[]|e].
Qed.

(** Whatever its outcome, [SmoothnStep.process] leaves every array of the
    world as it was: the step smooths and masks copies of U and V. *)
Theorem smoothing_works_on_copies E self u v target w :
  take (length (heap w)) (heap (world_of (SmoothnStep.process E self u v target w)))
  = heap w.
Proof. apply smoothing_keeps_heap. Qed.

(** What a returning run of the smoothing step went through. *)
Lemma smoothn_process_Return_inv E self u v target w su sv w' ua va :
  heap w !! u = Some ua → heap w !! v = Some va →
  SmoothnStep.process E self u v target w = Return (su, sv) w' →
  ∃ tg w4,
    SurfaceGrid_init E target = Ok tg
    ∧ SmoothnStep.do_validation self tg = Ok ()
    ∧ start_matlab E = Ok () ∧ quit_engine E = Ok ()
    ∧ su = length (heap w) ∧ sv = S (length (heap w))
    ∧ SmoothnStep.smooth_fields E su sv ua va (seq 0 (length ua))
        (World (heap w ++ [ua; va]) (log w ++ [LogFilling (length ua)]))
      = Return () w4
    ∧ SmoothnStep.apply_mask E self tg su sv w4 = Return () w'.
Proof.
  intros Hu Hv. rewrite smoothn_process_eq, Hu, (lookup_app_l_Some _ _ _ _ Hv).
  destruct (SurfaceGrid_init E target) as [tg|e] eqn:Htg; [|done].
  destruct (SmoothnStep.do_validation _ _) as [[]|e] eqn:Hval; [|done].
  destruct (start_matlab E) as [[]|e] eqn:Hstart; [|done]. simpl.
  destruct (SmoothnStep.smooth_fields _ _ _ _ _ _ _) as [[] w4|e w4] eqn:Hloop; [|done].
  destruct (SmoothnStep.apply_mask _ _ _ _ _ _) as [[] w5|e w5] eqn:Hmask; [|done].
  destruct (quit_engine E) as [[]|e] eqn:Hquit; [|done].
  intros [= <- <- <-]. by exists tg, w4.
Qed.

Lemma smoothing_shape E self u v target w su sv w' ua va :
  heap w !! u = Some ua → heap w !! v = Some va →
  SmoothnStep.process E self u v target w = Return (su, sv) w' →
  ∃ u' v', heap w' !! su = Some u' ∧ heap w' !! sv = Some v'
           ∧ shape3 u' = shape3 ua ∧ shape3 v' = shape3 va.
Proof.
  intros Hu Hv Hr.
  destruct (smoothn_process_Return_inv _ _ _ _ _ _ _ _ _ _ _ Hu Hv Hr)
    as (tg & w4 & _ & _ & _ & _ & -> & -> & Hloop & Hmask).
  destruct (lookup_copies (heap w) ua va) as [Hcu Hcv].
  assert (length (heap w) ≠ S (length (heap w))) as Hne by lia.
  eapply smooth_fields_spec in Hloop
    as (a' & b' & Ha' & Hb' & Hsa & Hsb & _ & _); [|done|apply NoDup_seq|done..].
  rewrite apply_mask_eq in Hmask by done.
  destruct (SmoothnStep.mask self) as [m|].
  2: { injection Hmask as <-. by exists a', b'. }
  destruct (getitem (ds m) "U") as [mask_u|]; simpl in Hmask; [|done].
  destruct (coord_size (ds tg) "time") as [T|]; simpl in Hmask; [|done].
  rewrite Ha' in Hmask.
  destruct (setmask3 a' _ _) as [a''|] eqn:Ha''; simpl in Hmask; [|done].
  rewrite Hb' in Hmask.
  destruct (setmask3 b' _ _) as [b''|] eqn:Hb''; simpl in Hmask; [|done].
  injection Hmask as <-. exists a'', b''. simpl. split_and!.
  - rewrite list_lookup_insert_ne by done.
    apply list_lookup_insert_eq. eauto using lookup_lt_Some.
  - apply list_lookup_insert_eq. rewrite length_insert. eauto using lookup_lt_Some.
  - rewrite <-Hsa. by eapply setmask3_shape.
  - rewrite <-Hsb. by eapply setmask3_shape.
Qed.

(** When [SmoothnStep.process] returns, the two arrays it returns have the
    shapes of the arrays it was given, whatever the engine returned. *)
Theorem smoothing_preserves_shape E self u v target w su sv w' ua va :
  heap w !! u = Some ua → heap w !! v = Some va →
  SmoothnStep.process E self u v target w = Return (su, sv) w' →
  ∃ u' v', heap w' !! su = Some u' ∧ heap w' !! sv = Some v'
           ∧ shape3 u' = shape3 ua ∧ shape3 v' = shape3 va.
Proof. apply smoothing_shape. Qed.

Lemma smoothing_preserves_shape_witness :
  SmoothnStep.process E_spec {| SmoothnStep.mask := Some land_grid |} 0 1 target_ds w0
  = Return (2, 3) w_smoothed
  ∧ ∃ u' v', heap w_smoothed !! 2 = Some u' ∧ heap w_smoothed !! 3 = Some v'
             ∧ shape3 u' = shape3 target_u ∧ shape3 v' = shape3 target_v.
Proof.
  assert (SmoothnStep.process E_spec {| SmoothnStep.mask := Some land_grid |} 0 1 target_ds w0
          = Return (2, 3) w_smoothed) as Hrun by (vm_compute; reflexivity).
  split; [exact Hrun|].
  exact (smoothing_preserves_shape E_spec {| SmoothnStep.mask := Some land_grid |}
           0 1 target_ds w0 2 3 w_smoothed target_u target_v eq_refl eq_refl Hrun).
Defined.

Lemma shape3_length {A B} (a : nd3 A) (b : nd3 B) : shape3 a = shape3 b → length a = length b.
Proof. unfold shape3. intros H. by rewrite <-(length_map (map length) a), H, length_map. Qed.

(** The planes that a returning run of the smoothing step holds before
    the mask is applied. *)
Lemma smoothn_planes E su sv ua va w w4 :
  su ≠ sv → heap w !! su = Some ua → heap w !! sv = Some va →
  SmoothnStep.smooth_fields E su sv ua va (seq 0 (length ua)) w = Return () w4 →
  ∃ a' b',
    heap w4 !! su = Some a' ∧ heap w4 !! sv = Some b'
    ∧ shape3 a' = shape3 ua ∧ shape3 b' = shape3 va
    ∧ (∀ t, length ua ≤ t → b' !! t = va !! t)
    ∧ ∀ t pu, ua !! t = Some pu →
        ∃ pv eu ev ru rv,
          va !! t = Some pv ∧ smoothn E pu pv = Ok (eu, ev)
          ∧ broadcast_plane eu pu = Ok ru ∧ broadcast_plane ev pv = Ok rv
          ∧ a' !! t = Some ru ∧ b' !! t = Some rv.
Proof.
  intros Hne Hu Hv Hloop.
  eapply smooth_fields_spec in Hloop
    as (a' & b' & Ha' & Hb' & Hsa & Hsb & Hout & Hin); [|done|apply NoDup_seq|done..].
  exists a', b'. split_and!; [done..| |].
  - intros t Ht. apply Hout. rewrite elem_of_seq. lia.
  - intros t pu Hpu.
    destruct (Hin t) as (pu' & pv & eu & ev & qa & qb & ru & rv
                         & Hpu' & Hpv & Heng & Hqa & Hqb & Hru & Hrv & Hat & Hbt).
    { rewrite elem_of_seq. apply lookup_lt_Some in Hpu. lia. }
    simplify_eq. exists pv, eu, ev, ru, rv. done.
Qed.

(** Without a mask, the arrays that [SmoothnStep.process] returns hold, at
    every time step, what the engine gave for the U and V planes of that
    time step of the input (assigned to a plane of the input's shape):
    each time step is smoothed on its own, from the values the step was
    given. *)
Theorem smoothing_without_mask E self u v target w su sv w' ua va :
  SmoothnStep.mask self = None →
  heap w !! u = Some ua → heap w !! v = Some va →
  SmoothnStep.process E self u v target w = Return (su, sv) w' →
  ∃ out_u out_v,
    heap w' !! su = Some out_u ∧ heap w' !! sv = Some out_v
    ∧ length out_u = length ua
    ∧ ∀ t pu, ua !! t = Some pu →
        ∃ pv eu ev ru rv,
          va !! t = Some pv ∧ smoothn E pu pv = Ok (eu, ev)
          ∧ broadcast_plane eu pu = Ok ru ∧ broadcast_plane ev pv = Ok rv
          ∧ out_u !! t = Some ru ∧ out_v !! t = Some rv.
Proof.
  intros Hnone Hu Hv Hr.
  destruct (smoothn_process_Return_inv _ _ _ _ _ _ _ _ _ _ _ Hu Hv Hr)
    as (tg & w4 & _ & _ & _ & _ & -> & -> & Hloop & Hmask).
  destruct (lookup_copies (heap w) ua va) as [Hcu Hcv].
  apply smoothn_planes in Hloop as (a' & b' & Ha' & Hb' & Hsa & Hsb & _ & Hplanes);
    [|lia|done..].
  unfold SmoothnStep.apply_mask in Hmask. rewrite Hnone in Hmask.
  unfold ret in Hmask. injection Hmask as <-.
  exists a', b'. split_and!; [done..| |done]. by eapply shape3_length.
Qed.

Lemma smoothing_without_mask_witness :
  SmoothnStep.process E_spec {| SmoothnStep.mask := None |} 0 1 target_ds w0
  = Return (2, 3) (World [target_u; target_v; const3 1; const3 1] [LogFilling 2])
  ∧ ∃ out_u out_v,
      [target_u; target_v; const3 1%float; const3 1%float] !! 2 = Some out_u
      ∧ [target_u; target_v; const3 1%float; const3 1%float] !! 3 = Some out_v
      ∧ length out_u = length target_u
      ∧ ∀ t pu, target_u !! t = Some pu →
          ∃ pv eu ev ru rv,
            target_v !! t = Some pv ∧ smoothn E_spec pu pv = Ok (eu, ev)
            ∧ broadcast_plane eu pu = Ok ru ∧ broadcast_plane ev pv = Ok rv
            ∧ out_u !! t = Some ru ∧ out_v !! t = Some rv.
Proof.
  assert (SmoothnStep.process E_spec {| SmoothnStep.mask := None |} 0 1 target_ds w0
          = Return (2, 3) (World [target_u; target_v; const3 1; const3 1] [LogFilling 2]))
    as Hrun by (vm_compute; reflexivity).
  split; [exact Hrun|].
  exact (smoothing_without_mask E_spec {| SmoothnStep.mask := None |} 0 1 target_ds w0 2 3 _
           target_u target_v eq_refl eq_refl eq_refl Hrun).
Defined.

(** With a mask, the cells that the mask does not mark hold what the
    engine gave for them: the mask changes the marked cells only. *)
Theorem smoothing_outside_mask E self m u v target w su sv w' ua va :
  SmoothnStep.mask self = Some m →
  heap w !! u = Some ua → heap w !! v = Some va →
  SmoothnStep.process E self u v target w = Return (su, sv) w' →
  ∃ mask_u out_u out_v,
    getitem (ds m) "U" = Ok mask_u
    ∧ heap w' !! su = Some out_u ∧ heap w' !! sv = Some out_v
    ∧ ∀ t i j pu,
        ua !! t = Some pu →
        generate_mask_no_data E (da_values mask_u) !! i ≫= (.!! j) = Some false →
        ∃ pv eu ev ru rv,
          va !! t = Some pv ∧ smoothn E pu pv = Ok (eu, ev)
          ∧ broadcast_plane eu pu = Ok ru ∧ broadcast_plane ev pv = Ok rv
          ∧ get3 out_u (t, i, j) = ru !! i ≫= (.!! j)
          ∧ get3 out_v (t, i, j) = rv !! i ≫= (.!! j).
Proof.
  intros Hsome Hu Hv Hr.
  destruct (smoothn_process_Return_inv _ _ _ _ _ _ _ _ _ _ _ Hu Hv Hr)
    as (tg & w4 & _ & _ & _ & _ & -> & -> & Hloop & Hmask).
  destruct (lookup_copies (heap w) ua va) as [Hcu Hcv].
  assert (length (heap w) ≠ S (length (heap w))) as Hne by lia.
  apply smoothn_planes in Hloop as (a' & b' & Ha' & Hb' & Hsa & Hsb & _ & Hplanes);
    [|done..].
  rewrite apply_mask_eq, Hsome in Hmask by done.
  destruct (getitem (ds m) "U") as [mask_u|]; simpl in Hmask; [|done].
  destruct (coord_size (ds tg) "time") as [T|]; simpl in Hmask; [|done].
  rewrite Ha' in Hmask.
  destruct (setmask3 a' _ _) as [a''|] eqn:Ha''; simpl in Hmask; [|done].
  rewrite Hb' in Hmask.
  destruct (setmask3 b' _ _) as [b''|] eqn:Hb''; simpl in Hmask; [|done].
  injection Hmask as <-. exists mask_u, a'', b''. simpl. split_and!; [done| | |].
  - rewrite list_lookup_insert_ne by done.
    apply list_lookup_insert_eq. eauto using lookup_lt_Some.
  - apply list_lookup_insert_eq. rewrite length_insert. eauto using lookup_lt_Some.
  - intros t i j pu Hpu Hfree.
    destruct (Hplanes t pu Hpu) as (pv & eu & ev & ru & rv & Hpv & Heng & Hru & Hrv & Hat & Hbt).
    exists pv, eu, ev, ru, rv. split_and!; [done..| |].
    + assert (t < T) as Ht.
      { pose proof Ha'' as Hshape. unfold setmask3 in Hshape.
        case_bool_decide as Hsh; [|done]. apply shape3_length in Hsh.
        unfold tile3 in Hsh. rewrite length_replicate in Hsh.
        apply lookup_lt_Some in Hat. lia. }
      destruct (get3_setmask3 a' _ nan a'' (t, i, j) false Ha'') as (y & Hy & Hout).
      { by rewrite get3_tile3. }
      transitivity (Some y); [exact Hout|].
      rewrite <-Hy. unfold get3. by rewrite Hat.
    + assert (t < T) as Ht.
      { pose proof Ha'' as Hshape. unfold setmask3 in Hshape.
        case_bool_decide as Hsh; [|done]. apply shape3_length in Hsh.
        unfold tile3 in Hsh. rewrite length_replicate in Hsh.
        apply lookup_lt_Some in Hat. lia. }
      destruct (get3_setmask3 b' _ nan b'' (t, i, j) false Hb'') as (y & Hy & Hout).
      { by rewrite get3_tile3. }
      transitivity (Some y); [exact Hout|].
      rewrite <-Hy. unfold get3. by rewrite Hbt.
Qed.

Lemma smoothing_outside_mask_witness :
  SmoothnStep.process E_spec {| SmoothnStep.mask := Some land_grid |} 0 1 target_ds w0
  = Return (2, 3) w_smoothed
  ∧ heap w_smoothed !! 2 = Some [ [[1; 1]; [1; nan]]; [[1; 1]; [1; nan]] ]%float
  ∧ ∃ mask_u out_u out_v,
      getitem (ds land_grid) "U" = Ok mask_u
      ∧ heap w_smoothed !! 2 = Some out_u ∧ heap w_smoothed !! 3 = Some out_v
      ∧ ∀ t i j pu,
          target_u !! t = Some pu →
          generate_mask_no_data E_spec (da_values mask_u) !! i ≫= (.!! j) = Some false →
          ∃ pv eu ev ru rv,
            target_v !! t = Some pv ∧ smoothn E_spec pu pv = Ok (eu, ev)
            ∧ broadcast_plane eu pu = Ok ru ∧ broadcast_plane ev pv = Ok rv
            ∧ get3 out_u (t, i, j) = ru !! i ≫= (.!! j)
            ∧ get3 out_v (t, i, j) = rv !! i ≫= (.!! j).
Proof.
  assert (SmoothnStep.process E_spec {| SmoothnStep.mask := Some land_grid |} 0 1 target_ds w0
          = Return (2, 3) w_smoothed) as Hrun by (vm_compute; reflexivity).
  split; [exact Hrun|]. split; [vm_compute; reflexivity|].
  exact (smoothing_outside_mask E_spec {| SmoothnStep.mask := Some land_grid |} land_grid
           0 1 target_ds w0 2 3 w_smoothed target_u target_v eq_refl eq_refl eq_refl Hrun).
Defined.

(** ** Validation of the mask *)

(** [SmoothnStep.do_validation] accepts a step without a mask whatever the
    target is, and a step with a mask exactly when the mask grid lies on
    the target grid: as many latitudes and longitudes (at least one of
    each) and the same first and last coordinates. *)
Theorem mask_validation_accepts_matching_mask self target :
  SmoothnStep.do_validation self target = Ok ()
  ↔ match SmoothnStep.mask self with
    | None => True
    | Some m => mask_matches target m
    end.
Proof.
  unfold SmoothnStep.do_validation, mask_matches, get_coords, and_then.
  destruct (SmoothnStep.mask self) as [m|]; [|done].
  unfold index, index_last. rewrite <-!head_lookup.
  destruct (head (lats target)) as [tlat0|] eqn:Htlat0; simpl.
  2: { split; [done | intros (_ & _ & ? & ? & ? & ? & ? & ? & ? & ? & [=] & _)]. }
  destruct (head (lons target)) as [tlon0|] eqn:Htlon0; simpl.
  2: { split; [done | intros (_ & _ & ? & ? & ? & ? & ? & ? & ? & ? & _ & _ & [=] & _)]. }
  destruct (last (lats target)) as [tlat1|] eqn:Htlat1; simpl.
  2: { split; [done | intros (_ & _ & ? & ? & ? & ? & ? & ? & ? & ? & _ & [=] & _)]. }
  destruct (last (lons target)) as [tlon1|] eqn:Htlon1; simpl.
  2: { split; [done | intros (_ & _ & ? & ? & ? & ? & ? & ? & ? & ? & _ & _ & _ & [=] & _)]. }
  case_bool_decide as Hlat; simpl.
  2: { split; [done | by intros (? & _)]. }
  case_bool_decide as Hlon; simpl.
  2: { split; [done | by intros (_ & ? & _)]. }
  destruct (head (lats m)) as [mlat0|] eqn:Hmlat0; simpl.
  2: { split; [done | intros (_ & _ & ? & ? & ? & ? & ? & ? & ? & ? & _ & _ & _ & _ & [=] & _)]. }
  destruct (last (lats m)) as [mlat1|] eqn:Hmlat1.
  2: { apply last_None in Hmlat1. by rewrite Hmlat1 in Hmlat0. }
  destruct (head (lons m)) as [mlon0|] eqn:Hmlon0.
  2: { apply head_None in Hmlon0. rewrite Hmlon0 in Hlon.
       apply nil_length_inv in Hlon. by rewrite Hlon in Htlon0. }
  destruct (last (lons m)) as [mlon1|] eqn:Hmlon1.
  2: { apply last_None in Hmlon1. by rewrite Hmlon1 in Hmlon0. }
  split.
  - intros H. split_and!; [done..|].
    exists tlat0, tlat1, tlon0, tlon1, mlat0, mlat1, mlon0, mlon1.
    destruct (mlat0 =? tlat0)%float; simpl in H.
    + destruct (mlat1 =? tlat1)%float; simpl in H.
      * destruct (mlon0 =? tlon0)%float; simpl in H; [|done].
        destruct (mlon1 =? tlon1)%float; simpl in H; [|done]. split_and!; done.
      * destruct (mlon0 =? tlon0)%float; simpl in H; [|done].
        by destruct (mlon1 =? tlon1)%float.
    + destruct (mlon0 =? tlon0)%float; simpl in H; [|done].
      by destruct (mlon1 =? tlon1)%float.
  - intros (_ & _ & a0 & a1 & b0 & b1 & c0 & c1 & d0 & d1
            & Ha & Hb & Hc & Hd & He & Hf & Hg & Hh & H1 & H2 & H3 & H4).
    injection Ha as <-. injection Hb as <-. injection Hc as <-. injection Hd as <-.
    injection He as <-. injection Hf as <-. injection Hg as <-. injection Hh as <-.
    simpl. by rewrite H1, H2, H3, H4.
Qed.

(** A mask with another number of latitudes or longitudes than the target
    stops the step before anything is smoothed: [process] raises
    [ValueError], the engine is not called, and nothing is logged or
    copied. *)
Theorem mask_of_other_size_aborts E self m u v target w tg :
  SurfaceGrid_init E target = Ok tg →
  SmoothnStep.mask self = Some m →
  lats tg ≠ [] → lons tg ≠ [] →
  length (lats m) ≠ length (lats tg) ∨ length (lons m) ≠ length (lons tg) →
  SmoothnStep.process E self u v target w
  = Raise (ValueError "Mask is not the same lat/lon shape as target") w.
Proof.
  intros Htg Hm Hlats Hlons Hsize. rewrite smoothn_process_eq, Htg.
  unfold SmoothnStep.do_validation, get_coords. rewrite Hm.
  unfold index, index_last.
  destruct (lats tg) as [|lat0 lats'] eqn:Hl; [done|].
  destruct (lons tg) as [|lon0 lons'] eqn:Hn; [done|]. simpl.
  destruct (last (lat0 :: lats')) as [lat1|] eqn:Hlat1; [|by apply last_None in Hlat1].
  destruct (last (lon0 :: lons')) as [lon1|] eqn:Hlon1; [|by apply last_None in Hlon1].
  simpl.
  destruct Hsize as [Hsize|Hsize].
  - rewrite bool_decide_eq_false_2 by (simpl in Hsize; congruence). done.
  - rewrite (bool_decide_eq_false_2 (S (length lons') = _)) by (simpl in Hsize; congruence).
    by rewrite andb_false_r.
Qed.

Lemma mask_of_other_size_aborts_witness :
  length (lons narrow_grid) ≠ length (lons target_grid)
  ∧ SmoothnStep.process E_spec {| SmoothnStep.mask := Some narrow_grid |} 0 1 target_ds w0
    = Raise (ValueError "Mask is not the same lat/lon shape as target") w0.
Proof.
  split; [vm_compute; lia|].
  apply (mask_of_other_size_aborts E_spec {| SmoothnStep.mask := Some narrow_grid |}
           narrow_grid 0 1 target_ds w0 target_grid).
  - vm_compute; reflexivity.
  - reflexivity.
  - vm_compute; discriminate.
  - vm_compute; discriminate.
  - right. vm_compute; lia.
Defined.

(** ** When the smoothing step returns *)

Lemma shape3_lookup {A B} (a : nd3 A) (b : nd3 B) t pa pb :
  shape3 a = shape3 b → a !! t = Some pa → b !! t = Some pb →
  length <$> pa = length <$> pb.
Proof.
  intros Hsh Ha Hb.
  assert (shape3 a !! t = shape3 b !! t) as Ht by (by rewrite Hsh).
  unfold shape3 in Ht. change map with (@fmap list _) in Ht.
  rewrite !list_lookup_fmap, Ha, Hb in Ht. by injection Ht.
Qed.

Section smooth_total.
Context (E : externals) (lu lv : loc) (Hne : lu ≠ lv).

(** The loop returns when the engine returns, for every time step of the
    range, two fields of the shapes of the planes it was given. *)
Lemma smooth_fields_total u_list v_list range w a b :
  (∀ t, t ∈ range →
     ∃ pu pv eu ev,
       u_list !! t = Some pu ∧ v_list !! t = Some pv ∧ smoothn E pu pv = Ok (eu, ev)
       ∧ length <$> eu = length <$> pu ∧ length <$> ev = length <$> pv) →
  heap w !! lu = Some a → heap w !! lv = Some b →
  shape3 a = shape3 u_list → shape3 b = shape3 v_list →
  ∃ w', SmoothnStep.smooth_fields E lu lv u_list v_list range w = Return () w'.
Proof.
  revert w a b. induction range as [|i range IH]; intros w a b Heng Ha Hb Hsa Hsb; simpl.
  - by eexists.
  - unfold bind. rewrite smooth_field_eq by done.
    destruct (Heng i) as (pu & pv & eu & ev & Hpu & Hpv & Hsm & Hseu & Hsev); [left|].
    unfold index. rewrite Hpu, Hpv, Hsm, Ha.
    destruct (lookup_lt_is_Some_2 a i) as [qa Hqa].
    { rewrite (shape3_length a u_list Hsa). eauto using lookup_lt_Some. }
    destruct (lookup_lt_is_Some_2 b i) as [qb Hqb].
    { rewrite (shape3_length b v_list Hsb). eauto using lookup_lt_Some. }
    assert (length <$> eu = length <$> qa) as Hea
      by (rewrite Hseu; symmetry; exact (shape3_lookup a u_list i qa pu Hsa Hqa Hpu)).
    assert (length <$> ev = length <$> qb) as Heb
      by (rewrite Hsev; symmetry; exact (shape3_lookup b v_list i qb pv Hsb Hqb Hpv)).
    unfold set_plane, index. rewrite Hqa. simpl.
    rewrite (broadcast_plane_same eu qa Hea). simpl.
    rewrite Hb, Hqb. simpl.
    rewrite (broadcast_plane_same ev qb Heb). simpl.
    apply (IH _ (<[i := eu]> a) (<[i := ev]> b)).
    + intros t Ht. apply Heng. by right.
    + simpl. rewrite list_lookup_insert_ne by done.
      apply list_lookup_insert_eq. eauto using lookup_lt_Some.
    + simpl. apply list_lookup_insert_eq. rewrite length_insert. eauto using lookup_lt_Some.
    + rewrite <-Hsa. apply (set_plane_shape a i eu).
      unfold set_plane, index. rewrite Hqa. simpl.
      by rewrite (broadcast_plane_same eu qa Hea).
    + rewrite <-Hsb. apply (set_plane_shape b i ev).
      unfold set_plane, index. rewrite Hqb. simpl.
      by rewrite (broadcast_plane_same ev qb Heb).
Qed.

End smooth_total.

(** Without a mask, [SmoothnStep.process] returns whenever the grid of the
    target is built, the engine starts and quits without an exception, U
    and V have one shape and the engine returns, for every time step, two
    fields of the shape of the planes it was given; the planes of the
    returned arrays are then the fields that the engine returned. *)
Theorem smoothing_returns E self u v target w ua va tg :
  SurfaceGrid_init E target = Ok tg →
  start_matlab E = Ok () → quit_engine E = Ok () →
  SmoothnStep.mask self = None →
  heap w !! u = Some ua → heap w !! v = Some va → shape3 va = shape3 ua →
  (∀ t pu pv, ua !! t = Some pu → va !! t = Some pv →
     ∃ eu ev, smoothn E pu pv = Ok (eu, ev)
              ∧ length <$> eu = length <$> pu ∧ length <$> ev = length <$> pv) →
  ∃ w' out_u out_v,
    SmoothnStep.process E self u v target w
    = Return (length (heap w), S (length (heap w))) w'
    ∧ heap w' !! length (heap w) = Some out_u ∧ heap w' !! S (length (heap w)) = Some out_v
    ∧ ∀ t pu pv, ua !! t = Some pu → va !! t = Some pv →
        ∃ eu ev, smoothn E pu pv = Ok (eu, ev)
                 ∧ out_u !! t = Some eu ∧ out_v !! t = Some ev.
Proof.
  intros Htg Hstart Hquit Hnone Hu Hv Hsh Heng.
  destruct (lookup_copies (heap w) ua va) as [Hcu Hcv].
  assert (length (heap w) ≠ S (length (heap w))) as Hne by lia.
  destruct (smooth_fields_total E _ _ Hne ua va (seq 0 (length ua))
              (World (heap w ++ [ua; va]) (log w ++ [LogFilling (length ua)])) ua va)
    as [w4 Hloop]; [|exact Hcu|exact Hcv|done|done|].
  { intros t Ht. apply elem_of_seq in Ht as [_ Ht]. simpl in Ht.
    destruct (lookup_lt_is_Some_2 ua t Ht) as [pu Hpu].
    destruct (lookup_lt_is_Some_2 va t) as [pv Hpv].
    { by rewrite (shape3_length va ua Hsh). }
    destruct (Heng t pu pv Hpu Hpv) as (eu & ev & ? & ? & ?).
    by exists pu, pv, eu, ev. }
  assert (SmoothnStep.process E self u v target w
          = Return (length (heap w), S (length (heap w))) w4) as Hrun.
  { rewrite smoothn_process_eq, Htg. unfold SmoothnStep.do_validation. rewrite Hnone.
    rewrite Hstart, Hu, (lookup_app_l_Some _ _ _ _ Hv). simpl. rewrite Hloop.
    unfold SmoothnStep.apply_mask. rewrite Hnone. unfold ret. by rewrite Hquit. }
  apply smoothn_planes in Hloop as (a' & b' & Ha' & Hb' & Hsa & Hsb & _ & Hplanes);
    [|done..].
  exists w4, a', b'. split_and!; [done..|].
  intros t pu pv Hpu Hpv.
  destruct (Hplanes t pu Hpu) as (pv' & eu & ev & ru & rv & Hpv' & Hsm & Hru & Hrv & Hat & Hbt).
  assert (pv' = pv) as -> by congruence.
  destruct (Heng t pu pv Hpu Hpv) as (eu' & ev' & Hsm' & Hseu & Hsev).
  assert (eu' = eu ∧ ev' = ev) as [-> ->] by (split; congruence).
  rewrite broadcast_plane_same in Hru, Hrv by done.
  exists eu, ev. split_and!; congruence.
Qed.

Lemma smoothing_returns_witness :
  start_matlab E_spec = Ok () ∧ quit_engine E_spec = Ok ()
  ∧ shape3 target_v = shape3 target_u
  ∧ ∃ w' out_u out_v,
      SmoothnStep.process E_spec {| SmoothnStep.mask := None |} 0 1 target_ds w0
      = Return (length (heap w0), S (length (heap w0))) w'
      ∧ heap w' !! length (heap w0) = Some out_u
      ∧ heap w' !! S (length (heap w0)) = Some out_v
      ∧ ∀ t pu pv, target_u !! t = Some pu → target_v !! t = Some pv →
          ∃ eu ev, smoothn E_spec pu pv = Ok (eu, ev)
                   ∧ out_u !! t = Some eu ∧ out_v !! t = Some ev.
Proof.
  split; [reflexivity|]. split; [reflexivity|]. split; [reflexivity|].
  apply (smoothing_returns E_spec {| SmoothnStep.mask := None |} 0 1 target_ds w0
           target_u target_v target_grid).
  - vm_compute; reflexivity.
  - reflexivity.
  - reflexivity.
  - reflexivity.
  - reflexivity.
  - reflexivity.
  - reflexivity.
  - intros t pu pv Hpu Hpv. simpl. unfold smoothn_ones.
    eexists _, _. split; [reflexivity|]. change map with (@fmap list _).
    rewrite <-!list_fmap_compose. split; apply list_fmap_ext; intros ? row _; simpl;
      by rewrite length_fmap.
Defined.

(** ** Building a pipeline *)

Lemma add_steps_Ok self args s' :
  Gapfiller.add_steps self args = Ok s'
  ↔ forallb is_step args = true ∧ Gapfiller.steps s' = Gapfiller.steps self ++ args.
Proof.
  revert self. induction args as [|[s|] args IH]; intros self; simpl.
  - rewrite app_nil_r. split.
    + by intros [= <-].
    + intros [_ H]. destruct self, s'. simpl in *. by subst.
  - rewrite IH. simpl. by rewrite <-app_assoc.
  - split; [done | by intros [? _]].
Qed.

(** [Gapfiller.add_steps] returns exactly when every argument is an
    instance of [GapfillStep]; the steps of the object are then those it
    had, followed by the arguments in their order. *)
Theorem add_steps_appends_in_order self args s' :
  Gapfiller.add_steps self args = Ok s'
  ↔ forallb is_step args = true ∧ Gapfiller.steps s' = Gapfiller.steps self ++ args.
Proof. apply add_steps_Ok. Qed.

(** [add_steps] is not all-or-nothing: it appends while it checks.  When
    an argument is not a step, [TypeError] is raised and the steps that
    came before that argument have been added to the pipeline already;
    when every argument is a step, the call agrees with the model that
    returns the new object. *)
Theorem add_steps_keeps_what_it_appended self pre post :
  forallb is_step pre = true →
  add_steps_in_place self (pre ++ PyOther :: post)
  = ({| Gapfiller.steps := Gapfiller.steps self ++ pre |},
     Some (TypeError "object is not a proper gapfilling step."))
  ∧ Gapfiller.add_steps self (pre ++ PyOther :: post)
    = Err (TypeError "object is not a proper gapfilling step.")
  ∧ add_steps_in_place self pre = ({| Gapfiller.steps := Gapfiller.steps self ++ pre |}, None)
  ∧ Gapfiller.add_steps self pre = Ok {| Gapfiller.steps := Gapfiller.steps self ++ pre |}.
Proof.
  revert self. induction pre as [|[s|] pre IH]; intros self Hpre; simpl in *; [| |done].
  - rewrite app_nil_r. by destruct self.
  - destruct (IH {| Gapfiller.steps := Gapfiller.steps self ++ [PyStep s] |} Hpre)
      as (H1 & H2 & H3 & H4).
    simpl in *. rewrite <-!app_assoc in *. simpl in *. done.
Qed.

Lemma add_steps_keeps_what_it_appended_witness :
  forallb is_step (Gapfiller.steps copy_pipeline) = true
  ∧ add_steps_in_place (Gapfiller.init []) (Gapfiller.steps copy_pipeline ++ PyOther :: [])
    = ({| Gapfiller.steps := Gapfiller.steps (Gapfiller.init []) ++ Gapfiller.steps copy_pipeline |},
       Some (TypeError "object is not a proper gapfilling step."))
  ∧ Gapfiller.add_steps (Gapfiller.init []) (Gapfiller.steps copy_pipeline ++ PyOther :: [])
    = Err (TypeError "object is not a proper gapfilling step.")
  ∧ add_steps_in_place (Gapfiller.init []) (Gapfiller.steps copy_pipeline)
    = ({| Gapfiller.steps := Gapfiller.steps (Gapfiller.init []) ++ Gapfiller.steps copy_pipeline |},
       None)
  ∧ Gapfiller.add_steps (Gapfiller.init []) (Gapfiller.steps copy_pipeline)
    = Ok {| Gapfiller.steps := Gapfiller.steps (Gapfiller.init []) ++ Gapfiller.steps copy_pipeline |}.
Proof.
  split; [reflexivity|].
  apply (add_steps_keeps_what_it_appended (Gapfiller.init []) (Gapfiller.steps copy_pipeline) []).
  reflexivity.
Defined.

(** ** Pipelines from a configuration *)




(** ** Running a pipeline *)

(** When [Gapfiller.execute] returns, whatever the steps are: the steps
    were run in order on copies of the U and V arrays of the target, the
    dataset returned has the coordinates and the attributes of the target
    and its variables other than U and V, and U and V hold the arrays that
    the last step returned, of the sizes of the coordinates, under the
    dimension names and attributes of the target's U and V. *)
Theorem execute_returns_the_last_arrays self target w out w' :
  Gapfiller.execute self target w = Return out w' →
  ∃ var_u var_v u' v' w1 ua' va',
    data_vars target !! "U" = Some var_u ∧ data_vars target !! "V" = Some var_v
    ∧ Gapfiller.run_steps (Gapfiller.steps self) (length (heap w)) (S (length (heap w))) target
        (World (heap w ++ [var_values var_u; var_values var_v]) (log w ++ [LogExecuting]))
      = Return (u', v') w1
    ∧ heap w1 !! u' = Some ua' ∧ heap w1 !! v' = Some va'
    ∧ w' = World (heap w1) (log w1 ++ [LogCompleted])
    ∧ coords out = coords target ∧ ds_attrs out = ds_attrs target
    ∧ (∀ n, n ≠ "U" → n ≠ "V" → data_vars out !! n = data_vars target !! n)
    ∧ data_vars out !! "U"
      = Some {| var_dims := var_dims var_u; var_values := ua'; var_attrs := var_attrs var_u |}
    ∧ data_vars out !! "V"
      = Some {| var_dims := var_dims var_v; var_values := va'; var_attrs := var_attrs var_v |}
    ∧ fits ua' (filter (λ '(c, _), c ∈ var_dims var_u) (coords target)) (var_dims var_u) = true
    ∧ fits va' (filter (λ '(c, _), c ∈ var_dims var_v) (coords target)) (var_dims var_v) = true.
Proof.
  unfold Gapfiller.execute. unfold_M. unfold getitem.
  destruct (data_vars target !! "U") as [var_u|] eqn:HU; simpl; [|done].
  destruct (data_vars target !! "V") as [var_v|] eqn:HV; simpl; [|done].
  rewrite length_app, Nat.add_1_r, <-app_assoc. simpl.
  destruct (Gapfiller.run_steps _ _ _ _ _) as [[u' v'] w1|e w1] eqn:Hrun; simpl; [|done].
  destruct (heap w1 !! u') as [ua'|] eqn:Hu'; simpl; [|done].
  unfold conv_to_dataarray, new_DataArray. simpl.
  destruct (fits ua' _ _) eqn:HfitU; simpl; [|done].
  destruct (heap w1 !! v') as [va'|] eqn:Hv'; simpl; [|done].
  destruct (fits va' _ _) eqn:HfitV; simpl; [|done].
  unfold drop_vars. simpl. rewrite HU, HV. simpl.
  unfold assign1. simpl. rewrite merge_coords_filter. simpl.
  rewrite merge_coords_filter. simpl.
  intros [= <- <-].
  exists var_u, var_v, u', v', w1, ua', va'. simpl.
  pose proof (lookup_replaced (data_vars target)
                {| var_dims := var_dims var_u; var_values := ua'; var_attrs := var_attrs var_u |}
                {| var_dims := var_dims var_v; var_values := va'; var_attrs := var_attrs var_v |})
    as Hlookup. simpl in Hlookup.
  split_and!; try done.
  intros n HnU HnV. rewrite Hlookup. by rewrite !decide_False.
Qed.

Lemma execute_returns_the_last_arrays_witness :
  Gapfiller.execute copy_pipeline target_ds (World [] [])
  = Return target_ds
      (World [target_u; target_v; target_u; target_v]
             [LogExecuting; LogTargetInvalid 6; LogInterpolated 6; LogCompleted])
  ∧ ∃ var_u var_v u' v' w1 ua' va',
      data_vars target_ds !! "U" = Some var_u ∧ data_vars target_ds !! "V" = Some var_v
      ∧ Gapfiller.run_steps (Gapfiller.steps copy_pipeline) 0 1 target_ds
          (World ([] ++ [var_values var_u; var_values var_v]) ([] ++ [LogExecuting]))
        = Return (u', v') w1
      ∧ heap w1 !! u' = Some ua' ∧ heap w1 !! v' = Some va'
      ∧ World [target_u; target_v; target_u; target_v]
              [LogExecuting; LogTargetInvalid 6; LogInterpolated 6; LogCompleted]
        = World (heap w1) (log w1 ++ [LogCompleted])
      ∧ coords target_ds = coords target_ds ∧ ds_attrs target_ds = ds_attrs target_ds
      ∧ (∀ n, n ≠ "U" → n ≠ "V" → data_vars target_ds !! n = data_vars target_ds !! n)
      ∧ data_vars target_ds !! "U"
        = Some {| var_dims := var_dims var_u; var_values := ua'; var_attrs := var_attrs var_u |}
      ∧ data_vars target_ds !! "V"
        = Some {| var_dims := var_dims var_v; var_values := va'; var_attrs := var_attrs var_v |}
      ∧ fits ua' (filter (λ '(c, _), c ∈ var_dims var_u) (coords target_ds)) (var_dims var_u)
        = true
      ∧ fits va' (filter (λ '(c, _), c ∈ var_dims var_v) (coords target_ds)) (var_dims var_v)
        = true.
Proof.
  assert (Gapfiller.execute copy_pipeline target_ds (World [] [])
          = Return target_ds
              (World [target_u; target_v; target_u; target_v]
                     [LogExecuting; LogTargetInvalid 6; LogInterpolated 6; LogCompleted]))
    as Hrun by (vm_compute; reflexivity).
  split; [exact Hrun|].
  exact (execute_returns_the_last_arrays copy_pipeline target_ds (World [] []) _ _ Hrun).
Defined.

(** A target without a variable named U, or without one named V, makes
    [Gapfiller.execute] raise [KeyError] before any step is run: for U
    right after the first message, for V after U has been copied. *)
Theorem execute_needs_u_and_v self target w :
  match data_vars target !! "U", data_vars target !! "V" with
  | None, _ =>
      Gapfiller.execute self target w
      = Raise (KeyError "U") (World (heap w) (log w ++ [LogExecuting]))
  | Some var_u, None =>
      Gapfiller.execute self target w
      = Raise (KeyError "V") (World (heap w ++ [var_values var_u]) (log w ++ [LogExecuting]))
  | Some _, Some _ => True
  end.
Proof.
  unfold Gapfiller.execute. unfold_M. unfold getitem.
  destruct (data_vars target !! "U") as [var_u|]; simpl; [|done].
  by destruct (data_vars target !! "V") as [var_v|].
Qed.

Lemma take_prefix {A} (l h : list A) n :
  take (length h) l = h → n ≤ length h → take n l = take n h ∧ length h ≤ length l.
Proof.
  intros H Hn. split.
  - transitivity (take n (take (length h) l)); [|by rewrite H].
    rewrite take_take. by rewrite Nat.min_l.
  - assert (length (take (length h) l) = length h) as Hlen by (by rewrite H).
    rewrite length_take in Hlen. lia.
Qed.

Lemma run_steps_take E steps target :
  Forall (module_step E) steps →
  ∀ u v w n, n ≤ length (heap w) →
    take n (heap (world_of (Gapfiller.run_steps steps u v target w))) = take n (heap w).
Proof.
  induction 1 as [|o steps Ho _ IH]; intros u v w n Hn; simpl; [done|].
  destruct Ho as [[s ->] | [s ->]]; simpl; unfold bind, step_process.
  - destruct (take_prefix _ _ n (interpolation_keeps_heap E s u v target w) Hn) as [Ht Hlen].
    unfold InterpolationStep_GapfillStep.
    destruct (InterpolationStep.process E s u v target w) as [[u' v'] w1|e w1];
      simpl in *; [|done].
    rewrite IH by lia. done.
  - destruct (take_prefix _ _ n (smoothing_keeps_heap E s u v target w) Hn) as [Ht Hlen].
    unfold SmoothnStep_GapfillStep.
    destruct (SmoothnStep.process E s u v target w) as [[u' v'] w1|e w1];
      simpl in *; [|done].
    rewrite IH by lia. done.
Qed.

(** Whatever its outcome, [Gapfiller.execute] with steps of the two
    classes of the module leaves every array of the world as it was: the
    pipeline runs on copies of the target's U and V, and every step
    copies what it is given. *)
Theorem execute_works_on_copies E self target w :
  Forall (module_step E) (Gapfiller.steps self) →
  take (length (heap w)) (heap (world_of (Gapfiller.execute self target w))) = heap w.
Proof.
  intros Hsteps. unfold Gapfiller.execute. unfold_M. unfold getitem.
  destruct (data_vars target !! "U") as [var_u|]; simpl; [|by rewrite firstn_all].
  destruct (data_vars target !! "V") as [var_v|]; simpl; [|by rewrite take_app_length].
  rewrite length_app, Nat.add_1_r, <-app_assoc. simpl.
  pose proof (run_steps_take E (Gapfiller.steps self) target Hsteps
                (length (heap w)) (S (length (heap w)))
                (World (heap w ++ [var_values var_u; var_values var_v])
                       (log w ++ [LogExecuting]))
                (length (heap w))) as Htake.
  simpl in Htake. rewrite length_app, take_app_length in Htake.
  specialize (Htake ltac:(lia)).
  destruct (Gapfiller.run_steps _ _ _ _ _) as [[u' v'] w1|e w1]; simpl in *; [|done].
  destruct (heap w1 !! u') as [ua'|]; simpl; [|done].
  unfold conv_to_dataarray, new_DataArray. simpl.
  destruct (fits ua' _ _); simpl; [|done].
  destruct (heap w1 !! v') as [va'|]; simpl; [|done].
  destruct (fits va' _ _); simpl; [|done].
  destruct (drop_vars _ _) as [dropped|]; [|done]. cbv beta iota.
  destruct (assign1 dropped "U" _) as [d1|]; simpl; [|done].
  by destruct (assign1 d1 "V" _) as [d2|].
Qed.

Lemma execute_works_on_copies_witness :
  Forall (module_step E_spec) (Gapfiller.steps copy_pipeline)
  ∧ take (length (heap w0)) (heap (world_of (Gapfiller.execute copy_pipeline target_ds w0)))
    = heap w0.
Proof.
  assert (Forall (module_step E_spec) (Gapfiller.steps copy_pipeline)) as Hsteps.
  { constructor; [|constructor]. left. by eexists. }
  split; [exact Hsteps|].
  exact (execute_works_on_copies E_spec copy_pipeline target_ds w0 Hsteps).
Defined.

(** ** Pipelines of the steps of the module *)

Lemma run_steps_shape E steps target :
  Forall (module_step E) steps →
  ∀ u v w ua va u' v' w',
    heap w !! u = Some ua → heap w !! v = Some va →
    Gapfiller.run_steps steps u v target w = Return (u', v') w' →
    ∃ ua' va', heap w' !! u' = Some ua' ∧ heap w' !! v' = Some va'
               ∧ shape3 ua' = shape3 ua ∧ shape3 va' = shape3 va.
Proof.
  induction 1 as [|o steps Ho _ IH]; intros u v w ua va u' v' w' Hu Hv Hrun; simpl in Hrun.
  - unfold ret in Hrun. simplify_eq. by exists ua, va.
  - destruct Ho as [[s ->] | [s ->]]; simpl in Hrun; unfold bind, step_process in Hrun.
    + unfold InterpolationStep_GapfillStep in Hrun.
      destruct (InterpolationStep.process E s u v target w) as [[u1 v1] w1|e w1] eqn:Hstep;
        [|done].
      destruct (interpolation_shape _ _ _ _ _ _ _ _ _ _ _ Hu Hv Hstep)
        as (ua1 & va1 & Hu1 & Hv1 & Hsu & Hsv).
      destruct (IH _ _ _ _ _ _ _ _ Hu1 Hv1 Hrun) as (ua' & va' & ? & ? & ? & ?).
      exists ua', va'. split_and!; [done..|congruence|congruence].
    + unfold SmoothnStep_GapfillStep in Hrun.
      destruct (SmoothnStep.process E s u v target w) as [[u1 v1] w1|e w1] eqn:Hstep;
        [|done].
      destruct (smoothing_shape _ _ _ _ _ _ _ _ _ _ _ Hu Hv Hstep)
        as (ua1 & va1 & Hu1 & Hv1 & Hsu & Hsv).
      destruct (IH _ _ _ _ _ _ _ _ Hu1 Hv1 Hrun) as (ua' & va' & ? & ? & ? & ?).
      exists ua', va'. split_and!; [done..|congruence|congruence].
Qed.

(** A pipeline of steps of the two classes of the module keeps the
    envelope of the dataset whenever it returns: the result has the
    dimensions, the coordinates and the attributes of the target and its
    variables other than U and V, and its U and V have the shapes of the
    target's U and V. *)
Theorem pipeline_of_module_steps_keeps_envelope E self target w out w' :
  Forall (module_step E) (Gapfiller.steps self) →
  Gapfiller.execute self target w = Return out w' →
  ∃ var_u var_v u' v',
    data_vars target !! "U" = Some var_u ∧ data_vars target !! "V" = Some var_v
    ∧ data_vars out !! "U"
      = Some {| var_dims := var_dims var_u; var_values := u'; var_attrs := var_attrs var_u |}
    ∧ data_vars out !! "V"
      = Some {| var_dims := var_dims var_v; var_values := v'; var_attrs := var_attrs var_v |}
    ∧ shape3 u' = shape3 (var_values var_u)
    ∧ shape3 v' = shape3 (var_values var_v)
    ∧ (∀ x, x ∈ ds_dims out ↔ x ∈ ds_dims target)
    ∧ coords out = coords target
    ∧ ds_attrs out = ds_attrs target
    ∧ (∀ n, n ≠ "U" → n ≠ "V" → data_vars out !! n = data_vars target !! n).
Proof.
  intros Hsteps. unfold Gapfiller.execute. unfold_M. unfold getitem.
  destruct (data_vars target !! "U") as [var_u|] eqn:HU; simpl; [|done].
  destruct (data_vars target !! "V") as [var_v|] eqn:HV; simpl; [|done].
  rewrite length_app, Nat.add_1_r, <-app_assoc. simpl.
  destruct (Gapfiller.run_steps _ _ _ _ _) as [[u' v'] w1|e w1] eqn:Hrun; simpl; [|done].
  destruct (lookup_copies (heap w) (var_values var_u) (var_values var_v)) as [Hcu Hcv].
  pose proof Hrun as Hshape.
  eapply (run_steps_shape E _ target Hsteps) in Hshape
    as (ua' & va' & Hu' & Hv' & Hsu & Hsv); [|exact Hcu|exact Hcv].
  rewrite Hu'. simpl.
  unfold conv_to_dataarray, new_DataArray. simpl.
  destruct (fits ua' _ _) eqn:HfitU; simpl; [|done].
  rewrite Hv'. simpl.
  destruct (fits va' _ _) eqn:HfitV; simpl; [|done].
  unfold drop_vars. simpl. rewrite HU, HV. simpl.
  unfold assign1. simpl. rewrite merge_coords_filter. simpl.
  rewrite merge_coords_filter. simpl.
  intros [= <- <-].
  exists var_u, var_v, ua', va'. simpl.
  pose proof (lookup_replaced (data_vars target)
                {| var_dims := var_dims var_u; var_values := ua'; var_attrs := var_attrs var_u |}
                {| var_dims := var_dims var_v; var_values := va'; var_attrs := var_attrs var_v |})
    as Hlookup. simpl in Hlookup.
  split_and!; try done.
  - intros x. rewrite !elem_of_ds_dims. simpl.
    split; (intros [Hc|Hvar]; [by left | right; revert Hvar]).
    + intros (n & var & Hn & Hx). rewrite Hlookup in Hn.
      destruct (decide (n = "V")) as [->|]; [|destruct (decide (n = "U")) as [->|]];
        simplify_eq.
      * exists "V", var_v. split; [done|]. unfold var_dim_sizes in *. simpl in *.
        by rewrite <-(shape3_shape_of _ _ Hsv).
      * exists "U", var_u. split; [done|]. unfold var_dim_sizes in *. simpl in *.
        by rewrite <-(shape3_shape_of _ _ Hsu).
      * eauto.
    + intros (n & var & Hn & Hx).
      destruct (decide (n = "V")) as [->|HnV]; [|destruct (decide (n = "U")) as [->|HnU]];
        simplify_eq.
      * eexists "V", _. rewrite Hlookup. split; [done|]. unfold var_dim_sizes in *. simpl.
        by rewrite (shape3_shape_of _ _ Hsv).
      * eexists "U", _. rewrite Hlookup. split; [done|]. unfold var_dim_sizes in *. simpl.
        by rewrite (shape3_shape_of _ _ Hsu).
      * exists n, var. rewrite Hlookup. by rewrite !decide_False.
  - intros n HnU HnV. rewrite Hlookup. by rewrite !decide_False.
Qed.

Lemma pipeline_of_module_steps_keeps_envelope_witness :
  Forall (module_step E_spec) (Gapfiller.steps full_pipeline)
  ∧ ∃ w',
      Gapfiller.execute full_pipeline target_ds (World [] []) = Return smoothed_ds w'
      ∧ ∃ var_u var_v u' v',
          data_vars target_ds !! "U" = Some var_u ∧ data_vars target_ds !! "V" = Some var_v
          ∧ data_vars smoothed_ds !! "U"
            = Some {| var_dims := var_dims var_u; var_values := u';
                      var_attrs := var_attrs var_u |}
          ∧ data_vars smoothed_ds !! "V"
            = Some {| var_dims := var_dims var_v; var_values := v';
                      var_attrs := var_attrs var_v |}
          ∧ shape3 u' = shape3 (var_values var_u)
          ∧ shape3 v' = shape3 (var_values var_v)
          ∧ (∀ x, x ∈ ds_dims smoothed_ds ↔ x ∈ ds_dims target_ds)
          ∧ coords smoothed_ds = coords target_ds
          ∧ ds_attrs smoothed_ds = ds_attrs target_ds
          ∧ (∀ n, n ≠ "U" → n ≠ "V" →
               data_vars smoothed_ds !! n = data_vars target_ds !! n).
Proof.
  assert (Forall (module_step E_spec) (Gapfiller.steps full_pipeline)) as Hsteps.
  { constructor; [left; by eexists|]. constructor; [right; by eexists|]. constructor. }
  split; [exact Hsteps|].
  assert (Gapfiller.execute full_pipeline target_ds (World [] [])
          = Return smoothed_ds
              (World [target_u; target_v;
                      [ [[0.75; 0.5]; [0.25; 0.25]]; [[0.75; 0.5]; [0.25; 0.25]] ];
                      [ [[0.375; 0.5]; [0.125; 0.125]]; [[0.375; 0.5]; [0.125; 0.125]] ];
                      smoothed_u; smoothed_u]%float
                     [LogExecuting; LogTargetInvalid 6; LogAttempt 6; LogAfterRef 4 2;
                      LogAttempt 4; LogAfterRef 0 4; LogInterpolated 0; LogFilling 2;
                      LogCompleted])) as Hrun by (vm_compute; reflexivity).
  eexists. split; [exact Hrun|].
  exact (pipeline_of_module_steps_keeps_envelope E_spec full_pipeline target_ds (World [] [])
           _ _ Hsteps Hrun).
Defined.

(** ** The envelope of the dataset *)

(** The steps of the two classes of the module preserve the shape of the
    arrays. *)
Lemma module_step_preserves_shape E target o :
  module_step E o → preserves_shape target o.
Proof.
  intros [[s ->] | [s ->]]; simpl; intros u v w ua va u' v' w' Hu Hv Hrun.
  - by eapply interpolation_shape.
  - by eapply smoothing_shape.
Qed.

(** C7: for every input dataset and every sequence of steps that preserve
    the shape of the arrays (whenever a step returns, it returns arrays of
    the shapes it was given, as the two steps of the module do),
    [Gapfiller.execute] preserves the envelope of the dataset: a dataset
    that it returns has the dimensions, the coordinate arrays and the
    attributes of the input, every variable other than U and V is the
    input's, and U and V are replaced by arrays of the input's shapes under
    the dimension names and attributes of the input's U and V.  It returns
    such a dataset whenever the input exposes U and V and the steps, run in
    order on copies of them, return. *)
Theorem execute_preserves_envelope self target w :
  Forall (preserves_shape target) (Gapfiller.steps self) →
  (∀ out w',
     Gapfiller.execute self target w = Return out w' →
     ∃ var_u var_v u' v',
       data_vars target !! "U" = Some var_u ∧ data_vars target !! "V" = Some var_v
       ∧ (∀ x, x ∈ ds_dims out ↔ x ∈ ds_dims target)
       ∧ coords out = coords target
       ∧ ds_attrs out = ds_attrs target
       ∧ (∀ n, n ≠ "U" → n ≠ "V" → data_vars out !! n = data_vars target !! n)
       ∧ data_vars out !! "U"
         = Some {| var_dims := var_dims var_u; var_values := u';
                   var_attrs := var_attrs var_u |}
       ∧ data_vars out !! "V"
         = Some {| var_dims := var_dims var_v; var_values := v';
                   var_attrs := var_attrs var_v |}
       ∧ shape3 u' = shape3 (var_values var_u)
       ∧ shape3 v' = shape3 (var_values var_v))
  ∧ (∀ var_u var_v u1 v1 w1,
       exposes target "U" var_u → exposes target "V" var_v →
       Gapfiller.run_steps (Gapfiller.steps self) (length (heap w)) (S (length (heap w)))
         target
         (World (heap w ++ [var_values var_u; var_values var_v]) (log w ++ [LogExecuting]))
       = Return (u1, v1) w1 →
       ∃ out,
         Gapfiller.execute self target w
         = Return out (World (heap w1) (log w1 ++ [LogCompleted]))).
Proof.
  intros Hsteps. split.
  - intros out w'. unfold Gapfiller.execute. unfold_M. unfold getitem.
    destruct (data_vars target !! "U") as [var_u|] eqn:HU; simpl; [|done].
    destruct (data_vars target !! "V") as [var_v|] eqn:HV; simpl; [|done].
    rewrite length_app, Nat.add_1_r, <-app_assoc. simpl.
    destruct (Gapfiller.run_steps _ _ _ _ _) as [[u' v'] w1|e w1] eqn:Hrun; simpl; [|done].
    destruct (lookup_copies (heap w) (var_values var_u) (var_values var_v)) as [Hcu Hcv].
    pose proof Hrun as Hshape.
    eapply (run_steps_preserves_shape _ target Hsteps) in Hshape
      as (ua' & va' & Hu' & Hv' & Hsu & Hsv); [|exact Hcu|exact Hcv].
    rewrite Hu'. simpl.
    unfold conv_to_dataarray, new_DataArray. simpl.
    destruct (fits ua' _ _) eqn:HfitU; simpl; [|done].
    rewrite Hv'. simpl.
    destruct (fits va' _ _) eqn:HfitV; simpl; [|done].
    unfold drop_vars. simpl. rewrite HU, HV. simpl.
    unfold assign1. simpl. rewrite merge_coords_filter. simpl.
    rewrite merge_coords_filter. simpl.
    intros [= <- <-].
    exists var_u, var_v, ua', va'. simpl.
    pose proof (lookup_replaced (data_vars target)
                  {| var_dims := var_dims var_u; var_values := ua';
                     var_attrs := var_attrs var_u |}
                  {| var_dims := var_dims var_v; var_values := va';
                     var_attrs := var_attrs var_v |})
      as Hlookup. simpl in Hlookup.
    split_and!; try done.
    + intros x. rewrite !elem_of_ds_dims. simpl.
      split; (intros [Hc|Hvar]; [by left | right; revert Hvar]).
      * intros (n & var & Hn & Hx). rewrite Hlookup in Hn.
        destruct (decide (n = "V")) as [->|]; [|destruct (decide (n = "U")) as [->|]];
          simplify_eq.
        -- exists "V", var_v. split; [done|]. unfold var_dim_sizes in *. simpl in *.
           by rewrite <-(shape3_shape_of _ _ Hsv).
        -- exists "U", var_u. split; [done|]. unfold var_dim_sizes in *. simpl in *.
           by rewrite <-(shape3_shape_of _ _ Hsu).
        -- eauto.
      * intros (n & var & Hn & Hx).
        destruct (decide (n = "V")) as [->|HnV]; [|destruct (decide (n = "U")) as [->|HnU]];
          simplify_eq.
        -- eexists "V", _. rewrite Hlookup. split; [done|]. unfold var_dim_sizes in *. simpl.
           by rewrite (shape3_shape_of _ _ Hsv).
        -- eexists "U", _. rewrite Hlookup. split; [done|]. unfold var_dim_sizes in *. simpl.
           by rewrite (shape3_shape_of _ _ Hsu).
        -- exists n, var. rewrite Hlookup. by rewrite !decide_False.
    + intros n HnU HnV. rewrite Hlookup. by rewrite !decide_False.
  - intros var_u var_v u1 v1 w1 [HU HfitU] [HV HfitV] Hrun.
    destruct (lookup_copies (heap w) (var_values var_u) (var_values var_v)) as [Hcu Hcv].
    pose proof Hrun as Hshape.
    eapply (run_steps_preserves_shape _ target Hsteps) in Hshape
      as (ua' & va' & Hu' & Hv' & Hsu & Hsv); [|exact Hcu|exact Hcv].
    unfold Gapfiller.execute. unfold_M. unfold getitem. rewrite HU, HV. simpl.
    rewrite length_app, Nat.add_1_r, <-app_assoc. simpl. rewrite Hrun. simpl.
    rewrite Hu'. simpl. unfold conv_to_dataarray, new_DataArray. simpl.
    rewrite (fits_shape3 _ _ _ _ Hsu), HfitU. simpl. rewrite Hv'. simpl.
    rewrite (fits_shape3 _ _ _ _ Hsv), HfitV. simpl.
    unfold drop_vars. simpl. rewrite HU, HV. simpl.
    unfold assign1. simpl. rewrite merge_coords_filter. simpl.
    rewrite merge_coords_filter. simpl. by eexists.
Qed.

Lemma execute_preserves_envelope_witness :
  Forall (preserves_shape survey_ds) (Gapfiller.steps full_pipeline)
  ∧ exposes survey_ds "U" target_var_u ∧ exposes survey_ds "V" target_var_v
  ∧ data_vars survey_smoothed_ds !! "quality" = Some quality_var
  ∧ ∃ w',
      Gapfiller.execute full_pipeline survey_ds (World [] []) = Return survey_smoothed_ds w'
      ∧ (∃ var_u var_v u' v',
           data_vars survey_ds !! "U" = Some var_u ∧ data_vars survey_ds !! "V" = Some var_v
           ∧ (∀ x, x ∈ ds_dims survey_smoothed_ds ↔ x ∈ ds_dims survey_ds)
           ∧ coords survey_smoothed_ds = coords survey_ds
           ∧ ds_attrs survey_smoothed_ds = ds_attrs survey_ds
           ∧ (∀ n, n ≠ "U" → n ≠ "V" →
                data_vars survey_smoothed_ds !! n = data_vars survey_ds !! n)
           ∧ data_vars survey_smoothed_ds !! "U"
             = Some {| var_dims := var_dims var_u; var_values := u';
                       var_attrs := var_attrs var_u |}
           ∧ data_vars survey_smoothed_ds !! "V"
             = Some {| var_dims := var_dims var_v; var_values := v';
                       var_attrs := var_attrs var_v |}
           ∧ shape3 u' = shape3 (var_values var_u)
           ∧ shape3 v' = shape3 (var_values var_v))
      ∧ ∃ out,
          Gapfiller.execute full_pipeline survey_ds (World [] [])
          = Return out (World (heap w') (log w')).
Proof.
  assert (Forall (preserves_shape survey_ds) (Gapfiller.steps full_pipeline)) as Hsteps.
  { constructor; [|constructor; [|constructor]];
      apply (module_step_preserves_shape E_spec); [left | right]; by eexists. }
  assert (exposes survey_ds "U" target_var_u) as HU by (split; vm_compute; reflexivity).
  assert (exposes survey_ds "V" target_var_v) as HV by (split; vm_compute; reflexivity).
  split_and!; [exact Hsteps | exact HU | exact HV | vm_compute; reflexivity |].
  assert (Gapfiller.execute full_pipeline survey_ds (World [] [])
          = Return survey_smoothed_ds
              (World [target_u; target_v;
                      [ [[0.75; 0.5]; [0.25; 0.25]]; [[0.75; 0.5]; [0.25; 0.25]] ];
                      [ [[0.375; 0.5]; [0.125; 0.125]]; [[0.375; 0.5]; [0.125; 0.125]] ];
                      smoothed_u; smoothed_u]%float
                     [LogExecuting; LogTargetInvalid 6; LogAttempt 6; LogAfterRef 4 2;
                      LogAttempt 4; LogAfterRef 0 4; LogInterpolated 0; LogFilling 2;
                      LogCompleted])) as Hrun by (vm_compute; reflexivity).
  destruct (execute_preserves_envelope full_pipeline survey_ds (World [] []) Hsteps)
    as [Hpartial Htotal].
  eexists. split; [exact Hrun|]. split; [exact (Hpartial _ _ Hrun)|].
  apply (Htotal target_var_u target_var_v 4 5
           (World [target_u; target_v;
                   [ [[0.75; 0.5]; [0.25; 0.25]]; [[0.75; 0.5]; [0.25; 0.25]] ];
                   [ [[0.375; 0.5]; [0.125; 0.125]]; [[0.375; 0.5]; [0.125; 0.125]] ];
                   smoothed_u; smoothed_u]%float
                  [LogExecuting; LogTargetInvalid 6; LogAttempt 6; LogAfterRef 4 2;
                   LogAttempt 4; LogAfterRef 0 4; LogInterpolated 0; LogFilling 2])
           HU HV).
  vm_compute; reflexivity.
Defined.
